(** * Random Shosha Bot: post composition and publishing

    A shallow embedding of the Apps Script program that formats a literary
    sentence into a post and publishes it to X and to Bluesky, with the
    properties of its formatter, its OAuth 1.0a signing, its rich-text facet
    extraction and its two publishers.

    The program exists in two revisions.  The top level of this file follows
    the current revision (language-specific hashtags, hashtag facets, OGP
    thumbnail upload); [Module Legacy] holds the functions of [src/Code.ts]
    that differ from it. *)

From Stdlib Require Import String Ascii DecimalString DecimalZ.
From Stdlib Require Import List NArith ZArith Bool Arith Lia Sorted.
Import ListNotations.

(* ====================================================================== *)
(** * JavaScript strings                                                   *)
(* ====================================================================== *)

(** A JavaScript string is a sequence of UTF-16 code units.  A code unit is
    a number below 65536; the functions below treat a larger number as an
    ill-formed unit. *)
Definition code_unit := N.
Definition jsstring := list code_unit.

Definition is_high_surrogate (c : code_unit) : bool :=
  ((0xD800 <=? c) && (c <=? 0xDBFF))%N.

Definition is_low_surrogate (c : code_unit) : bool :=
  ((0xDC00 <=? c) && (c <=? 0xDFFF))%N.

(** The code point of the surrogate pair [hi], [lo]. *)
Definition code_point_of_pair (hi lo : code_unit) : N :=
  (0x10000 + (hi - 0xD800) * 0x400 + (lo - 0xDC00))%N.

Definition utf16_of_code_point (cp : N) : jsstring :=
  if (cp <? 0x10000)%N then [cp]
  else [0xD800 + (cp - 0x10000) / 0x400; 0xDC00 + (cp - 0x10000) mod 0x400]%N.

(** ** String literals

    The literals of the program are written here as Rocq strings, whose
    characters are the bytes of the UTF-8 text of this file; [js] decodes
    them into code units. *)
Definition bytes_of_string (s : string) : list N :=
  map N_of_ascii (list_ascii_of_string s).

Fixpoint utf16_of_utf8 (bs : list N) : jsstring :=
  match bs with
  | [] => []
  | b0 :: r0 =>
    if (b0 <? 0x80)%N then b0 :: utf16_of_utf8 r0
    else if (b0 <? 0xE0)%N then
      match r0 with
      | b1 :: r1 =>
        utf16_of_code_point ((b0 - 0xC0) * 0x40 + (b1 - 0x80))%N
          ++ utf16_of_utf8 r1
      | [] => [0xFFFD%N]
      end
    else if (b0 <? 0xF0)%N then
      match r0 with
      | b1 :: b2 :: r2 =>
        utf16_of_code_point
          ((b0 - 0xE0) * 0x1000 + (b1 - 0x80) * 0x40 + (b2 - 0x80))%N
          ++ utf16_of_utf8 r2
      | _ => [0xFFFD%N]
      end
    else
      match r0 with
      | b1 :: b2 :: b3 :: r3 =>
        utf16_of_code_point
          ((b0 - 0xF0) * 0x40000 + (b1 - 0x80) * 0x1000
           + (b2 - 0x80) * 0x40 + (b3 - 0x80))%N
          ++ utf16_of_utf8 r3
      | _ => [0xFFFD%N]
      end
  end.

Definition js (s : string) : jsstring := utf16_of_utf8 (bytes_of_string s).

(** The line feed of the template literals ([\n]). *)
Definition LF : jsstring := [10%N].

(** ** UTF-8

    [Utilities.newBlob(s).getBytes()]: the UTF-8 bytes of the string.  A
    surrogate pair is one code point of four bytes; an unpaired surrogate is
    encoded as U+FFFD.  No property below depends on that last choice. *)
Definition utf8_encode_code_point (cp : N) : list N :=
  if (cp <? 0x80)%N then [cp]
  else if (cp <? 0x800)%N then [0xC0 + cp / 0x40; 0x80 + cp mod 0x40]%N
  else if (cp <? 0x10000)%N then
    [0xE0 + cp / 0x1000; 0x80 + (cp / 0x40) mod 0x40; 0x80 + cp mod 0x40]%N
  else
    [0xF0 + cp / 0x40000; 0x80 + (cp / 0x1000) mod 0x40;
     0x80 + (cp / 0x40) mod 0x40; 0x80 + cp mod 0x40]%N.

Fixpoint newBlob_getBytes (s : jsstring) : list N :=
  match s with
  | [] => []
  | c :: rest =>
    if is_high_surrogate c then
      match rest with
      | d :: rest' =>
        if is_low_surrogate d
        then utf8_encode_code_point (code_point_of_pair c d)
               ++ newBlob_getBytes rest'
        else utf8_encode_code_point 0xFFFD%N ++ newBlob_getBytes rest
      | [] => utf8_encode_code_point 0xFFFD%N
      end
    else if is_low_surrogate c
    then utf8_encode_code_point 0xFFFD%N ++ newBlob_getBytes rest
    else utf8_encode_code_point c ++ newBlob_getBytes rest
  end.

(** ** Exceptions and fallible pure code *)
Inductive exn : Type :=
| URIError
| SyntaxError (message : jsstring)
| TypeError (message : jsstring)
| Exception (message : jsstring).

Inductive Result (A : Type) : Type :=
| Ok (a : A)
| Throw (e : exn).
Arguments Ok {A} a.
Arguments Throw {A} e.

Definition Result_bind {A B} (r : Result A) (k : A -> Result B) : Result B :=
  match r with
  | Ok a => k a
  | Throw e => Throw e
  end.

Notation "'let?' x ':=' r 'in' k" := (Result_bind r (fun x => k))
  (at level 10, x pattern, r at level 100, k at level 200).

(** ** Number to string

    [`${n}`] for an integer [n]: its decimal numeral, with a minus sign when
    negative.  Response codes, byte offsets and time stamps are integers of
    a magnitude far below 2^53, for which this is [Number::toString]. *)
Definition Number_toString (n : Z) : jsstring :=
  bytes_of_string (NilZero.string_of_int (Z.to_int n)).

(** ** Numbers

    A sentence id is a number of the API's JSON, of any size and not
    necessarily an integer.  A number is modelled by what [Number::toString]
    reads of it: not a number, an infinity, a zero, or a finite non-zero
    number with its sign and the decimal form [s * 10^(n - k)] of its
    magnitude, where [s] has [k] digits, [k] is as small as possible and
    the form reads back as the number.  [digits] holds the [k] digits of
    [s], most significant first. *)
Inductive number : Type :=
| NaN
| Infinity (negative : bool)
| Zero (negative : bool)
| Finite (negative : bool) (digits : jsstring) (n : Z).

Definition DIGIT_ZERO : code_unit := 0x30%N.

(** [`${x}`] for a number [x], that is [Number::toString] in radix 10:
    the digits and then zeros for an integer below 10^21, a decimal point
    within the digits, [0.] and up to five zeros before the digits, and the
    exponent notation beyond ([1e+21], [1.5e-7]). *)
Definition number_toString (x : number) : jsstring :=
  match x with
  | NaN => js "NaN"
  | Infinity false => js "Infinity"
  | Infinity true => js "-Infinity"
  | Zero _ => js "0"
  | Finite negative digits n =>
    let k := Z.of_nat (length digits) in
    (if negative then js "-" else [])
    ++ (if ((k <=? n) && (n <=? 21))%Z then
          digits ++ repeat DIGIT_ZERO (Z.to_nat (n - k))
        else if ((0 <? n) && (n <=? 21))%Z then
          firstn (Z.to_nat n) digits ++ js "." ++ skipn (Z.to_nat n) digits
        else if ((-6 <? n) && (n <=? 0))%Z then
          js "0." ++ repeat DIGIT_ZERO (Z.to_nat (- n)) ++ digits
        else
          let e := (n - 1)%Z in
          let exponent :=
            (if (e <? 0)%Z then js "-" else js "+")
            ++ Number_toString (Z.abs e) in
          if (k =? 1)%Z then digits ++ js "e" ++ exponent
          else firstn 1 digits ++ js "." ++ skipn 1 digits
               ++ js "e" ++ exponent)
  end.

Fixpoint strip_leading_zeros (s : jsstring) : jsstring :=
  match s with
  | c :: s' => if (c =? DIGIT_ZERO)%N then strip_leading_zeros s' else s
  | [] => []
  end.

Definition strip_trailing_zeros (s : jsstring) : jsstring :=
  rev (strip_leading_zeros (rev s)).

(** The number that an integer is, such as the sentence id 12: its digits
    are those of the numeral without the trailing zeros, and [n] is the
    length of the numeral.  Every integer up to 2^53 is a number, with this
    decimal form; a larger number may have a shorter form than its value
    (2^69 has the sixteen digits 5902958103587057), and not every larger
    integer is a number. *)
Definition integer (z : Z) : number :=
  match z with
  | 0%Z => Zero false
  | Z.pos p =>
    let numeral := Number_toString (Z.pos p) in
    Finite false (strip_trailing_zeros numeral) (Z.of_nat (length numeral))
  | Z.neg p =>
    let numeral := Number_toString (Z.pos p) in
    Finite true (strip_trailing_zeros numeral) (Z.of_nat (length numeral))
  end.

(** ** Percent encoding *)
Definition is_ascii_alnum (c : code_unit) : bool :=
  (((0x41 <=? c) && (c <=? 0x5A)) || ((0x61 <=? c) && (c <=? 0x7A))
   || ((0x30 <=? c) && (c <=? 0x39)))%N.

(** The set left alone by [encodeURIComponent]: letters, digits and
    [- _ . ! ~ * ' ( )]. *)
Definition uriUnescaped (c : code_unit) : bool :=
  is_ascii_alnum c
  || existsb (N.eqb c) [0x2D; 0x5F; 0x2E; 0x21; 0x7E; 0x2A; 0x27; 0x28; 0x29]%N.

Definition hex_digit (d : N) : code_unit :=
  if (d <? 10)%N then (0x30 + d)%N else (0x41 + (d - 10))%N.

Definition percent_octet (b : N) : jsstring :=
  [0x25%N; hex_digit (b / 16); hex_digit (b mod 16)].

Definition percent_octets (bs : list N) : jsstring :=
  flat_map percent_octet bs.

(** The abstract operation [Encode] of ECMAScript with the unescaped set
    [keep]: a unit of the set is copied; any other one is read as a code
    point, whose UTF-8 octets are written as [%XX]; an unpaired surrogate
    throws [URIError]. *)
Fixpoint Encode (keep : code_unit -> bool) (s : jsstring) : Result jsstring :=
  match s with
  | [] => Ok []
  | c :: rest =>
    if keep c then
      let? r := Encode keep rest in Ok (c :: r)
    else if is_low_surrogate c then Throw URIError
    else if is_high_surrogate c then
      match rest with
      | d :: rest' =>
        if is_low_surrogate d then
          let? r := Encode keep rest' in
          Ok (percent_octets (utf8_encode_code_point (code_point_of_pair c d))
                ++ r)
        else Throw URIError
      | [] => Throw URIError
      end
    else if (c <? 0x10000)%N then
      let? r := Encode keep rest in
      Ok (percent_octets (utf8_encode_code_point c) ++ r)
    else Throw URIError
  end.

Definition encodeURIComponent (s : jsstring) : Result jsstring :=
  Encode uriUnescaped s.

(** ** Other string methods *)

(** [s.replace(/c/g, by)] for a one-character pattern. *)
Definition replace_all (c : code_unit) (by_ : jsstring) (s : jsstring)
  : jsstring :=
  flat_map (fun x => if (x =? c)%N then by_ else [x]) s.

(** [s.toUpperCase()] on ASCII text (HTTP method names). *)
Definition toUpperCase (s : jsstring) : jsstring :=
  map (fun c => if ((0x61 <=? c) && (c <=? 0x7A))%N then (c - 0x20)%N else c) s.

Fixpoint strip_prefix (p s : jsstring) : option jsstring :=
  match p, s with
  | [], _ => Some s
  | a :: p', b :: s' => if (a =? b)%N then strip_prefix p' s' else None
  | _ :: _, [] => None
  end.

(** [s.startsWith(p)] *)
Definition startsWith (s p : jsstring) : bool :=
  match strip_prefix p s with Some _ => true | None => false end.

(** [parts.join(sep)] *)
Fixpoint join (sep : jsstring) (parts : list jsstring) : jsstring :=
  match parts with
  | [] => []
  | [p] => p
  | p :: rest => p ++ sep ++ join sep rest
  end.

(** Comparison of strings by code units, the default order of
    [Array.prototype.sort]. *)
Fixpoint jsstring_leb (a b : jsstring) : bool :=
  match a, b with
  | [], _ => true
  | _ :: _, [] => false
  | x :: a', y :: b' =>
    if (x <? y)%N then true
    else if (y <? x)%N then false
    else jsstring_leb a' b'
  end.

Fixpoint jsstring_eqb (a b : jsstring) : bool :=
  match a, b with
  | [], [] => true
  | x :: a', y :: b' => (x =? y)%N && jsstring_eqb a' b'
  | _, _ => false
  end.

(* ====================================================================== *)
(** * Content formatter                                                    *)
(* ====================================================================== *)

Record BaseSentenceMetadata := {
  sentence_text : jsstring;
  book_id : jsstring;
  sentence_id : number;
  title : jsstring;
  author : jsstring
}.

Record JapaneseSentenceResponse := {
  ja_base :> BaseSentenceMetadata;
  char_count : number;
  card_url : jsstring
}.

Record EnglishSentenceResponse := {
  en_base :> BaseSentenceMetadata;
  word_count : number
}.

Inductive Language := ja | en.

Record ShareContent := { text : jsstring; url : jsstring }.

Definition generateShareUrl (bookId : jsstring) (sentenceId : number)
  (lang : Language) : Result jsstring :=
  let? encodedBookId := encodeURIComponent bookId in
  match lang with
  | en =>
    Ok (js "https://rmc-8.com/shosha/random_shosha_en/?book_id="
        ++ encodedBookId ++ js "&sentence_id=" ++ number_toString sentenceId)
  | ja =>
    Ok (js "https://rmc-8.com/shosha/random_shosha/?book_id="
        ++ encodedBookId ++ js "&sentence_id=" ++ number_toString sentenceId)
  end.

Definition HYPHEN : code_unit := 0x2D%N.

Definition generateHashtags (bookId : jsstring) (sentenceId : number)
  (lang : Language) : jsstring :=
  let cleanBookId := replace_all HYPHEN [] bookId in
  let mainHashtag :=
    match lang with
    | ja => js "#ランダム書写"
    | en => js "#random_shosha"
    end in
  mainHashtag ++ js " #" ++ cleanBookId ++ js "_" ++ number_toString sentenceId.

Definition generateJapaneseShareContent (data : JapaneseSentenceResponse)
  : Result ShareContent :=
  let? shareUrl := generateShareUrl (book_id data) (sentence_id data) ja in
  let hashtags := generateHashtags (book_id data) (sentence_id data) ja in
  let text :=
    js "『" ++ title data ++ js "』" ++ author data ++ js "著" ++ LF
    ++ hashtags ++ LF ++ shareUrl in
  Ok {| text := text; url := shareUrl |}.

Definition generateEnglishShareContent (data : EnglishSentenceResponse)
  : Result ShareContent :=
  let? shareUrl := generateShareUrl (book_id data) (sentence_id data) en in
  let hashtags := generateHashtags (book_id data) (sentence_id data) en in
  let text :=
    [0x22%N] ++ title data ++ [0x22%N] ++ js " by " ++ author data ++ LF
    ++ hashtags ++ LF ++ shareUrl in
  Ok {| text := text; url := shareUrl |}.

(* ====================================================================== *)
(** * Regular expressions                                                  *)
(* ====================================================================== *)

(** The class [\s]: white space and line terminators of ECMAScript. *)
Definition is_white_space (c : code_unit) : bool :=
  existsb (N.eqb c)
    [0x09; 0x0A; 0x0B; 0x0C; 0x0D; 0x20; 0xA0; 0x1680; 0x2028; 0x2029;
     0x202F; 0x205F; 0x3000; 0xFEFF]%N
  || ((0x2000 <=? c) && (c <=? 0x200A))%N.

(** The class [[a-zA-Z0-9_\u3040-\u309F\u30A0-\u30FF\u4E00-\u9FFF]]. *)
Definition is_hashtag_char (c : code_unit) : bool :=
  (is_ascii_alnum c || (c =? 0x5F)
   || ((0x3040 <=? c) && (c <=? 0x309F))
   || ((0x30A0 <=? c) && (c <=? 0x30FF))
   || ((0x4E00 <=? c) && (c <=? 0x9FFF)))%N.

(** Number of leading units of [s] in the class [p]: the greedy [[p]*]. *)
Fixpoint run_length (p : code_unit -> bool) (s : jsstring) : nat :=
  match s with
  | c :: s' => if p c then S (run_length p s') else 0
  | [] => 0
  end.

(** A pattern is given by its matcher anchored at the start of the input:
    the length of the match there, if there is one. *)
Record RegExp := { match_at : jsstring -> option nat }.

(** [[^\s]+] and [[...]+]: the greedy, non-empty run of a class. *)
Definition match_run1 (p : code_unit -> bool) (s : jsstring) : option nat :=
  match run_length p s with
  | 0 => None
  | S k => Some (S k)
  end.

(** [/https?:\/\/[^\s]+/]: the optional [s] is tried first, then its
    absence. *)
Definition urlRegex : RegExp :=
  {| match_at := fun s =>
       match strip_prefix (js "http") s with
       | None => None
       | Some r =>
         let tail (r' : jsstring) (n : nat) :=
           match strip_prefix (js "://") r' with
           | Some body =>
             match match_run1 (fun c => negb (is_white_space c)) body with
             | Some k => Some (n + 3 + k)
             | None => None
             end
           | None => None
           end in
         match r with
         | c :: r' =>
           if (c =? 0x73)%N then
             match tail r' 5 with
             | Some n => Some n
             | None => tail r 4
             end
           else tail r 4
         | [] => tail r 4
         end
       end |}.

Definition HASH : code_unit := 0x23%N.

(** [/#[a-zA-Z0-9_\u3040-\u309F\u30A0-\u30FF\u4E00-\u9FFF]+/] *)
Definition hashtagRegex : RegExp :=
  {| match_at := fun s =>
       match s with
       | c :: body =>
         if (c =? HASH)%N then
           match match_run1 is_hashtag_char body with
           | Some k => Some (1 + k)
           | None => None
           end
         else None
       | [] => None
       end |}.

(** The leftmost position at or after [i] where the pattern matches; [s] is
    the input from position [i] on. *)
Fixpoint search (re : RegExp) (s : jsstring) (i : nat) : option (nat * nat) :=
  match match_at re s with
  | Some n => Some (i, n)
  | None =>
    match s with
    | [] => None
    | _ :: s' => search re s' (S i)
    end
  end.

(** [text.substring(a, b)] for [a <= b]. *)
Definition substring (s : jsstring) (a b : nat) : jsstring :=
  firstn (b - a) (skipn a s).

(** The result of a successful [exec]: [match.index] and [match[0]]. *)
Record RegExpExecArray := { match_index : nat; match_0 : jsstring }.

(** [re.exec(text)] of a global pattern whose [lastIndex] is [lastIndex]:
    the match, if any, and the new [lastIndex]. *)
Definition exec (re : RegExp) (text : jsstring) (lastIndex : nat)
  : option RegExpExecArray * nat :=
  if length text <? lastIndex then (None, 0)
  else
    match search re (skipn lastIndex text) lastIndex with
    | Some (i, n) =>
      (Some {| match_index := i; match_0 := substring text i (i + n) |}, i + n)
    | None => (None, 0)
    end.

(* ====================================================================== *)
(** * Rich-text facets                                                     *)
(* ====================================================================== *)

Inductive Feature :=
| FacetLink (uri : jsstring)   (* $type: 'app.bsky.richtext.facet#link' *)
| FacetTag (tag : jsstring).   (* $type: 'app.bsky.richtext.facet#tag' *)

Record ByteSlice := { byteStart : nat; byteEnd : nat }.

Record Facet := { index : ByteSlice; features : list Feature }.

(** [while ((match = re.exec(text)) !== null) { facets.push(body match) }].
    The loop runs at most [fuel] times; [while_exec_fuel] shows that one
    more than the length of the text is enough for the two patterns. *)
Fixpoint while_exec (fuel : nat) (re : RegExp) (text : jsstring)
  (lastIndex : nat) (body : RegExpExecArray -> Facet) (facets : list Facet)
  : list Facet :=
  match fuel with
  | 0 => facets
  | S fuel' =>
    match exec re text lastIndex with
    | (Some m, lastIndex') =>
      while_exec fuel' re text lastIndex' body (facets ++ [body m])
    | (None, _) => facets
    end
  end.

Definition linkFacet (text : jsstring) (m : RegExpExecArray) : Facet :=
  let url := match_0 m in
  let byteStart :=
    length (newBlob_getBytes (substring text 0 (match_index m))) in
  let byteEnd := byteStart + length (newBlob_getBytes url) in
  {| index := {| byteStart := byteStart; byteEnd := byteEnd |};
     features := [FacetLink url] |}.

Definition tagFacet (text : jsstring) (m : RegExpExecArray) : Facet :=
  let hashtag := match_0 m in
  let tag := skipn 1 hashtag in
  let byteStart :=
    length (newBlob_getBytes (substring text 0 (match_index m))) in
  let byteEnd := byteStart + length (newBlob_getBytes hashtag) in
  {| index := {| byteStart := byteStart; byteEnd := byteEnd |};
     features := [FacetTag tag] |}.

Definition extractFacets (text : jsstring) : list Facet :=
  let facets := [] in
  let facets :=
    while_exec (S (length text)) urlRegex text 0 (linkFacet text) facets in
  let facets :=
    while_exec (S (length text)) hashtagRegex text 0 (tagFacet text) facets in
  facets.

(** The functions of [src/Code.ts] that differ from the current revision. *)
Module Legacy.

Definition generateHashtags (bookId : jsstring) (sentenceId : number)
  : jsstring :=
  let cleanBookId := replace_all HYPHEN [] bookId in
  js "#random_shosha #" ++ cleanBookId ++ js "_" ++ number_toString sentenceId.

Definition generateJapaneseShareContent (data : JapaneseSentenceResponse)
  : Result ShareContent :=
  let? shareUrl := generateShareUrl (book_id data) (sentence_id data) ja in
  let hashtags := generateHashtags (book_id data) (sentence_id data) in
  let text :=
    js "『" ++ title data ++ js "』" ++ author data ++ js "著" ++ LF
    ++ hashtags ++ LF ++ shareUrl in
  Ok {| text := text; url := shareUrl |}.

Definition generateEnglishShareContent (data : EnglishSentenceResponse)
  : Result ShareContent :=
  let? shareUrl := generateShareUrl (book_id data) (sentence_id data) en in
  let hashtags := generateHashtags (book_id data) (sentence_id data) in
  let text :=
    [0x22%N] ++ title data ++ [0x22%N] ++ js " by " ++ author data ++ LF
    ++ hashtags ++ LF ++ shareUrl in
  Ok {| text := text; url := shareUrl |}.

(** [extractFacets] of [src/Code.ts]: links only. *)
Definition extractFacets (text_ : jsstring) : list Facet :=
  let facets := [] in
  while_exec (S (length text_)) urlRegex text_ 0 (linkFacet text_) facets.

End Legacy.

(* ====================================================================== *)
(** * JavaScript values and JSON                                           *)
(* ====================================================================== *)

(** The values the program builds and reads.  Their numbers are integers
    (byte offsets, sizes). *)
#[local] Unset Elimination Schemes.
Inductive JSValue : Type :=
| JSUndefined
| JSNull
| JSBool (b : bool)
| JSNumber (n : Z)
| JSString (s : jsstring)
| JSArray (items : list JSValue)
| JSObject (props : list (jsstring * JSValue)).
#[local] Set Elimination Schemes.

(** Truthiness, as tested by [if (v)], [!v] and [v || d]. *)
Definition ToBoolean (v : JSValue) : bool :=
  match v with
  | JSUndefined | JSNull => false
  | JSBool b => b
  | JSNumber n => negb (n =? 0)%Z
  | JSString s => match s with [] => false | _ :: _ => true end
  | JSArray _ | JSObject _ => true
  end.

(** [`${v}`] *)
Fixpoint ToString (v : JSValue) : jsstring :=
  match v with
  | JSUndefined => js "undefined"
  | JSNull => js "null"
  | JSBool true => js "true"
  | JSBool false => js "false"
  | JSNumber n => Number_toString n
  | JSString s => s
  | JSArray items =>
    join (js ",")
      (map (fun x =>
              match x with
              | JSUndefined | JSNull => []
              | _ => ToString x
              end) items)
  | JSObject _ => js "[object Object]"
  end.

(** ** Objects: properties in insertion order, one entry per key *)
Fixpoint props_get {V} (ps : list (jsstring * V)) (k : jsstring) : option V :=
  match ps with
  | [] => None
  | (k', v) :: ps' => if jsstring_eqb k' k then Some v else props_get ps' k
  end.

(** [o[k] = v] *)
Fixpoint props_set {V} (ps : list (jsstring * V)) (k : jsstring) (v : V)
  : list (jsstring * V) :=
  match ps with
  | [] => [(k, v)]
  | (k', v') :: ps' =>
    if jsstring_eqb k' k then (k, v) :: ps' else (k', v') :: props_set ps' k v
  end.

(** [{ ...ps, ...qs }] *)
Definition props_spread {V} (ps qs : list (jsstring * V))
  : list (jsstring * V) :=
  fold_left (fun acc kv => props_set acc (fst kv) (snd kv)) qs ps.

(** The own properties that [...v] copies: those of an object, none of
    [false]. *)
Definition spread_of (v : JSValue) : list (jsstring * JSValue) :=
  match v with
  | JSObject ps => ps
  | _ => []
  end.

Definition Object_keys {V} (ps : list (jsstring * V)) : list jsstring :=
  map fst ps.

(** [v.k]: reading a property of [null] or [undefined] throws; a key absent
    from an object reads as [undefined], and so does a key that is no
    property of a primitive or an array (the program reads [accessJwt] and
    [blob]). *)
Definition Get (v : JSValue) (k : jsstring) : Result JSValue :=
  match v with
  | JSUndefined => Throw (TypeError (js "Cannot read properties of undefined"))
  | JSNull => Throw (TypeError (js "Cannot read properties of null"))
  | JSObject ps =>
    match props_get ps k with
    | Some x => Ok x
    | None => Ok JSUndefined
    end
  | _ => Ok JSUndefined
  end.

(** ** Array.prototype.sort with the default order *)
Fixpoint sort_insert (x : jsstring) (l : list jsstring) : list jsstring :=
  match l with
  | [] => [x]
  | y :: l' => if jsstring_leb x y then x :: l else y :: sort_insert x l'
  end.

Definition Array_sort (l : list jsstring) : list jsstring :=
  fold_right sort_insert [] l.

(** ** JSON.stringify *)
Definition hex_digit_lower (d : N) : code_unit :=
  if (d <? 10)%N then (0x30 + d)%N else (0x61 + (d - 10))%N.

Definition UnicodeEscape (c : code_unit) : jsstring :=
  [0x5C; 0x75; hex_digit_lower (c / 0x1000); hex_digit_lower ((c / 0x100) mod 16);
   hex_digit_lower ((c / 0x10) mod 16); hex_digit_lower (c mod 16)]%N.

Definition quote_unit (c : code_unit) : jsstring :=
  if (c =? 0x08)%N then [0x5C; 0x62]%N
  else if (c =? 0x09)%N then [0x5C; 0x74]%N
  else if (c =? 0x0A)%N then [0x5C; 0x6E]%N
  else if (c =? 0x0C)%N then [0x5C; 0x66]%N
  else if (c =? 0x0D)%N then [0x5C; 0x72]%N
  else if (c =? 0x22)%N then [0x5C; 0x22]%N
  else if (c =? 0x5C)%N then [0x5C; 0x5C]%N
  else if (c <? 0x20)%N then UnicodeEscape c
  else [c].

Fixpoint quote_units (s : jsstring) : jsstring :=
  match s with
  | [] => []
  | c :: rest =>
    if is_high_surrogate c then
      match rest with
      | d :: rest' =>
        if is_low_surrogate d then c :: d :: quote_units rest'
        else UnicodeEscape c ++ quote_units rest
      | [] => UnicodeEscape c
      end
    else if is_low_surrogate c then UnicodeEscape c ++ quote_units rest
    else quote_unit c ++ quote_units rest
  end.

Definition QuoteJSONString (s : jsstring) : jsstring :=
  [0x22%N] ++ quote_units s ++ [0x22%N].

(** [JSON.stringify(v)]; [None] is the result [undefined]. *)
Fixpoint JSON_stringify (v : JSValue) : option jsstring :=
  match v with
  | JSUndefined => None
  | JSNull => Some (js "null")
  | JSBool true => Some (js "true")
  | JSBool false => Some (js "false")
  | JSNumber n => Some (Number_toString n)
  | JSString s => Some (QuoteJSONString s)
  | JSArray items =>
    Some (js "[" ++
          join (js ",")
            (map (fun x =>
                    match JSON_stringify x with
                    | Some t => t
                    | None => js "null"
                    end) items)
          ++ js "]")
  | JSObject ps =>
    Some (js "{" ++
          join (js ",")
            (flat_map (fun kv =>
                    match JSON_stringify (snd kv) with
                    | Some t => [QuoteJSONString (fst kv) ++ js ":" ++ t]
                    | None => []
                    end) ps)
          ++ js "}")
  end.

(** [`${JSON.stringify(v)}`] *)
Definition stringify_text (v : JSValue) : jsstring :=
  match JSON_stringify v with
  | Some t => t
  | None => js "undefined"
  end.

(* ====================================================================== *)
(** * The platform: HTTP, clock, logger                                    *)
(* ====================================================================== *)

Record Blob := { getContentType : option jsstring; getBytes : list N }.

Record HTTPResponse := {
  getResponseCode : Z;
  getContentText : jsstring;
  getBlob : Blob
}.

Inductive Payload :=
| PayloadString (s : jsstring)
| PayloadBytes (bs : list N).

Record URLFetchRequestOptions := {
  method : option jsstring;
  contentType : option jsstring;
  headers : list (jsstring * jsstring);
  payload : option Payload;
  muteHttpExceptions : bool
}.

Record FetchCall := {
  fetch_url : jsstring;
  fetch_options : URLFetchRequestOptions
}.

(** What a run leaves behind: the lines given to [Logger.log] and the calls
    made to [UrlFetchApp.fetch], both in order. *)
Record World := {
  logged : list jsstring;
  fetched : list FetchCall
}.

(** The services of the runtime that are not part of the program.  The
    answer of the network, the clock and the UUID generator may depend on
    the calls made before.  [UrlFetchApp_respond] throws on a transport
    failure; an HTTP error status is an ordinary response (all calls of
    the publishers set [muteHttpExceptions]). *)
Record Platform := {
  UrlFetchApp_respond : list FetchCall -> FetchCall -> Result HTTPResponse;
  Date_now : list FetchCall -> Z;
  Date_toISOString : list FetchCall -> jsstring;
  Utilities_getUuid : list FetchCall -> jsstring;
  Utilities_computeHmacSignature_SHA1 : jsstring -> jsstring -> list N;
  Utilities_base64Encode : list N -> jsstring;
  JSON_parse : jsstring -> Result JSValue
}.

(** Computations with effects on the world that may throw. *)
Definition M (A : Type) : Type := World -> Result A * World.

Definition ret {A} (a : A) : M A := fun w => (Ok a, w).

Definition bind {A B} (m : M A) (k : A -> M B) : M B :=
  fun w =>
    match m w with
    | (Ok a, w') => k a w'
    | (Throw e, w') => (Throw e, w')
    end.

Definition lift {A} (r : Result A) : M A := fun w => (r, w).

(** [try { body } catch (error) { handler }] *)
Definition try_catch {A} (body : M A) (handler : exn -> M A) : M A :=
  fun w =>
    match body w with
    | (Ok a, w') => (Ok a, w')
    | (Throw e, w') => handler e w'
    end.

Notation "x <- m ;; k" := (bind m (fun x => k))
  (at level 61, m at next level, right associativity).
Notation "m ;;; k" := (bind m (fun _ => k))
  (at level 61, right associativity).

Definition Logger_log (line : jsstring) : M unit :=
  fun w => (Ok tt, {| logged := logged w ++ [line]; fetched := fetched w |}).

(** [`${error}`] *)
Definition exn_toString (e : exn) : jsstring :=
  match e with
  | URIError => js "URIError: URI malformed"
  | SyntaxError m => js "SyntaxError: " ++ m
  | TypeError m => js "TypeError: " ++ m
  | Exception m => js "Exception: " ++ m
  end.

Definition empty_world : World := {| logged := []; fetched := [] |}.

(** [`${s}`] and truthiness of an optional string argument. *)
Definition opt_ToString (o : option jsstring) : jsstring :=
  match o with Some s => s | None => js "undefined" end.

Definition opt_truthy (o : option jsstring) : bool :=
  match o with Some (_ :: _) => true | _ => false end.

(** [o || d] *)
Definition opt_or (o : option jsstring) (d : jsstring) : jsstring :=
  match o with Some (c :: s) => c :: s | _ => d end.

Fixpoint Result_mapM {A B} (f : A -> Result B) (l : list A) : Result (list B) :=
  match l with
  | [] => Ok []
  | a :: l' => let? b := f a in let? bs := Result_mapM f l' in Ok (b :: bs)
  end.

Record XCredentials := {
  apiKey : jsstring;
  apiSecret : jsstring;
  accessToken : jsstring;
  accessTokenSecret : jsstring
}.

Record BlueskyCredentials := { identifier : jsstring; password : jsstring }.

(** [params[key]!] *)
Definition param_at (params : list (jsstring * jsstring)) (key : jsstring)
  : jsstring :=
  opt_ToString (props_get params key).

(* ====================================================================== *)
(** * X (Twitter)                                                          *)
(* ====================================================================== *)

Definition sortedParams (params : list (jsstring * jsstring))
  : Result jsstring :=
  let? pairs :=
    Result_mapM
      (fun key =>
         let? k := encodeURIComponent key in
         let? v := encodeURIComponent (param_at params key) in
         Ok (k ++ js "=" ++ v))
      (Array_sort (Object_keys params)) in
  Ok (join (js "&") pairs).

Definition signatureBaseString (method_ url_ : jsstring)
  (params : list (jsstring * jsstring)) : Result jsstring :=
  let? sorted := sortedParams params in
  let? u := encodeURIComponent url_ in
  let? p := encodeURIComponent sorted in
  Ok (join (js "&") [toUpperCase method_; u; p]).

Definition signingKey (consumerSecret tokenSecret : jsstring)
  : Result jsstring :=
  let? c := encodeURIComponent consumerSecret in
  let? t := encodeURIComponent tokenSecret in
  Ok (c ++ js "&" ++ t).

(** The JSON form of a facet. *)
Definition feature_value (f : Feature) : JSValue :=
  match f with
  | FacetLink uri =>
    JSObject [(js "$type", JSString (js "app.bsky.richtext.facet#link"));
              (js "uri", JSString uri)]
  | FacetTag tag =>
    JSObject [(js "$type", JSString (js "app.bsky.richtext.facet#tag"));
              (js "tag", JSString tag)]
  end.

Definition facet_value (f : Facet) : JSValue :=
  JSObject
    [(js "index",
      JSObject [(js "byteStart", JSNumber (Z.of_nat (byteStart (index f))));
                (js "byteEnd", JSNumber (Z.of_nat (byteEnd (index f))))]);
     (js "features", JSArray (map feature_value (features f)))].

Section Publishers.

Variable P : Platform.

Definition UrlFetchApp_fetch (url_ : jsstring)
  (options : URLFetchRequestOptions) : M HTTPResponse :=
  fun w =>
    let call := {| fetch_url := url_; fetch_options := options |} in
    (UrlFetchApp_respond P (fetched w) call,
     {| logged := logged w; fetched := fetched w ++ [call] |}).

Definition generateOAuthSignature (method_ url_ : jsstring)
  (params : list (jsstring * jsstring)) (consumerSecret tokenSecret : jsstring)
  : Result jsstring :=
  let? base := signatureBaseString method_ url_ params in
  let? key := signingKey consumerSecret tokenSecret in
  let signature := Utilities_computeHmacSignature_SHA1 P base key in
  Ok (Utilities_base64Encode P signature).

Definition generateOAuthHeader (method_ url_ : jsstring)
  (params : list (jsstring * jsstring)) (credentials : XCredentials)
  : M jsstring :=
  timestamp <-
    (fun w => (Ok (Number_toString (Date_now P (fetched w) / 1000)), w)) ;;
  nonce <- (fun w => (Ok (Utilities_getUuid P (fetched w)), w)) ;;
  let oauthParams :=
    props_spread
      [(js "oauth_consumer_key", apiKey credentials);
       (js "oauth_token", accessToken credentials);
       (js "oauth_signature_method", js "HMAC-SHA1");
       (js "oauth_timestamp", timestamp);
       (js "oauth_nonce", nonce);
       (js "oauth_version", js "1.0")]
      params in
  signature <-
    lift (generateOAuthSignature method_ url_ oauthParams
            (apiSecret credentials) (accessTokenSecret credentials)) ;;
  let oauthParams := props_set oauthParams (js "oauth_signature") signature in
  pairs <-
    lift (Result_mapM
            (fun key =>
               let? k := encodeURIComponent key in
               let? v := encodeURIComponent (param_at oauthParams key) in
               Ok (k ++ [0x3D; 0x22]%N ++ v ++ [0x22%N]))
            (Array_sort
               (filter (fun key => startsWith key (js "oauth_"))
                  (Object_keys oauthParams)))) ;;
  let headerParams := join (js ", ") pairs in
  ret (js "OAuth " ++ headerParams).

Definition postToX (text_ : jsstring) (credentials : XCredentials) : M bool :=
  let url_ := js "https://api.twitter.com/2/tweets" in
  let method_ := js "POST" in
  try_catch
    (let payload_ := JSObject [(js "text", JSString text_)] in
     let payloadString := JSON_stringify payload_ in
     authHeader <- generateOAuthHeader method_ url_ [] credentials ;;
     let options :=
       {| method := Some (js "post");
          contentType := Some (js "application/json");
          headers := [(js "Authorization", authHeader)];
          payload := option_map PayloadString payloadString;
          muteHttpExceptions := true |} in
     response <- UrlFetchApp_fetch url_ options ;;
     let responseCode := getResponseCode response in
     let responseText := getContentText response in
     if (responseCode =? 201)%Z then
       Logger_log (js "X post successful: " ++ responseText) ;;;
       ret true
     else
       Logger_log (js "X post failed (" ++ Number_toString responseCode
                   ++ js "): " ++ responseText) ;;;
       ret false)
    (fun error =>
       Logger_log (js "X post error: " ++ exn_toString error) ;;;
       ret false).

(* ====================================================================== *)
(** * Bluesky                                                              *)
(* ====================================================================== *)

Definition BLUESKY_API_BASE : jsstring := js "https://bsky.social/xrpc".

Definition createBlueskySession (credentials : BlueskyCredentials)
  : M JSValue :=
  let url_ := BLUESKY_API_BASE ++ js "/com.atproto.server.createSession" in
  try_catch
    (let payload_ :=
       JSObject [(js "identifier", JSString (identifier credentials));
                 (js "password", JSString (password credentials))] in
     let options :=
       {| method := Some (js "post");
          contentType := Some (js "application/json");
          headers := [];
          payload := option_map PayloadString (JSON_stringify payload_);
          muteHttpExceptions := true |} in
     response <- UrlFetchApp_fetch url_ options ;;
     let responseCode := getResponseCode response in
     if (responseCode =? 200)%Z then
       data <- lift (JSON_parse P (getContentText response)) ;;
       Logger_log (js "Bluesky session created successfully") ;;;
       lift (Get data (js "accessJwt"))
     else
       Logger_log (js "Bluesky session creation failed ("
                   ++ Number_toString responseCode ++ js "): "
                   ++ getContentText response) ;;;
       ret JSNull)
    (fun error =>
       Logger_log (js "Bluesky session creation error: "
                   ++ exn_toString error) ;;;
       ret JSNull).

Definition uploadBlobToBluesky (imageUrl : jsstring) (accessJwt : JSValue)
  : M JSValue :=
  try_catch
    (imageResponse <-
       UrlFetchApp_fetch imageUrl
         {| method := None; contentType := None; headers := [];
            payload := None; muteHttpExceptions := true |} ;;
     let imageBlob := getBlob imageResponse in
     let mimeType := opt_or (getContentType imageBlob) (js "image/jpeg") in
     Logger_log (js "Downloading image: " ++ imageUrl ++ js ", MIME: "
                 ++ mimeType) ;;;
     let uploadUrl := BLUESKY_API_BASE ++ js "/com.atproto.repo.uploadBlob" in
     let options :=
       {| method := Some (js "post");
          contentType := None;
          headers := [(js "Content-Type", mimeType);
                      (js "Authorization",
                       js "Bearer " ++ ToString accessJwt)];
          payload := Some (PayloadBytes (getBytes imageBlob));
          muteHttpExceptions := true |} in
     uploadResponse <- UrlFetchApp_fetch uploadUrl options ;;
     let uploadCode := getResponseCode uploadResponse in
     if (uploadCode =? 200)%Z then
       data <- lift (JSON_parse P (getContentText uploadResponse)) ;;
       blob <- lift (Get data (js "blob")) ;;
       Logger_log (js "Blob uploaded successfully: " ++ stringify_text blob) ;;;
       ret blob
     else
       Logger_log (js "Blob upload failed (" ++ Number_toString uploadCode
                   ++ js "): " ++ getContentText uploadResponse) ;;;
       ret JSNull)
    (fun error =>
       Logger_log (js "Blob upload error: " ++ exn_toString error) ;;;
       ret JSNull).

Definition postToBluesky (text_ : jsstring) (credentials : BlueskyCredentials)
  (shareUrl ogpTitle ogpDescription ogpImageUrl : option jsstring) : M bool :=
  accessJwt <- createBlueskySession credentials ;;
  if negb (ToBoolean accessJwt) then
    Logger_log (js "Bluesky authentication failed") ;;;
    ret false
  else
    let url_ := BLUESKY_API_BASE ++ js "/com.atproto.repo.createRecord" in
    try_catch
      (now <- (fun w => (Ok (Date_toISOString P (fetched w)), w)) ;;
       let facets := extractFacets text_ in
       let record :=
         props_spread
           [(js "$type", JSString (js "app.bsky.feed.post"));
            (js "text", JSString text_);
            (js "createdAt", JSString now)]
           (spread_of
              (if 0 <? length facets
               then JSObject [(js "facets", JSArray (map facet_value facets))]
               else JSBool false)) in
       record <-
         (if opt_truthy shareUrl then
            let externalData :=
              [(js "uri", JSString (opt_ToString shareUrl));
               (js "title",
                JSString (opt_or ogpTitle (js "Random Shosha - 書写のお題")));
               (js "description",
                JSString
                  (opt_or ogpDescription
                     (js "古典文学の一文を書写のお題として")))] in
            externalData <-
              (if opt_truthy ogpImageUrl then
                 blob <-
                   uploadBlobToBluesky (opt_ToString ogpImageUrl) accessJwt ;;
                 if ToBoolean blob then
                   let externalData :=
                     props_set externalData (js "thumb") blob in
                   Logger_log (js "OGP thumbnail uploaded successfully") ;;;
                   ret externalData
                 else ret externalData
               else ret externalData) ;;
            let record :=
              props_set record (js "embed")
                (JSObject
                   [(js "$type", JSString (js "app.bsky.embed.external"));
                    (js "external", JSObject externalData)]) in
            Logger_log (js "Adding OGP card - URL: " ++ opt_ToString shareUrl
                        ++ js ", Title: " ++ opt_ToString ogpTitle) ;;;
            ret record
          else ret record) ;;
       Logger_log (js "Bluesky post record: "
                   ++ stringify_text (JSObject record)) ;;;
       let payload_ :=
         JSObject [(js "repo", JSString (identifier credentials));
                   (js "collection", JSString (js "app.bsky.feed.post"));
                   (js "record", JSObject record)] in
       let options :=
         {| method := Some (js "post");
            contentType := Some (js "application/json");
            headers := [(js "Authorization",
                         js "Bearer " ++ ToString accessJwt)];
            payload := option_map PayloadString (JSON_stringify payload_);
            muteHttpExceptions := true |} in
       response <- UrlFetchApp_fetch url_ options ;;
       let responseCode := getResponseCode response in
       let responseText := getContentText response in
       if (responseCode =? 200)%Z then
         Logger_log (js "Bluesky post successful: " ++ responseText) ;;;
         ret true
       else
         Logger_log (js "Bluesky post failed (" ++ Number_toString responseCode
                     ++ js "): " ++ responseText) ;;;
         ret false)
      (fun error =>
         Logger_log (js "Bluesky post error: " ++ exn_toString error) ;;;
         ret false).

End Publishers.

(* ====================================================================== *)
(** * OGP image                                                            *)
(* ====================================================================== *)

(** A language as the string that it is at run time. *)
Definition Language_text (lang : Language) : jsstring :=
  match lang with
  | ja => js "ja"
  | en => js "en"
  end.

(** The image is rendered by the site from the sentence, its title and
    its author. *)
Definition generateOGPImageUrl (sentenceText title_ author_ : jsstring)
  (lang : Language) : M jsstring :=
  params <-
    lift (let? s := encodeURIComponent sentenceText in
          let? t := encodeURIComponent title_ in
          let? a := encodeURIComponent author_ in
          let? l := encodeURIComponent (Language_text lang) in
          Ok (join (js "&")
                [js "sentence=" ++ s; js "title=" ++ t;
                 js "author=" ++ a; js "lang=" ++ l])) ;;
  let ogpUrl := js "https://rmc-8.com/api/og-shosha?" ++ params in
  Logger_log (js "Generated OGP image URL: " ++ ogpUrl) ;;;
  ret ogpUrl.

(* ====================================================================== *)
(** * A reference platform                                                 *)
(* ====================================================================== *)

(** Implementations of the runtime services, used to run the publishers
    on concrete scenarios: SHA-1, HMAC and Base64 as their RFCs define
    them, a JSON parser, and networks that answer by address. *)
Module Reference.

Definition add32 (a b : N) : N := ((a + b) mod 0x100000000)%N.

Definition rotl32 (n : N) (x : N) : N :=
  N.lor (N.land (N.shiftl x n) 0xFFFFFFFF) (N.shiftr x (32 - n)).

Definition not32 (x : N) : N := N.lxor x 0xFFFFFFFF.

Fixpoint be_bytes (count : nat) (x : N) : list N :=
  match count with
  | 0 => []
  | S k => (N.shiftr x (8 * N.of_nat k) mod 256)%N :: be_bytes k x
  end.

Definition be_value (bs : list N) : N :=
  fold_left (fun acc b => (acc * 256 + b)%N) bs 0%N.

(** The message followed by the bit 1, zeros, and its length in bits on
    eight octets: a multiple of 64 octets. *)
Definition sha1_pad (msg : list N) : list N :=
  let zeros := (119 - length msg mod 64) mod 64 in
  msg ++ [0x80%N] ++ repeat 0%N zeros
      ++ be_bytes 8 (8 * N.of_nat (length msg)).

Fixpoint chunks (fuel size : nat) (bs : list N) : list (list N) :=
  match fuel, bs with
  | S fuel', _ :: _ => firstn size bs :: chunks fuel' size (skipn size bs)
  | _, _ => []
  end.

(** The eighty words of a block, latest first. *)
Fixpoint sha1_schedule (count : nat) (ws : list N) : list N :=
  match count with
  | 0 => ws
  | S k =>
    let w :=
      rotl32 1
        (N.lxor (N.lxor (nth 2 ws 0%N) (nth 7 ws 0%N))
           (N.lxor (nth 13 ws 0%N) (nth 15 ws 0%N))) in
    sha1_schedule k (w :: ws)
  end.

Record sha1_state := { sa : N; sb : N; sc : N; sd : N; se : N }.

Definition sha1_round (t : nat) (st : sha1_state) (w : N) : sha1_state :=
  let '(f, k) :=
    if t <? 20 then
      (N.lor (N.land (sb st) (sc st)) (N.land (not32 (sb st)) (sd st)),
       0x5A827999%N)
    else if t <? 40 then
      (N.lxor (N.lxor (sb st) (sc st)) (sd st), 0x6ED9EBA1%N)
    else if t <? 60 then
      (N.lor (N.lor (N.land (sb st) (sc st)) (N.land (sb st) (sd st)))
         (N.land (sc st) (sd st)),
       0x8F1BBCDC%N)
    else (N.lxor (N.lxor (sb st) (sc st)) (sd st), 0xCA62C1D6%N) in
  let temp := add32 (add32 (add32 (add32 (rotl32 5 (sa st)) f) (se st)) k) w in
  {| sa := temp; sb := sa st; sc := rotl32 30 (sb st); sd := sc st;
     se := sd st |}.

Fixpoint sha1_rounds (t : nat) (ws : list N) (st : sha1_state) : sha1_state :=
  match ws with
  | [] => st
  | w :: ws' => sha1_rounds (S t) ws' (sha1_round t st w)
  end.

Definition sha1_block (h : sha1_state) (block : list N) : sha1_state :=
  let ws := map be_value (chunks 16 4 block) in
  let all := rev (sha1_schedule 64 (rev ws)) in
  let st := sha1_rounds 0 all h in
  {| sa := add32 (sa h) (sa st); sb := add32 (sb h) (sb st);
     sc := add32 (sc h) (sc st); sd := add32 (sd h) (sd st);
     se := add32 (se h) (se st) |}.

Definition sha1 (msg : list N) : list N :=
  let padded := sha1_pad msg in
  let h :=
    fold_left sha1_block (chunks (length padded) 64 padded)
      {| sa := 0x67452301; sb := 0xEFCDAB89; sc := 0x98BADCFE;
         sd := 0x10325476; se := 0xC3D2E1F0 |}%N in
  be_bytes 4 (sa h) ++ be_bytes 4 (sb h) ++ be_bytes 4 (sc h)
    ++ be_bytes 4 (sd h) ++ be_bytes 4 (se h).

Definition hmac_sha1 (key msg : list N) : list N :=
  let key := if 64 <? length key then sha1 key else key in
  let key := key ++ repeat 0%N (64 - length key) in
  sha1 (map (N.lxor 0x5C%N) key ++ sha1 (map (N.lxor 0x36%N) key ++ msg)).

(** [Utilities.computeHmacSignature(HMAC_SHA_1, value, key)] on the UTF-8
    octets of its arguments. *)
Definition computeHmacSignature_SHA1 (value key : jsstring) : list N :=
  hmac_sha1 (newBlob_getBytes key) (newBlob_getBytes value).

Definition base64_digit (d : N) : code_unit :=
  if (d <? 26)%N then (0x41 + d)%N
  else if (d <? 52)%N then (0x61 + (d - 26))%N
  else if (d <? 62)%N then (0x30 + (d - 52))%N
  else if (d =? 62)%N then 0x2B%N
  else 0x2F%N.

Fixpoint base64Encode (bs : list N) : jsstring :=
  match bs with
  | [] => []
  | [a] =>
    [base64_digit (a / 4); base64_digit ((a mod 4) * 16); 0x3D; 0x3D]%N
  | [a; b] =>
    [base64_digit (a / 4); base64_digit ((a mod 4) * 16 + b / 16);
     base64_digit ((b mod 16) * 4); 0x3D]%N
  | a :: b :: c :: rest =>
    [base64_digit (a / 4); base64_digit ((a mod 4) * 16 + b / 16);
     base64_digit ((b mod 16) * 4 + c / 64); base64_digit (c mod 64)]%N
    ++ base64Encode rest
  end.

(** ** JSON.parse, for texts whose numbers are integers *)

Fixpoint skip_ws (s : jsstring) : jsstring :=
  match s with
  | c :: s' =>
    if existsb (N.eqb c) [0x20; 0x09; 0x0A; 0x0D]%N then skip_ws s' else s
  | [] => []
  end.

Definition hex_value (c : code_unit) : option N :=
  if ((0x30 <=? c) && (c <=? 0x39))%N then Some (c - 0x30)%N
  else if ((0x41 <=? c) && (c <=? 0x46))%N then Some (c - 0x41 + 10)%N
  else if ((0x61 <=? c) && (c <=? 0x66))%N then Some (c - 0x61 + 10)%N
  else None.

(** The units of a string literal after its opening quote, and what
    follows the closing quote. *)
Fixpoint parse_string (s : jsstring) : option (jsstring * jsstring) :=
  match s with
  | [] => None
  | c :: s' =>
    if (c =? 0x22)%N then Some ([], s')
    else if (c <? 0x20)%N then None
    else if (c =? 0x5C)%N then
      match s' with
      | e :: s'' =>
        let simple (u : code_unit) :=
          match parse_string s'' with
          | Some (t, r) => Some (u :: t, r)
          | None => None
          end in
        if (e =? 0x22)%N then simple 0x22%N
        else if (e =? 0x5C)%N then simple 0x5C%N
        else if (e =? 0x2F)%N then simple 0x2F%N
        else if (e =? 0x62)%N then simple 0x08%N
        else if (e =? 0x66)%N then simple 0x0C%N
        else if (e =? 0x6E)%N then simple 0x0A%N
        else if (e =? 0x72)%N then simple 0x0D%N
        else if (e =? 0x74)%N then simple 0x09%N
        else if (e =? 0x75)%N then
          match s'' with
          | h1 :: h2 :: h3 :: h4 :: s4 =>
            match hex_value h1, hex_value h2, hex_value h3, hex_value h4,
                  parse_string s4 with
            | Some a, Some b, Some c', Some d, Some (t, r) =>
              Some ((a * 0x1000 + b * 0x100 + c' * 0x10 + d)%N :: t, r)
            | _, _, _, _, _ => None
            end
          | _ => None
          end
        else None
      | [] => None
      end
    else
      match parse_string s' with
      | Some (t, r) => Some (c :: t, r)
      | None => None
      end
  end.

Definition is_digit (c : code_unit) : bool := ((0x30 <=? c) && (c <=? 0x39))%N.

Fixpoint parse_digits (acc : Z) (s : jsstring) : Z * jsstring :=
  match s with
  | c :: s' =>
    if is_digit c then parse_digits (acc * 10 + Z.of_N (c - 0x30)) s'
    else (acc, s)
  | [] => (acc, [])
  end.

(** An integer literal: no leading zero, no fraction, no exponent. *)
Definition parse_number (s : jsstring) : option (Z * jsstring) :=
  let '(negative, s1) :=
    match s with
    | c :: s' => if (c =? 0x2D)%N then (true, s') else (false, s)
    | [] => (false, s)
    end in
  match s1 with
  | d :: s2 =>
    if is_digit d then
      let '(n, rest) :=
        if (d =? 0x30)%N then (0%Z, s2) else parse_digits 0 s1 in
      match rest with
      | c :: _ =>
        if is_digit c || existsb (N.eqb c) [0x2E; 0x65; 0x45]%N then None
        else Some (if negative then (- n)%Z else n, rest)
      | [] => Some (if negative then (- n)%Z else n, rest)
      end
    else None
  | [] => None
  end.

Fixpoint parse_value (fuel : nat) (s : jsstring)
  : option (JSValue * jsstring) :=
  match fuel with
  | 0 => None
  | S fuel' =>
    match skip_ws s with
    | [] => None
    | c :: s' =>
      if (c =? 0x22)%N then
        match parse_string s' with
        | Some (t, r) => Some (JSString t, r)
        | None => None
        end
      else if (c =? 0x5B)%N then
        match skip_ws s' with
        | c' :: r =>
          if (c' =? 0x5D)%N then Some (JSArray [], r)
          else
            match parse_elements fuel' s' with
            | Some (items, r') => Some (JSArray items, r')
            | None => None
            end
        | [] => None
        end
      else if (c =? 0x7B)%N then
        match skip_ws s' with
        | c' :: r =>
          if (c' =? 0x7D)%N then Some (JSObject [], r)
          else
            match parse_members fuel' s' with
            | Some (ps, r') => Some (JSObject ps, r')
            | None => None
            end
        | [] => None
        end
      else
        match strip_prefix (js "null") (c :: s'),
              strip_prefix (js "true") (c :: s'),
              strip_prefix (js "false") (c :: s') with
        | Some r, _, _ => Some (JSNull, r)
        | _, Some r, _ => Some (JSBool true, r)
        | _, _, Some r => Some (JSBool false, r)
        | None, None, None =>
          match parse_number (c :: s') with
          | Some (n, r) => Some (JSNumber n, r)
          | None => None
          end
        end
    end
  end

with parse_elements (fuel : nat) (s : jsstring)
  : option (list JSValue * jsstring) :=
  match fuel with
  | 0 => None
  | S fuel' =>
    match parse_value fuel' s with
    | Some (v, r) =>
      match skip_ws r with
      | c :: r' =>
        if (c =? 0x5D)%N then Some ([v], r')
        else if (c =? 0x2C)%N then
          match parse_elements fuel' r' with
          | Some (vs, r'') => Some (v :: vs, r'')
          | None => None
          end
        else None
      | [] => None
      end
    | None => None
    end
  end

with parse_members (fuel : nat) (s : jsstring)
  : option (list (jsstring * JSValue) * jsstring) :=
  match fuel with
  | 0 => None
  | S fuel' =>
    match skip_ws s with
    | q :: s1 =>
      if (q =? 0x22)%N then
        match parse_string s1 with
        | Some (k, s2) =>
          match skip_ws s2 with
          | colon :: s3 =>
            if (colon =? 0x3A)%N then
              match parse_value fuel' s3 with
              | Some (v, r) =>
                match skip_ws r with
                | c :: r' =>
                  if (c =? 0x7D)%N then Some ([(k, v)], r')
                  else if (c =? 0x2C)%N then
                    match parse_members fuel' r' with
                    | Some (ps, r'') =>
                      Some (match props_get ps k with
                            | Some v' =>
                              (k, v')
                              :: filter (fun kv => negb (jsstring_eqb (fst kv) k))
                                   ps
                            | None => (k, v) :: ps
                            end, r'')
                    | None => None
                    end
                  else None
                | [] => None
                end
              | None => None
              end
            else None
          | [] => None
          end
        | None => None
        end
      else None
    | [] => None
    end
  end.

Definition parse_text (text_ : jsstring) : Result JSValue :=
  match parse_value (S (length text_)) text_ with
  | Some (v, r) =>
    match skip_ws r with
    | [] => Ok v
    | _ :: _ => Throw (SyntaxError (js "Unexpected non-whitespace character after JSON"))
    end
  | None => Throw (SyntaxError (js "Unexpected token in JSON"))
  end.

(** A network that answers by address, whatever was called before; an
    address it does not know is a transport failure. *)
Definition network (routes : list (jsstring * Result HTTPResponse))
  (history : list FetchCall) (call : FetchCall) : Result HTTPResponse :=
  match props_get routes (fetch_url call) with
  | Some r => r
  | None => Throw (Exception (js "DNS error: " ++ fetch_url call))
  end.

Definition response (code : Z) (body : jsstring) : Result HTTPResponse :=
  Ok {| getResponseCode := code; getContentText := body;
        getBlob := {| getContentType := None;
                      getBytes := newBlob_getBytes body |} |}.

Definition platform (routes : list (jsstring * Result HTTPResponse))
  : Platform :=
  {| UrlFetchApp_respond := network routes;
     Date_now := fun _ => 1735689600123%Z;
     Date_toISOString := fun _ => js "2025-01-01T00:00:00.123Z";
     Utilities_getUuid := fun _ => js "6fa459ea-ee8a-4ca4-894e-db77e160355e";
     Utilities_computeHmacSignature_SHA1 := computeHmacSignature_SHA1;
     Utilities_base64Encode := base64Encode;
     JSON_parse := parse_text |}.

End Reference.

(* ====================================================================== *)
(** * Vocabulary of the properties and scenarios                           *)
(* ====================================================================== *)

#[local] Ltac Zify.zify_post_hook ::= Z.to_euclidean_division_equations.

(** [u] occurs in [t]. *)
Definition occurs_in (u t : jsstring) : Prop :=
  exists pre post, t = pre ++ u ++ post.

(** The same as a test, [t.includes(u)]. *)
Fixpoint occursb (u t : jsstring) : bool :=
  match strip_prefix u t with
  | Some _ => true
  | None =>
    match t with
    | [] => false
    | _ :: t' => occursb u t'
    end
  end.

(** [CodePointAt]: the code point at the head of a string and what follows
    it; [None] at an unpaired surrogate. *)
Definition CodePointAt (s : jsstring) : option (N * jsstring) :=
  match s with
  | [] => None
  | c :: rest =>
    if is_low_surrogate c then None
    else if is_high_surrogate c then
      match rest with
      | d :: rest' =>
        if is_low_surrogate d then Some (code_point_of_pair c d, rest')
        else None
      | [] => None
      end
    else if (c <? 0x10000)%N then Some (c, rest)
    else None
  end.

(** The first octet of a UTF-8 sequence tells its length. *)
Definition utf8_tail_length (lead : N) : nat :=
  if (lead <? 0x80)%N then 0
  else if (lead <? 0xE0)%N then 1
  else if (lead <? 0xF0)%N then 2
  else 3.

(** [H : a :: l = b :: l'] into [a = b] and [H : l = l'], repeatedly, with
    no reduction of the terms. *)
Ltac cons_inv H :=
  repeat match type of H with
         | ?a :: _ = ?b :: _ =>
           let E := fresh "E" in
           assert (E : a = b) by exact (f_equal (hd a) H);
           apply (f_equal (@tl _)) in H; cbn [tl] in H
         end;
  try discriminate H.

(** Every unit written by [Encode] is a kept one, a percent sign or an
    upper-case hexadecimal digit. *)
Definition encoded_unit (keep : code_unit -> bool) (c : code_unit) : Prop :=
  keep c = true \/ c = 0x25%N
  \/ (0x30 <= c <= 0x39)%N \/ (0x41 <= c <= 0x46)%N.

(** A string is well formed when its surrogates come in pairs. *)
Fixpoint well_formed (s : jsstring) : bool :=
  match s with
  | [] => true
  | c :: rest =>
    if is_low_surrogate c then false
    else if is_high_surrogate c then
      match rest with
      | d :: rest' => is_low_surrogate d && well_formed rest'
      | [] => false
      end
    else (c <? 0x10000)%N && well_formed rest
  end.

(** The two base addresses, as code units. *)
Definition SHARE_BASE (lang : Language) : jsstring :=
  match lang with
  | en => js "https://rmc-8.com/shosha/random_shosha_en/?book_id="
  | ja => js "https://rmc-8.com/shosha/random_shosha/?book_id="
  end.

(** The language-specific primary tag. *)
Definition primary_tag (lang : Language) : jsstring :=
  match lang with
  | ja => js "#ランダム書写"
  | en => js "#random_shosha"
  end.

Definition meian : JapaneseSentenceResponse :=
  {| ja_base := {| sentence_text := js "x"; book_id := js "meian-natsume";
                   sentence_id := integer 12; title := js "明暗";
                   author := js "夏目漱石" |};
     char_count := integer 1; card_url := js "" |}.

Definition meian_content : ShareContent :=
  {| text :=
       js "『明暗』夏目漱石著" ++ LF
       ++ js "#ランダム書写 #meiannatsume_12" ++ LF
       ++ js "https://rmc-8.com/shosha/random_shosha/?book_id=meian-natsume&sentence_id=12";
     url :=
       js "https://rmc-8.com/shosha/random_shosha/?book_id=meian-natsume&sentence_id=12" |}.

(** A pattern whose matches are never empty and lie within the input. *)
Definition proper (re : RegExp) : Prop :=
  forall s n, match_at re s = Some n -> 0 < n <= length s.

Definition scheme_tail (r' : jsstring) (n : nat) : option nat :=
  match strip_prefix (js "://") r' with
  | Some body =>
    match match_run1 (fun c => negb (is_white_space c)) body with
    | Some k => Some (n + 3 + k)
    | None => None
    end
  | None => None
  end.

(** The text contains a URL: one of the two schemes followed by a unit
    that is not white space. *)
Definition contains_url (text_ : jsstring) : Prop :=
  exists before scheme c after,
    (scheme = js "http://" \/ scheme = js "https://")
    /\ text_ = before ++ scheme ++ c :: after
    /\ is_white_space c = false.

(** The text contains a hashtag: [#] followed by a unit of the class. *)
Definition contains_hashtag (text_ : jsstring) : Prop :=
  exists before c after,
    text_ = before ++ HASH :: c :: after /\ is_hashtag_char c = true.

(** The calls the publishers make. *)
Definition tweet_call (text_ authHeader : jsstring) : FetchCall :=
  {| fetch_url := js "https://api.twitter.com/2/tweets";
     fetch_options :=
       {| method := Some (js "post");
          contentType := Some (js "application/json");
          headers := [(js "Authorization", authHeader)];
          payload :=
            option_map PayloadString
              (JSON_stringify (JSObject [(js "text", JSString text_)]));
          muteHttpExceptions := true |} |}.

Definition session_call (credentials : BlueskyCredentials) : FetchCall :=
  {| fetch_url := BLUESKY_API_BASE ++ js "/com.atproto.server.createSession";
     fetch_options :=
       {| method := Some (js "post");
          contentType := Some (js "application/json");
          headers := [];
          payload :=
            option_map PayloadString
              (JSON_stringify
                 (JSObject
                    [(js "identifier", JSString (identifier credentials));
                     (js "password", JSString (password credentials))]));
          muteHttpExceptions := true |} |}.

Definition record_call (credentials : BlueskyCredentials) (accessJwt : JSValue)
  (record : list (jsstring * JSValue)) : FetchCall :=
  {| fetch_url := BLUESKY_API_BASE ++ js "/com.atproto.repo.createRecord";
     fetch_options :=
       {| method := Some (js "post");
          contentType := Some (js "application/json");
          headers := [(js "Authorization",
                       js "Bearer " ++ ToString accessJwt)];
          payload :=
            option_map PayloadString
              (JSON_stringify
                 (JSObject
                    [(js "repo", JSString (identifier credentials));
                     (js "collection", JSString (js "app.bsky.feed.post"));
                     (js "record", JSObject record)]));
          muteHttpExceptions := true |} |}.

(** Scenario: the tweet endpoint answers 403.  [postToX] returns [false],
    logs the status and the body, and throws nothing. *)
Definition scenario_credentials : XCredentials :=
  {| apiKey := js "key"; apiSecret := js "secret";
     accessToken := js "token"; accessTokenSecret := js "tsecret" |}.

Definition scenario_403 : Platform :=
  Reference.platform
    [(js "https://api.twitter.com/2/tweets",
      Reference.response 403 (js "Forbidden"))].

(** What [createBlueskySession] returns for an answer of the network. *)
Definition session_token (P : Platform) (answer : Result HTTPResponse)
  : JSValue :=
  match answer with
  | Throw _ => JSNull
  | Ok response =>
    if (getResponseCode response =? 200)%Z then
      match JSON_parse P (getContentText response) with
      | Throw _ => JSNull
      | Ok data =>
        match Get data (js "accessJwt") with
        | Ok v => v
        | Throw _ => JSNull
        end
      end
    else JSNull
  end.

Definition scenario_account : BlueskyCredentials :=
  {| identifier := js "shosha.rmc-8.com"; password := js "app-password" |}.

(** A session endpoint that answers 200 with a page that is no JSON. *)
Definition scenario_html_session : Platform :=
  Reference.platform
    [(BLUESKY_API_BASE ++ js "/com.atproto.server.createSession",
      Reference.response 200 (js "<html>Service unavailable</html>"))].

(** The link-preview data: address, title and description, and the
    thumbnail when there is one. *)
Definition external_data (shareUrl ogpTitle ogpDescription : option jsstring)
  (thumb : option JSValue) : list (jsstring * JSValue) :=
  [(js "uri", JSString (opt_ToString shareUrl));
   (js "title", JSString (opt_or ogpTitle (js "Random Shosha - 書写のお題")));
   (js "description",
    JSString (opt_or ogpDescription (js "古典文学の一文を書写のお題として")))]
  ++ match thumb with
     | Some blob => [(js "thumb", blob)]
     | None => []
     end.

Definition embed_value (external : list (jsstring * JSValue)) : JSValue :=
  JSObject [(js "$type", JSString (js "app.bsky.embed.external"));
            (js "external", JSObject external)].

(** The record with its optional members: [facets] when there are facets,
    [embed] when there is one. *)
Definition post_record (text_ now : jsstring) (embed : option JSValue)
  : list (jsstring * JSValue) :=
  [(js "$type", JSString (js "app.bsky.feed.post"));
   (js "text", JSString text_);
   (js "createdAt", JSString now)]
  ++ match extractFacets text_ with
     | [] => []
     | f :: fs => [(js "facets", JSArray (map facet_value (f :: fs)))]
     end
  ++ match embed with
     | Some e => [(js "embed", e)]
     | None => []
     end.

(** The thumbnail of a run: the blob that [uploadBlobToBluesky] returns,
    when both addresses are given and the blob is truthy. *)
Definition thumb_of (P : Platform)
  (shareUrl ogpImageUrl : option jsstring) (accessJwt : JSValue) (w : World)
  : option JSValue * World :=
  if opt_truthy shareUrl && opt_truthy ogpImageUrl then
    match uploadBlobToBluesky P (opt_ToString ogpImageUrl) accessJwt w with
    | (Ok blob, w') => (if ToBoolean blob then Some blob else None, w')
    | (Throw _, w') => (None, w')
    end
  else (None, w).

(** The Bluesky service of the scenarios: the session is granted, the
    thumbnail upload fails with status 500, the record is accepted. *)
Definition scenario_bluesky : Platform :=
  Reference.platform
    [(BLUESKY_API_BASE ++ js "/com.atproto.server.createSession",
      Reference.response 200
        (stringify_text
           (JSObject [(js "accessJwt", JSString (js "jwt"));
                      (js "did", JSString (js "did:plc:shosha"))])));
     (js "https://rmc-8.com/api/og-shosha?lang=ja",
      Reference.response 200 (js "PNG"));
     (BLUESKY_API_BASE ++ js "/com.atproto.repo.uploadBlob",
      Reference.response 500 (js "Internal Server Error"));
     (BLUESKY_API_BASE ++ js "/com.atproto.repo.createRecord",
      Reference.response 200 (js "{}"))].

Definition scenario_session : World :=
  {| logged := [js "Bluesky session created successfully"];
     fetched := [session_call scenario_account] |}.

Definition scenario_after_upload : World :=
  {| logged :=
       logged scenario_session
       ++ [js "Downloading image: https://rmc-8.com/api/og-shosha?lang=ja, MIME: image/jpeg";
           js "Blob upload failed (500): Internal Server Error"];
     fetched :=
       fetched scenario_session
       ++ [{| fetch_url := js "https://rmc-8.com/api/og-shosha?lang=ja";
              fetch_options :=
                {| method := None; contentType := None; headers := [];
                   payload := None; muteHttpExceptions := true |} |};
           {| fetch_url := BLUESKY_API_BASE ++ js "/com.atproto.repo.uploadBlob";
              fetch_options :=
                {| method := Some (js "post"); contentType := None;
                   headers := [(js "Content-Type", js "image/jpeg");
                               (js "Authorization", js "Bearer jwt")];
                   payload := Some (PayloadBytes (bytes_of_string "PNG"));
                   muteHttpExceptions := true |} |}] |}.

Definition scenario_record : list (jsstring * JSValue) :=
  post_record (text meian_content)
    (Date_toISOString scenario_bluesky (fetched scenario_session))
    (Some (embed_value
             [(js "uri", JSString (url meian_content));
              (js "title",
               JSString (opt_or None (js "Random Shosha - 書写のお題")));
              (js "description",
               JSString
                 (opt_or None (js "古典文学の一文を書写のお題として")))])).

(** The construction in the words of the specification, for an encoder
    [encode]: encode every key and value, sort the entries by encoded key,
    join them as [key=value] with [&]; the base string is the upper-case
    method, the encoded URL and the encoded parameter string, joined with
    [&]; the signing key is the two encoded secrets joined with [&]. *)
Module OAuthSpec.

(** The unreserved characters of RFC 3986: letters, digits, [- . _ ~]. *)
Definition unreserved (c : code_unit) : bool :=
  is_ascii_alnum c || existsb (N.eqb c) [0x2D; 0x2E; 0x5F; 0x7E]%N.

(** Percent-encoding per RFC 3986: every octet of the UTF-8 form of a
    character that is not unreserved is written [%XX]. *)
Definition rfc3986 (s : jsstring) : Result jsstring := Encode unreserved s.

Fixpoint insert_entry (e : jsstring * jsstring)
  (l : list (jsstring * jsstring)) : list (jsstring * jsstring) :=
  match l with
  | [] => [e]
  | e' :: l' =>
    if jsstring_leb (fst e) (fst e') then e :: l else e' :: insert_entry e l'
  end.

(** Entries in the order of their keys. *)
Definition sort_entries (l : list (jsstring * jsstring))
  : list (jsstring * jsstring) :=
  fold_right insert_entry [] l.

Definition encode_entry (encode : jsstring -> Result jsstring)
  (kv : jsstring * jsstring) : Result (jsstring * jsstring) :=
  let? k := encode (fst kv) in
  let? v := encode (snd kv) in
  Ok (k, v).

Definition pair_text (kv : jsstring * jsstring) : jsstring :=
  fst kv ++ js "=" ++ snd kv.

Definition parameter_string (encode : jsstring -> Result jsstring)
  (params : list (jsstring * jsstring)) : Result jsstring :=
  let? entries := Result_mapM (encode_entry encode) params in
  Ok (join (js "&") (map pair_text (sort_entries entries))).

(** The same with the entries sorted by their keys as given, before
    encoding. *)
Definition parameter_string_by_raw_key (encode : jsstring -> Result jsstring)
  (params : list (jsstring * jsstring)) : Result jsstring :=
  let? entries := Result_mapM (encode_entry encode) (sort_entries params) in
  Ok (join (js "&") (map pair_text entries)).

Definition signature_base_string
  (parameters : list (jsstring * jsstring) -> Result jsstring)
  (encode : jsstring -> Result jsstring) (method_ url_ : jsstring)
  (params : list (jsstring * jsstring)) : Result jsstring :=
  let? sorted := parameters params in
  let? u := encode url_ in
  let? p := encode sorted in
  Ok (toUpperCase method_ ++ js "&" ++ u ++ js "&" ++ p).

Definition signing_key (encode : jsstring -> Result jsstring)
  (consumerSecret tokenSecret : jsstring) : Result jsstring :=
  let? c := encode consumerSecret in
  let? t := encode tokenSecret in
  Ok (c ++ js "&" ++ t).

End OAuthSpec.

(** A string without the five characters [! ' ( ) *], which
    [encodeURIComponent] leaves alone and RFC 3986 reserves. *)
Definition plain_unit (c : code_unit) : bool :=
  negb (existsb (N.eqb c) [0x21; 0x27; 0x28; 0x29; 0x2A]%N).

Definition plain (s : jsstring) : Prop := forallb plain_unit s = true.

(** A string of unreserved characters only. *)
Definition unreserved_only (s : jsstring) : Prop :=
  forallb OAuthSpec.unreserved s = true.

(** [F] keeps the key of an entry and throws nothing but [URIError]. *)
Definition keeps_key (F : jsstring * jsstring -> Result (jsstring * jsstring))
  (kv : jsstring * jsstring) : Prop :=
  (forall r, F kv = Ok r -> fst r = fst kv)
  /\ (forall e, F kv = Throw e -> e = URIError).

(** The entries whose keys are unreserved and whose values are plain. *)
Definition plain_entry (kv : jsstring * jsstring) : Prop :=
  unreserved_only (fst kv) /\ plain (snd kv).

Fixpoint distinct (l : list jsstring) : bool :=
  match l with
  | [] => true
  | x :: l' => negb (existsb (jsstring_eqb x) l') && distinct l'
  end.

(** The parameters that [generateOAuthHeader] signs in the scenario. *)
Definition scenario_oauth_params : list (jsstring * jsstring) :=
  [(js "oauth_consumer_key", js "key");
   (js "oauth_token", js "token");
   (js "oauth_signature_method", js "HMAC-SHA1");
   (js "oauth_timestamp", js "1735689600");
   (js "oauth_nonce", js "6fa459ea-ee8a-4ca4-894e-db77e160355e");
   (js "oauth_version", js "1.0")].

(** The matches that a loop over [re.exec(text)] goes through, from
    [lastIndex] on. *)
Fixpoint matches_from (fuel : nat) (re : RegExp) (text : jsstring)
  (lastIndex : nat) : list RegExpExecArray :=
  match fuel with
  | 0 => []
  | S fuel' =>
    match exec re text lastIndex with
    | (Some m, lastIndex') => m :: matches_from fuel' re text lastIndex'
    | (None, _) => []
    end
  end.

(** A match lies in the text at its index and is one of the pattern. *)
Definition valid_match (re : RegExp) (text : jsstring) (m : RegExpExecArray)
  : Prop :=
  exists after,
    text = firstn (match_index m) text ++ match_0 m ++ after
    /\ match_index m + length (match_0 m) <= length text
    /\ match_at re (match_0 m ++ after) = Some (length (match_0 m)).

Definition match_before (m m' : RegExpExecArray) : Prop :=
  match_index m + length (match_0 m) <= match_index m'.

(** Cutting between [a] and [b] does not separate the two halves of a
    surrogate pair. *)
Definition pair_free_cut (a b : jsstring) : bool :=
  negb (is_high_surrogate (last a 0%N) && is_low_surrogate (hd 0%N b)).

(** The matches of a pattern begin and end where no surrogate pair is
    cut. *)
Definition clean (re : RegExp) : Prop :=
  forall s n,
    match_at re s = Some n ->
    is_low_surrogate (hd 0%N s) = false
    /\ pair_free_cut (firstn n s) (skipn n s) = true.

(** The bytes that a byte range selects: [bytes.slice(byteStart, byteEnd)]. *)
Definition byte_slice (bytes : list N) (s : ByteSlice) : list N :=
  firstn (byteEnd s - byteStart s) (skipn (byteStart s) bytes).

(** The part of the text that a feature is about: the address of a link,
    [#] and the tag of a hashtag. *)
Definition feature_text (f : Feature) : jsstring :=
  match f with
  | FacetLink uri => uri
  | FacetTag tag => HASH :: tag
  end.

(** The range of [f] ends before the range of [g] begins. *)
Definition before_facet (f g : Facet) : Prop :=
  byteEnd (index f) <= byteStart (index g).

(** The facets that [extractFacets] pushes for a link and for a hashtag
    found after [before]. *)
Definition link_facet_of (before uri : jsstring) : Facet :=
  {| index :=
       {| byteStart := length (newBlob_getBytes before);
          byteEnd := length (newBlob_getBytes before)
                     + length (newBlob_getBytes uri) |};
     features := [FacetLink uri] |}.

Definition tag_facet_of (before tag : jsstring) : Facet :=
  {| index :=
       {| byteStart := length (newBlob_getBytes before);
          byteEnd := length (newBlob_getBytes before)
                     + length (newBlob_getBytes (HASH :: tag)) |};
     features := [FacetTag tag] |}.

(** The link facet of the Japanese post of "meian-natsume". *)
Definition meian_link_facet : Facet :=
  {| index := {| byteStart := 65; byteEnd := 141 |};
     features := [FacetLink (url meian_content)] |}.

(** The two calls of [uploadBlobToBluesky]: the download of the image and
    the upload of what was downloaded. *)
Definition download_call (imageUrl : jsstring) : FetchCall :=
  {| fetch_url := imageUrl;
     fetch_options :=
       {| method := None; contentType := None; headers := [];
          payload := None; muteHttpExceptions := true |} |}.

Definition upload_call (accessJwt : JSValue) (imageBlob : Blob) : FetchCall :=
  {| fetch_url := BLUESKY_API_BASE ++ js "/com.atproto.repo.uploadBlob";
     fetch_options :=
       {| method := Some (js "post"); contentType := None;
          headers :=
            [(js "Content-Type",
              opt_or (getContentType imageBlob) (js "image/jpeg"));
             (js "Authorization", js "Bearer " ++ ToString accessJwt)];
          payload := Some (PayloadBytes (getBytes imageBlob));
          muteHttpExceptions := true |} |}.

(** What [uploadBlobToBluesky] returns for an answer to the upload. *)
Definition uploaded_blob (P : Platform) (answer : Result HTTPResponse)
  : JSValue :=
  match answer with
  | Throw _ => JSNull
  | Ok response =>
    if (getResponseCode response =? 200)%Z then
      match JSON_parse P (getContentText response) with
      | Throw _ => JSNull
      | Ok data =>
        match Get data (js "blob") with
        | Ok blob => blob
        | Throw _ => JSNull
        end
      end
    else JSNull
  end.

(** The double quote of the header values. *)
Definition DQUOTE : jsstring := [0x22%N].

(** The six parameters that are signed, in the order of the object
    literal. *)

Definition oauth_parameters (credentials : XCredentials)
  (timestamp nonce : jsstring) : list (jsstring * jsstring) :=
  [(js "oauth_consumer_key", apiKey credentials);
   (js "oauth_token", accessToken credentials);
   (js "oauth_signature_method", js "HMAC-SHA1");
   (js "oauth_timestamp", timestamp);
   (js "oauth_nonce", nonce);
   (js "oauth_version", js "1.0")].

(** The header: the seven [oauth_] parameters in the order of their keys,
    each value between double quotes. *)
Definition oauth_header_text (consumer_key nonce signature timestamp token
  : jsstring) : jsstring :=
  js "OAuth oauth_consumer_key=" ++ DQUOTE ++ consumer_key ++ DQUOTE
  ++ js ", oauth_nonce=" ++ DQUOTE ++ nonce ++ DQUOTE
  ++ js ", oauth_signature=" ++ DQUOTE ++ signature ++ DQUOTE
  ++ js ", oauth_signature_method=" ++ DQUOTE ++ js "HMAC-SHA1" ++ DQUOTE
  ++ js ", oauth_timestamp=" ++ DQUOTE ++ timestamp ++ DQUOTE
  ++ js ", oauth_token=" ++ DQUOTE ++ token ++ DQUOTE
  ++ js ", oauth_version=" ++ DQUOTE ++ js "1.0" ++ DQUOTE.

(** The digits [0] to [9]. *)
Definition is_decimal_digit (c : code_unit) : bool :=
  ((0x30 <=? c) && (c <=? 0x39))%N.

(** The address of the image, from the encoded sentence, title and
    author. *)
Definition ogp_address (s t a : jsstring) (lang : Language) : jsstring :=
  js "https://rmc-8.com/api/og-shosha?sentence=" ++ s
  ++ js "&title=" ++ t ++ js "&author=" ++ a
  ++ js "&lang=" ++ Language_text lang.

(* ====================================================================== *)
(** * Properties of the string functions                                   *)
(* ====================================================================== *)

Lemma hex_digit_inj d1 d2 :
  (d1 < 16)%N -> (d2 < 16)%N -> hex_digit d1 = hex_digit d2 -> d1 = d2.
Proof.
  unfold hex_digit.
  destruct (N.ltb_spec d1 10), (N.ltb_spec d2 10); lia.
Qed.

Lemma percent_octet_inj b1 b2 x y :
  (b1 < 256)%N -> (b2 < 256)%N ->
  percent_octet b1 ++ x = percent_octet b2 ++ y -> b1 = b2 /\ x = y.
Proof.
  intros H1 H2 H. unfold percent_octet in H. simpl in H.
  injection H as Hhi Hlo Hxy.
  apply hex_digit_inj in Hhi; [|apply N.Div0.div_lt_upper_bound; lia ..].
  apply hex_digit_inj in Hlo; [|apply N.mod_upper_bound; lia ..].
  split; [|assumption].
  rewrite (N.div_mod b1 16), (N.div_mod b2 16) by lia. congruence.
Qed.

Lemma percent_octets_app_inj bs1 : forall bs2 x y,
  Forall (fun b => b < 256)%N bs1 -> Forall (fun b => b < 256)%N bs2 ->
  length bs1 = length bs2 ->
  percent_octets bs1 ++ x = percent_octets bs2 ++ y -> bs1 = bs2 /\ x = y.
Proof.
  induction bs1 as [|b1 bs1 IH]; intros [|b2 bs2] x y F1 F2 L H;
    try discriminate L.
  - auto.
  - inversion F1; inversion F2; subst.
    change (percent_octets (b1 :: bs1))
      with (percent_octet b1 ++ percent_octets bs1) in H.
    change (percent_octets (b2 :: bs2))
      with (percent_octet b2 ++ percent_octets bs2) in H.
    rewrite <- !app_assoc in H.
    apply percent_octet_inj in H as [-> H]; [|assumption ..].
    apply IH in H as [-> ->]; auto.
Qed.

Lemma utf8_lead cp :
  (cp < 0x110000)%N ->
  exists b bs, utf8_encode_code_point cp = b :: bs
               /\ length bs = utf8_tail_length b
               /\ Forall (fun b => b < 256)%N (b :: bs).
Proof.
  intros Hcp. unfold utf8_encode_code_point, utf8_tail_length.
  destruct (N.ltb_spec cp 0x80).
  { eexists _, _. split; [reflexivity|].
    destruct (N.ltb_spec cp 0x80); [|lia].
    split; [reflexivity|]. repeat constructor. lia. }
  destruct (N.ltb_spec cp 0x800).
  { eexists _, _. split; [reflexivity|].
    assert (cp / 0x40 < 0x20)%N by (apply N.Div0.div_lt_upper_bound; lia).
    pose proof (N.mod_upper_bound cp 0x40 ltac:(lia)).
    destruct (N.ltb_spec (0xC0 + cp / 0x40) 0x80); [lia|].
    destruct (N.ltb_spec (0xC0 + cp / 0x40) 0xE0); [|lia].
    split; [reflexivity|]. repeat constructor; lia. }
  destruct (N.ltb_spec cp 0x10000).
  { eexists _, _. split; [reflexivity|].
    assert (cp / 0x1000 < 0x10)%N by (apply N.Div0.div_lt_upper_bound; lia).
    pose proof (N.mod_upper_bound cp 0x40 ltac:(lia)).
    pose proof (N.mod_upper_bound (cp / 0x40) 0x40 ltac:(lia)).
    destruct (N.ltb_spec (0xE0 + cp / 0x1000) 0x80); [lia|].
    destruct (N.ltb_spec (0xE0 + cp / 0x1000) 0xE0); [lia|].
    destruct (N.ltb_spec (0xE0 + cp / 0x1000) 0xF0); [|lia].
    split; [reflexivity|]. repeat constructor; lia. }
  eexists _, _. split; [reflexivity|].
  assert (cp / 0x40000 < 0x8)%N by (apply N.Div0.div_lt_upper_bound; lia).
  pose proof (N.mod_upper_bound cp 0x40 ltac:(lia)).
  pose proof (N.mod_upper_bound (cp / 0x40) 0x40 ltac:(lia)).
  pose proof (N.mod_upper_bound (cp / 0x1000) 0x40 ltac:(lia)).
  destruct (N.ltb_spec (0xF0 + cp / 0x40000) 0x80); [lia|].
  destruct (N.ltb_spec (0xF0 + cp / 0x40000) 0xE0); [lia|].
  destruct (N.ltb_spec (0xF0 + cp / 0x40000) 0xF0); [lia|].
  split; [reflexivity|]. repeat constructor; lia.
Qed.

Lemma Ok_inj {A} (a b : A) : Ok a = Ok b -> a = b.
Proof. intros [= ->]. reflexivity. Qed.

Lemma utf8_encode_code_point_inj cp1 cp2 :
  (cp1 < 0x110000)%N -> (cp2 < 0x110000)%N ->
  utf8_encode_code_point cp1 = utf8_encode_code_point cp2 -> cp1 = cp2.
Proof.
  intros H1 H2. unfold utf8_encode_code_point.
  destruct (N.ltb_spec cp1 0x80), (N.ltb_spec cp2 0x80),
    (N.ltb_spec cp1 0x800), (N.ltb_spec cp2 0x800),
    (N.ltb_spec cp1 0x10000), (N.ltb_spec cp2 0x10000);
    try lia; intros E; cons_inv E; try assumption.
  all: assert (cp1 / 0x40 < 0x4400)%N
         by (apply N.Div0.div_lt_upper_bound; lia);
       assert (cp2 / 0x40 < 0x4400)%N
         by (apply N.Div0.div_lt_upper_bound; lia);
       pose proof (N.mod_upper_bound cp1 0x40 ltac:(lia));
       pose proof (N.mod_upper_bound cp2 0x40 ltac:(lia)).
  - rewrite (N.div_mod cp1 0x40), (N.div_mod cp2 0x40) by lia.
    apply N.add_cancel_l in E0, E1. rewrite E0, E1. reflexivity.
  - apply N.add_cancel_l in E0, E1, E2.
    rewrite (N.div_mod cp1 0x40), (N.div_mod cp2 0x40) by lia.
    rewrite (N.div_mod (cp1 / 0x40) 0x40), (N.div_mod (cp2 / 0x40) 0x40)
      by lia.
    rewrite !N.Div0.div_div. change (0x40 * 0x40)%N with 0x1000%N.
    rewrite E0, E1, E2. reflexivity.
  - apply N.add_cancel_l in E0, E1, E2, E3.
    assert (D1 : forall c, (c / 0x40 / 0x40 = c / 0x1000)%N)
      by (intro; rewrite N.Div0.div_div; reflexivity).
    assert (D2 : forall c, (c / 0x1000 / 0x40 = c / 0x40000)%N)
      by (intro; rewrite N.Div0.div_div; reflexivity).
    rewrite (N.div_mod cp1 0x40), (N.div_mod cp2 0x40) by lia.
    rewrite (N.div_mod (cp1 / 0x40) 0x40), (N.div_mod (cp2 / 0x40) 0x40)
      by lia.
    rewrite !D1.
    rewrite (N.div_mod (cp1 / 0x1000) 0x40),
      (N.div_mod (cp2 / 0x1000) 0x40) by lia.
    rewrite !D2, E0, E1, E2, E3. reflexivity.
Qed.

Lemma percent_utf8_inj cp1 cp2 x y :
  (cp1 < 0x110000)%N -> (cp2 < 0x110000)%N ->
  percent_octets (utf8_encode_code_point cp1) ++ x
  = percent_octets (utf8_encode_code_point cp2) ++ y ->
  cp1 = cp2 /\ x = y.
Proof.
  intros H1 H2 H.
  destruct (utf8_lead cp1 H1) as (b1 & bs1 & E1 & L1 & F1).
  destruct (utf8_lead cp2 H2) as (b2 & bs2 & E2 & L2 & F2).
  rewrite E1, E2 in H.
  assert (b1 = b2) as <-.
  { change (percent_octets (b1 :: bs1))
      with (percent_octet b1 ++ percent_octets bs1) in H.
    change (percent_octets (b2 :: bs2))
      with (percent_octet b2 ++ percent_octets bs2) in H.
    rewrite <- !app_assoc in H.
    inversion F1; inversion F2; subst.
    apply percent_octet_inj in H as [? _]; assumption. }
  apply percent_octets_app_inj in H as [E ->]; [| assumption .. |].
  - split; [|reflexivity].
    apply utf8_encode_code_point_inj; congruence.
  - simpl. congruence.
Qed.

Lemma percent_utf8_head cp :
  (cp < 0x110000)%N ->
  exists t, percent_octets (utf8_encode_code_point cp) = 0x25%N :: t.
Proof.
  intros H. destruct (utf8_lead cp H) as (b & bs & E & _ & _).
  rewrite E. eexists. reflexivity.
Qed.

Lemma CodePointAt_spec s cp rest :
  CodePointAt s = Some (cp, rest) ->
  (s = cp :: rest /\ (cp < 0xD800 \/ 0xDFFF < cp < 0x10000)%N)
  \/ (exists c d, s = c :: d :: rest
                  /\ (0xD800 <= c <= 0xDBFF)%N /\ (0xDC00 <= d <= 0xDFFF)%N
                  /\ cp = (0x10000 + (c - 0xD800) * 0x400 + (d - 0xDC00))%N).
Proof.
  destruct s as [|c s]; [discriminate|]. unfold CodePointAt.
  unfold is_high_surrogate, is_low_surrogate.
  destruct (N.leb_spec 0xDC00 c), (N.leb_spec c 0xDFFF),
    (N.leb_spec 0xD800 c), (N.leb_spec c 0xDBFF); cbn [andb];
    try discriminate; try lia.
  all: try (destruct (N.ltb_spec c 0x10000); [|discriminate];
            intros [= <- <-]; left; split; [reflexivity | lia]).
  destruct s as [|d s]; [discriminate|].
  destruct (N.leb_spec 0xDC00 d), (N.leb_spec d 0xDFFF); cbn [andb];
    try discriminate.
  intros [= <- <-]. right. exists c, d. repeat split; assumption.
Qed.

Lemma CodePointAt_range s cp rest :
  CodePointAt s = Some (cp, rest) ->
  (cp < 0x110000)%N /\ length rest < length s.
Proof.
  intros [[-> R] | (c & d & -> & Rc & Rd & ->)]%CodePointAt_spec.
  - split; [lia | simpl; lia].
  - split; [lia | simpl; lia].
Qed.

Lemma CodePointAt_inj s1 s2 cp r1 r2 :
  CodePointAt s1 = Some (cp, r1) -> CodePointAt s2 = Some (cp, r2) ->
  exists u, s1 = u ++ r1 /\ s2 = u ++ r2.
Proof.
  intros [[-> R1] | (c1 & d1 & -> & Rc1 & Rd1 & E1)]%CodePointAt_spec
         [[-> R2] | (c2 & d2 & -> & Rc2 & Rd2 & E2)]%CodePointAt_spec.
  - exists [cp]. auto.
  - lia.
  - lia.
  - assert (c1 = c2 /\ d1 = d2) as [-> ->] by lia.
    exists [c2; d2]. auto.
Qed.

Lemma Encode_cons keep c rest :
  Encode keep (c :: rest) =
  if keep c then let? r := Encode keep rest in Ok (c :: r)
  else match CodePointAt (c :: rest) with
       | Some (cp, rest') =>
         let? r := Encode keep rest' in
         Ok (percent_octets (utf8_encode_code_point cp) ++ r)
       | None => Throw URIError
       end.
Proof.
  simpl. destruct (keep c); [reflexivity|].
  destruct (is_low_surrogate c); [reflexivity|].
  destruct (is_high_surrogate c).
  - destruct rest as [|d rest']; [reflexivity|].
    destruct (is_low_surrogate d); reflexivity.
  - destruct (c <? 0x10000)%N; reflexivity.
Qed.

(** Induction along the run of [Encode]. *)
Lemma Encode_ind keep (Q : jsstring -> jsstring -> Prop) :
  Q [] [] ->
  (forall c rest r, keep c = true -> Encode keep rest = Ok r -> Q rest r ->
                    Q (c :: rest) (c :: r)) ->
  (forall c s cp rest r,
      keep c = false -> CodePointAt (c :: s) = Some (cp, rest) ->
      Encode keep rest = Ok r -> Q rest r ->
      Q (c :: s) (percent_octets (utf8_encode_code_point cp) ++ r)) ->
  forall s r, Encode keep s = Ok r -> Q s r.
Proof.
  intros Hnil Hkeep Hesc s.
  induction s as [s IH] using (induction_ltof1 _ (@length code_unit)).
  unfold ltof in IH. intros r H.
  destruct s as [|c s]; [injection H as <-; exact Hnil|].
  rewrite Encode_cons in H. destruct (keep c) eqn:K.
  - destruct (Encode keep s) as [r'|] eqn:E; [|discriminate].
    injection H as <-. apply Hkeep; auto.
  - destruct (CodePointAt (c :: s)) as [[cp rest]|] eqn:C; [|discriminate].
    destruct (Encode keep rest) as [r'|] eqn:E; [|discriminate].
    injection H as <-. eapply Hesc; eauto.
    apply IH; [|assumption]. apply CodePointAt_range in C. tauto.
Qed.

(** [Encode] is injective when the percent sign is not left alone:
    distinct strings have distinct encodings. *)
Lemma Encode_inj keep (Hpct : keep 0x25%N = false) s1 r :
  Encode keep s1 = Ok r -> forall s2, Encode keep s2 = Ok r -> s1 = s2.
Proof.
  intros H. pattern s1, r. revert s1 r H. apply Encode_ind.
  - intros [|c s2]; [reflexivity|]. rewrite Encode_cons.
    destruct (keep c).
    + destruct (Encode keep s2); discriminate.
    + destruct (CodePointAt (c :: s2)) as [[cp rest]|] eqn:C; [|discriminate].
      destruct (Encode keep rest); [|discriminate].
      apply CodePointAt_range in C as [C _].
      destruct (percent_utf8_head cp C) as [t ->]. discriminate.
  - intros c rest r K E IH [|c2 s2]; [discriminate|]. rewrite Encode_cons.
    destruct (keep c2) eqn:K2.
    + destruct (Encode keep s2) as [r2|] eqn:E2; [|discriminate].
      intros [= -> ->]. f_equal. auto.
    + destruct (CodePointAt (c2 :: s2)) as [[cp rest2]|] eqn:C; [|discriminate].
      destruct (Encode keep rest2); [|discriminate].
      apply CodePointAt_range in C as [C _].
      destruct (percent_utf8_head cp C) as [t ->]. intros [= <- _]. congruence.
  - intros c s cp rest r K C E IH [|c2 s2].
    + apply CodePointAt_range in C as [C _].
      destruct (percent_utf8_head cp C) as [t ->]. discriminate.
    + rewrite Encode_cons. destruct (keep c2) eqn:K2.
      * destruct (Encode keep s2); [|discriminate].
        apply CodePointAt_range in C as [C _].
        destruct (percent_utf8_head cp C) as [t ->]. intros [= -> _].
        congruence.
      * destruct (CodePointAt (c2 :: s2)) as [[cp2 rest2]|] eqn:C2;
          [|discriminate].
        destruct (Encode keep rest2) as [r2|] eqn:E2; [|discriminate].
        intros [= H].
        pose proof (CodePointAt_range _ _ _ C) as [R1 _].
        pose proof (CodePointAt_range _ _ _ C2) as [R2 _].
        apply percent_utf8_inj in H as [-> ->]; [|assumption ..].
        destruct (CodePointAt_inj _ _ _ _ _ C C2) as (u & -> & ->).
        f_equal. auto.
Qed.

Lemma hex_digit_range d :
  (d < 16)%N -> (0x30 <= hex_digit d <= 0x39 \/ 0x41 <= hex_digit d <= 0x46)%N.
Proof. unfold hex_digit. destruct (N.ltb_spec d 10); lia. Qed.

Lemma percent_octets_units keep bs :
  Forall (fun b => b < 256)%N bs ->
  Forall (encoded_unit keep) (percent_octets bs).
Proof.
  induction 1 as [|b bs Hb _ IH]; [constructor|].
  change (percent_octets (b :: bs))
    with (percent_octet b ++ percent_octets bs).
  apply Forall_app. split; [|assumption].
  unfold percent_octet, encoded_unit. repeat apply Forall_cons.
  - auto.
  - right. right. apply hex_digit_range.
    apply N.Div0.div_lt_upper_bound. lia.
  - right. right. apply hex_digit_range. apply N.mod_upper_bound. lia.
  - constructor.
Qed.

Lemma Encode_units keep s r :
  Encode keep s = Ok r -> Forall (encoded_unit keep) r.
Proof.
  revert s r. apply Encode_ind.
  - constructor.
  - intros c rest r K _ IH. constructor; [left; assumption | assumption].
  - intros c s cp rest r _ C _ IH. apply Forall_app. split; [|assumption].
    apply CodePointAt_range in C as [C _].
    destruct (utf8_lead cp C) as (b & bs & -> & _ & F).
    apply percent_octets_units. assumption.
Qed.

(** No ampersand survives [encodeURIComponent]. *)
Lemma encodeURIComponent_no_ampersand s r :
  encodeURIComponent s = Ok r -> ~ In 0x26%N r.
Proof.
  intros H%Encode_units Hin.
  rewrite Forall_forall in H. apply H in Hin.
  destruct Hin as [K | [E | R]]; [discriminate K | discriminate E | lia].
Qed.

Lemma encodeURIComponent_inj s1 s2 r :
  encodeURIComponent s1 = Ok r -> encodeURIComponent s2 = Ok r -> s1 = s2.
Proof.
  intros H1 H2. eapply Encode_inj; [|exact H1|exact H2]. reflexivity.
Qed.

Lemma well_formed_CodePointAt c rest :
  well_formed (c :: rest) = true ->
  exists cp rest', CodePointAt (c :: rest) = Some (cp, rest')
                   /\ well_formed rest' = true.
Proof.
  simpl. destruct (is_low_surrogate c); [discriminate|].
  destruct (is_high_surrogate c).
  - destruct rest as [|d rest']; [discriminate|].
    intros [Hd Hr]%andb_true_iff. rewrite Hd. eauto.
  - intros [Hc Hr]%andb_true_iff. rewrite Hc. eauto.
Qed.

Lemma uriUnescaped_ascii c : uriUnescaped c = true -> (c < 0x80)%N.
Proof.
  unfold uriUnescaped, is_ascii_alnum. cbn [existsb].
  rewrite !orb_true_iff, !andb_true_iff, !N.leb_le, !N.eqb_eq. lia.
Qed.

Lemma ascii_not_surrogate c :
  (c < 0x80)%N -> is_low_surrogate c = false /\ is_high_surrogate c = false.
Proof.
  intros H. unfold is_low_surrogate, is_high_surrogate.
  destruct (N.leb_spec 0xDC00 c), (N.leb_spec 0xD800 c);
    cbn [andb]; solve [auto | lia].
Qed.

(** [encodeURIComponent] returns on every well-formed string. *)
Lemma encodeURIComponent_total s :
  well_formed s = true -> exists r, encodeURIComponent s = Ok r.
Proof.
  unfold encodeURIComponent.
  induction s as [s IH] using (induction_ltof1 _ (@length code_unit)).
  unfold ltof in IH. destruct s as [|c s]; [eexists; reflexivity|].
  intros W. rewrite Encode_cons.
  destruct (uriUnescaped c) eqn:K.
  - apply uriUnescaped_ascii, ascii_not_surrogate in K as [L H].
    simpl in W. rewrite L, H in W. apply andb_true_iff in W as [_ W].
    destruct (IH s) as [r Hr]; [simpl; lia | assumption |].
    rewrite Hr. eexists; reflexivity.
  - destruct (well_formed_CodePointAt _ _ W) as (cp & rest' & C & Wr).
    rewrite C. pose proof (CodePointAt_range _ _ _ C) as [_ L].
    destruct (IH rest' L Wr) as [r Hr]. rewrite Hr. eexists; reflexivity.
Qed.

(* ====================================================================== *)
(** * Properties of the content formatter                                  *)
(* ====================================================================== *)

Lemma bytes_of_string_inj s1 s2 :
  bytes_of_string s1 = bytes_of_string s2 -> s1 = s2.
Proof.
  unfold bytes_of_string. intros H.
  rewrite <- (string_of_list_ascii_of_string s1),
    <- (string_of_list_ascii_of_string s2).
  f_equal. revert H.
  generalize (list_ascii_of_string s1) (list_ascii_of_string s2).
  induction l as [|a l IH]; intros [|b l']; try discriminate; [reflexivity|].
  simpl. intros H. cons_inv H. f_equal; [|auto].
  rewrite <- (ascii_N_embedding a), <- (ascii_N_embedding b). congruence.
Qed.

Lemma to_int_proper z :
  Z.to_int z <> Decimal.Pos Decimal.Nil /\ Z.to_int z <> Decimal.Neg Decimal.Nil.
Proof.
  destruct z as [|p|p]; simpl; split; try discriminate;
    intros [= H]; apply (DecimalPos.Unsigned.to_uint_nonnil p H).
Qed.

(** Distinct integers have distinct numerals. *)
Lemma Number_toString_inj n1 n2 :
  Number_toString n1 = Number_toString n2 -> n1 = n2.
Proof.
  unfold Number_toString. intros H%bytes_of_string_inj.
  apply to_int_inj.
  destruct (to_int_proper n1) as [A1 B1], (to_int_proper n2) as [A2 B2].
  pose proof (NilZero.isi _ A1 B1) as I1.
  pose proof (NilZero.isi _ A2 B2) as I2.
  rewrite H in I1. congruence.
Qed.

(** ** Numbers and their string forms *)

Lemma strip_leading_zeros_spec s :
  exists z, s = repeat DIGIT_ZERO z ++ strip_leading_zeros s.
Proof.
  induction s as [|c s [z IH]]; [exists 0; reflexivity|].
  cbn [strip_leading_zeros].
  destruct (N.eqb_spec c DIGIT_ZERO) as [->|].
  - exists (S z). cbn [repeat app]. rewrite <- IH. reflexivity.
  - exists 0. reflexivity.
Qed.

Lemma repeat_rev {A} (a : A) n : rev (repeat a n) = repeat a n.
Proof.
  induction n as [|n IH]; [reflexivity|].
  cbn [repeat rev]. rewrite IH. symmetry. apply repeat_cons.
Qed.

Lemma strip_trailing_zeros_spec s :
  s = strip_trailing_zeros s
      ++ repeat DIGIT_ZERO (length s - length (strip_trailing_zeros s)).
Proof.
  unfold strip_trailing_zeros.
  destruct (strip_leading_zeros_spec (rev s)) as [z E].
  apply (f_equal (@rev _)) in E. rewrite rev_involutive, rev_app_distr in E.
  rewrite repeat_rev in E.
  assert (L : length s = length (rev (strip_leading_zeros (rev s))) + z).
  { rewrite E at 1. rewrite length_app, repeat_length. reflexivity. }
  rewrite L. replace (length (rev (strip_leading_zeros (rev s))) + z
                      - length (rev (strip_leading_zeros (rev s)))) with z by lia.
  exact E.
Qed.

Lemma strip_trailing_zeros_length s :
  length (strip_trailing_zeros s) <= length s.
Proof.
  pose proof (f_equal (@length _) (strip_trailing_zeros_spec s)) as H.
  rewrite length_app in H. lia.
Qed.

(** The numeral of a positive integer below [10^L] has at most [L] digits. *)
Lemma string_of_uint_length d :
  length (bytes_of_string (NilEmpty.string_of_uint d)) = Decimal.nb_digits d.
Proof.
  induction d; cbn [NilEmpty.string_of_uint Decimal.nb_digits];
    [reflexivity | ..];
    change (bytes_of_string (String ?a ?s))
      with (N_of_ascii a :: bytes_of_string s);
    cbn [length]; rewrite IHd; reflexivity.
Qed.

Lemma usize_nb_digits d :
  DecimalPos.Unsigned.usize d = N.of_nat (Decimal.nb_digits d).
Proof.
  induction d; cbn [DecimalPos.Unsigned.usize Decimal.nb_digits];
    [reflexivity | ..]; rewrite IHd; lia.
Qed.

Lemma of_uint_lower_bound p :
  (10 ^ N.of_nat (Decimal.nb_digits (Pos.to_uint p) - 1) <= N.pos p)%N.
Proof.
  rewrite <- (DecimalPos.Unsigned.of_to p).
  pose proof (DecimalPos.Unsigned.to_uint_nonzero p) as NZ.
  assert (U : Decimal.unorm (Pos.to_uint p) = Pos.to_uint p).
  { rewrite <- (DecimalPos.Unsigned.to_of (Pos.to_uint p)).
    rewrite DecimalPos.Unsigned.of_to. reflexivity. }
  destruct (Pos.to_uint p) as [|d|d|d|d|d|d|d|d|d|d] eqn:E;
    cbn [Decimal.nb_digits Nat.sub]; rewrite ?Nat.sub_0_r;
    try (cbn [Pos.of_uint];
         rewrite DecimalPos.Unsigned.of_uint_acc_rev, usize_nb_digits;
         nia).
  - discriminate U.
  - exfalso. unfold Decimal.unorm in U. cbn [Decimal.nzhead] in U.
    pose proof (DecimalFacts.nb_digits_nzhead d) as Le.
    destruct (Decimal.nzhead d) eqn:H0;
      [injection U as <-; apply NZ; reflexivity | ..];
      rewrite U in Le; cbn [Decimal.nb_digits] in Le; lia.
Qed.

Lemma Number_toString_pos p :
  Number_toString (Z.pos p)
  = bytes_of_string (NilEmpty.string_of_uint (Pos.to_uint p))
  /\ Number_toString (Z.neg p) = js "-" ++ Number_toString (Z.pos p).
Proof.
  unfold Number_toString. cbn [Z.to_int NilZero.string_of_int].
  pose proof (DecimalPos.Unsigned.to_uint_nonnil p) as NN.
  unfold NilZero.string_of_uint.
  destruct (Pos.to_uint p); [contradiction | ..]; split; reflexivity.
Qed.

Lemma Number_toString_length p L :
  (N.pos p < 10 ^ N.of_nat L)%N -> length (Number_toString (Z.pos p)) <= L.
Proof.
  intros H. destruct (Number_toString_pos p) as [-> _].
  rewrite string_of_uint_length.
  pose proof (of_uint_lower_bound p) as Lo.
  destruct (Nat.le_gt_cases (Decimal.nb_digits (Pos.to_uint p)) L) as [|G];
    [assumption|]. exfalso.
  assert (10 ^ N.of_nat L
          <= 10 ^ N.of_nat (Decimal.nb_digits (Pos.to_uint p) - 1))%N
    by (apply N.pow_le_mono_r; lia).
  lia.
Qed.

(** The string form of an integer up to 2^53 is its decimal numeral. *)
Lemma integer_toString z :
  (Z.abs z <= 2 ^ 53)%Z -> number_toString (integer z) = Number_toString z.
Proof.
  assert (P : forall p negative,
             (Z.pos p <= 2 ^ 53)%Z ->
             number_toString
               (Finite negative
                  (strip_trailing_zeros (Number_toString (Z.pos p)))
                  (Z.of_nat (length (Number_toString (Z.pos p)))))
             = (if negative then js "-" else [])
               ++ Number_toString (Z.pos p)).
  { intros p negative B. cbn [number_toString]. cbv zeta. f_equal.
    pose proof (strip_trailing_zeros_length (Number_toString (Z.pos p))) as Le.
    assert (L21 : length (Number_toString (Z.pos p)) <= 21).
    { apply Number_toString_length. change (10 ^ N.of_nat 21)%N
        with 1000000000000000000000%N.
      change (2 ^ 53)%Z with 9007199254740992%Z in B. lia. }
    destruct (Z.leb_spec
                (Z.of_nat (length (strip_trailing_zeros
                                     (Number_toString (Z.pos p)))))
                (Z.of_nat (length (Number_toString (Z.pos p))))); [|lia].
    destruct (Z.leb_spec (Z.of_nat (length (Number_toString (Z.pos p)))) 21);
      [|lia].
    cbn [andb].
    rewrite <- Nat2Z.inj_sub, Nat2Z.id by assumption.
    symmetry. apply strip_trailing_zeros_spec. }
  destruct z as [|p|p]; intros B.
  - reflexivity.
  - apply (P p false). exact B.
  - destruct (Number_toString_pos p) as [_ ->]. apply (P p true). exact B.
Qed.

Example number_toString_examples :
  number_toString (integer 12) = js "12"
  /\ number_toString (integer (-1200)) = js "-1200"
  /\ number_toString (Finite false (js "1") 22) = js "1e+21"
  /\ number_toString (Finite false (js "5902958103587057") 21)
     = js "590295810358705700000"
  /\ number_toString (Finite false (js "15") 1) = js "1.5"
  /\ number_toString (Finite false (js "5") 0) = js "0.5"
  /\ number_toString (Finite true (js "123") (-6)) = js "-1.23e-7"
  /\ number_toString (Zero true) = js "0".
Proof. repeat split; vm_compute; reflexivity. Qed.

Lemma occursb_eq u t :
  occursb u t =
  match strip_prefix u t with
  | Some _ => true
  | None =>
    match t with
    | [] => false
    | _ :: t' => occursb u t'
    end
  end.
Proof. destruct t; reflexivity. Qed.

Lemma occurs_in_occursb u t : occurs_in u t -> occursb u t = true.
Proof.
  intros (pre & post & ->).
  assert (S : forall r, strip_prefix u (u ++ r) = Some r).
  { induction u as [|c u IH]; intros r; cbn [strip_prefix app];
      [reflexivity|]. rewrite N.eqb_refl. apply IH. }
  induction pre as [|c pre IH].
  - cbn [app]. rewrite occursb_eq, S. reflexivity.
  - rewrite occursb_eq. cbn [app]. rewrite IH.
    destruct (strip_prefix u (c :: pre ++ u ++ post)); reflexivity.
Qed.

(** Two strings cut at their first ampersand agree piece by piece. *)
Lemma split_at_first (a : code_unit) x1 : forall x2 y1 y2,
  ~ In a x1 -> ~ In a x2 ->
  x1 ++ a :: y1 = x2 ++ a :: y2 -> x1 = x2 /\ y1 = y2.
Proof.
  induction x1 as [|c x1 IH]; intros [|c2 x2] y1 y2 N1 N2 H; simpl in *.
  - cons_inv H. auto.
  - cons_inv H. subst. tauto.
  - cons_inv H. subst. tauto.
  - cons_inv H. subst.
    destruct (IH x2 y1 y2) as [-> ->]; [tauto | tauto | assumption | auto].
Qed.

Lemma occurs_in_app_l u a t : occurs_in u t -> occurs_in u (a ++ t).
Proof.
  intros (pre & post & ->). exists (a ++ pre), post.
  rewrite <- app_assoc. reflexivity.
Qed.

Lemma occurs_in_app_r u t b : occurs_in u t -> occurs_in u (t ++ b).
Proof.
  intros (pre & post & ->). exists pre, (post ++ b).
  rewrite <- !app_assoc. reflexivity.
Qed.

Lemma occurs_in_refl u : occurs_in u u.
Proof. exists [], []. rewrite app_nil_r. reflexivity. Qed.

Lemma generateShareUrl_eq bookId sentenceId lang :
  generateShareUrl bookId sentenceId lang =
  let? encodedBookId := encodeURIComponent bookId in
  Ok (SHARE_BASE lang ++ encodedBookId ++ js "&sentence_id="
      ++ number_toString sentenceId).
Proof.
  unfold generateShareUrl. destruct (encodeURIComponent bookId); simpl;
    [destruct lang|]; reflexivity.
Qed.

Lemma SHARE_BASE_inj l1 l2 x1 x2 :
  SHARE_BASE l1 ++ x1 = SHARE_BASE l2 ++ x2 -> l1 = l2 /\ x1 = x2.
Proof.
  destruct l1, l2; intros H.
  - apply app_inv_head in H. auto.
  - exfalso. vm_compute in H. cons_inv H. discriminate.
  - exfalso. vm_compute in H. cons_inv H. discriminate.
  - apply app_inv_head in H. auto.
Qed.

Lemma generateShareUrl_inj b1 n1 l1 b2 n2 l2 u :
  generateShareUrl b1 n1 l1 = Ok u -> generateShareUrl b2 n2 l2 = Ok u ->
  b1 = b2 /\ number_toString n1 = number_toString n2 /\ l1 = l2.
Proof.
  rewrite !generateShareUrl_eq.
  destruct (encodeURIComponent b1) as [e1|] eqn:E1; [|discriminate].
  destruct (encodeURIComponent b2) as [e2|] eqn:E2; [|discriminate].
  simpl. intros [= <-] [= H].
  apply SHARE_BASE_inj in H as [-> H].
  change (js "&sentence_id=") with (0x26%N :: js "sentence_id=") in H.
  simpl in H.
  apply split_at_first in H as [-> H];
    eauto using encodeURIComponent_no_ampersand.
  cons_inv H.
  split; [|auto]. eapply encodeURIComponent_inj; eassumption.
Qed.

(** [generateShareUrl] returns for every well-formed book id. *)
Lemma generateShareUrl_total b n l :
  well_formed b = true -> exists u, generateShareUrl b n l = Ok u.
Proof.
  intros [e E]%encodeURIComponent_total.
  rewrite generateShareUrl_eq, E. eexists. reflexivity.
Qed.

Lemma replace_all_nil_filter c s :
  replace_all c [] s = filter (fun x => negb (x =? c)%N) s.
Proof.
  induction s as [|x s IH]; [reflexivity|].
  unfold replace_all in *. simpl. rewrite IH.
  destruct (x =? c)%N; reflexivity.
Qed.

(** C7 (amended). For the Japanese record of "meian-natsume", sentence
    12, the formatter of the current revision produces the hashtag line
    "#ランダム書写 #meiannatsume_12" and the share URL with
    [book_id=meian-natsume&sentence_id=12], whatever the other fields are,
    and puts them on the last two lines of the text.  In general its
    hashtag line is the primary tag of the language (the two languages
    have different ones), a space, and [#] followed by the book id without
    its hyphens, [_] and the string form of the sentence id, which for an
    integer up to 2^53 is its decimal numeral.  The formatter of the
    earlier revision [src/Code.ts] has no language argument: its primary
    tag is "#random_shosha" for both languages, so that its hashtag line
    for this record is "#random_shosha #meiannatsume_12"; its share URL is
    the same. *)
Theorem hashtag_line_and_share_url_of_meian :
  (forall sentence chars card,
     let data :=
       {| ja_base := {| sentence_text := sentence;
                        book_id := js "meian-natsume";
                        sentence_id := integer 12;
                        title := js "明暗"; author := js "夏目漱石" |};
          char_count := chars; card_url := card |} in
     generateHashtags (book_id data) (sentence_id data) ja
     = js "#ランダム書写 #meiannatsume_12"
     /\ generateShareUrl (book_id data) (sentence_id data) ja
        = Ok (js "https://rmc-8.com/shosha/random_shosha/?book_id=meian-natsume&sentence_id=12")
     /\ generateJapaneseShareContent data
        = Ok {| text :=
                  js "『明暗』夏目漱石著" ++ LF
                  ++ js "#ランダム書写 #meiannatsume_12" ++ LF
                  ++ js "https://rmc-8.com/shosha/random_shosha/?book_id=meian-natsume&sentence_id=12";
                url :=
                  js "https://rmc-8.com/shosha/random_shosha/?book_id=meian-natsume&sentence_id=12" |}
     /\ Legacy.generateHashtags (book_id data) (sentence_id data)
        = js "#random_shosha #meiannatsume_12"
     /\ Legacy.generateJapaneseShareContent data
        = Ok {| text :=
                  js "『明暗』夏目漱石著" ++ LF
                  ++ js "#random_shosha #meiannatsume_12" ++ LF
                  ++ js "https://rmc-8.com/shosha/random_shosha/?book_id=meian-natsume&sentence_id=12";
                url :=
                  js "https://rmc-8.com/shosha/random_shosha/?book_id=meian-natsume&sentence_id=12" |})
  /\ (forall bookId sentenceId lang,
        generateHashtags bookId sentenceId lang
        = primary_tag lang ++ js " " ++ js "#"
          ++ filter (fun c => negb (c =? HYPHEN)%N) bookId
          ++ js "_" ++ number_toString sentenceId)
  /\ primary_tag ja <> primary_tag en
  /\ (forall bookId sentenceId,
        Legacy.generateHashtags bookId sentenceId
        = js "#random_shosha" ++ js " " ++ js "#"
          ++ filter (fun c => negb (c =? HYPHEN)%N) bookId
          ++ js "_" ++ number_toString sentenceId)
  /\ (forall z,
        (Z.abs z <= 2 ^ 53)%Z ->
        number_toString (integer z) = Number_toString z).
Proof.
  split; [|split; [|split; [|split]]].
  - intros sentence chars card data. subst data.
    cbn [book_id sentence_id ja_base].
    repeat split; vm_compute; reflexivity.
  - intros bookId sentenceId lang. unfold generateHashtags.
    rewrite replace_all_nil_filter. destruct lang; reflexivity.
  - vm_compute. discriminate.
  - intros bookId sentenceId. unfold Legacy.generateHashtags.
    rewrite replace_all_nil_filter. reflexivity.
  - exact integer_toString.
Qed.

(** C7, as stated, fails on the earlier revision [src/Code.ts], which the
    claim cites: for the Japanese record its hashtag line begins with
    "#random_shosha", not with the Japanese tag. *)
Lemma legacy_hashtag_line_of_meian :
  Legacy.generateHashtags (js "meian-natsume") (integer 12)
  = js "#random_shosha #meiannatsume_12"
  /\ Legacy.generateJapaneseShareContent meian
     = Ok {| text :=
               js "『明暗』夏目漱石著" ++ LF
               ++ js "#random_shosha #meiannatsume_12" ++ LF
               ++ url meian_content;
             url := url meian_content |}
  /\ js "#random_shosha #meiannatsume_12"
     <> js "#ランダム書写 #meiannatsume_12".
Proof.
  split; [vm_compute; reflexivity|].
  split; [vm_compute; reflexivity|].
  vm_compute. discriminate.
Qed.

(** C8 (amended). [generateShareUrl] returns a URL for every well-formed
    book id (it throws [URIError] at an unpaired surrogate).  A URL it
    returns contains the URL-encoded book id and the string form of the
    sentence id, and it comes from one book id, one language and one
    string form of the id only.  For a sentence id that is an integer up
    to 2^53 the string form is the decimal numeral, so that on such ids
    [generateShareUrl] is injective in (book id, sentence id, language)
    and the URL contains the literal decimal id. *)
Theorem generateShareUrl_injective b1 x1 l1 :
  (well_formed b1 = true -> exists u, generateShareUrl b1 x1 l1 = Ok u)
  /\ forall u,
       generateShareUrl b1 x1 l1 = Ok u ->
       (exists encoded,
          encodeURIComponent b1 = Ok encoded
          /\ occurs_in encoded u
          /\ occurs_in (number_toString x1) u)
       /\ (forall b2 x2 l2,
             generateShareUrl b2 x2 l2 = Ok u ->
             b2 = b1 /\ l2 = l1
             /\ number_toString x2 = number_toString x1)
       /\ (forall z1,
             x1 = integer z1 -> (Z.abs z1 <= 2 ^ 53)%Z ->
             occurs_in (Number_toString z1) u
             /\ forall b2 z2 l2,
                  (Z.abs z2 <= 2 ^ 53)%Z ->
                  generateShareUrl b2 (integer z2) l2 = Ok u ->
                  (b2, z2, l2) = (b1, z1, l1)).
Proof.
  split; [apply generateShareUrl_total|].
  intros u H.
  assert (N : occurs_in (number_toString x1) u).
  { rewrite generateShareUrl_eq in H.
    destruct (encodeURIComponent b1) as [e|]; [|discriminate].
    apply Ok_inj in H. subst u.
    apply occurs_in_app_l, occurs_in_app_l, occurs_in_app_l, occurs_in_refl. }
  split; [|split].
  - rewrite generateShareUrl_eq in H.
    destruct (encodeURIComponent b1) as [e|]; [|discriminate].
    apply Ok_inj in H. subst u. exists e. split; [reflexivity|].
    split; [|exact N].
    apply occurs_in_app_l, occurs_in_app_r, occurs_in_refl.
  - intros b2 x2 l2 H2.
    destruct (generateShareUrl_inj _ _ _ _ _ _ _ H2 H) as (-> & E & ->).
    auto.
  - intros z1 -> B1. split.
    + rewrite <- (integer_toString z1 B1). exact N.
    + intros b2 z2 l2 B2 H2.
      destruct (generateShareUrl_inj _ _ _ _ _ _ _ H2 H) as (-> & E & ->).
      rewrite !integer_toString in E by assumption.
      apply Number_toString_inj in E. subst z2. reflexivity.
Qed.

Lemma generateShareUrl_injective_witness :
  (exists u, generateShareUrl (js "meian-natsume") (integer 12) ja = Ok u)
  /\ (exists encoded,
        encodeURIComponent (js "meian-natsume") = Ok encoded
        /\ occurs_in encoded (url meian_content)
        /\ occurs_in (number_toString (integer 12)) (url meian_content))
  /\ (forall b2 x2 l2,
        generateShareUrl b2 x2 l2 = Ok (url meian_content) ->
        b2 = js "meian-natsume" /\ l2 = ja
        /\ number_toString x2 = number_toString (integer 12))
  /\ (forall z1,
        integer 12 = integer z1 -> (Z.abs z1 <= 2 ^ 53)%Z ->
        occurs_in (Number_toString z1) (url meian_content)
        /\ forall b2 z2 l2,
             (Z.abs z2 <= 2 ^ 53)%Z ->
             generateShareUrl b2 (integer z2) l2 = Ok (url meian_content) ->
             (b2, z2, l2) = (js "meian-natsume", z1, ja)).
Proof.
  split.
  - apply (proj1 (generateShareUrl_injective (js "meian-natsume")
                    (integer 12) ja)).
    vm_compute. reflexivity.
  - apply (proj2 (generateShareUrl_injective (js "meian-natsume")
                    (integer 12) ja)).
    vm_compute. reflexivity.
Defined.

(** C8, as stated, fails: the sentence id 10^21 is printed in exponent
    notation, and the URL does not contain its decimal numeral. *)
Lemma generateShareUrl_1e21 :
  integer (10 ^ 21) = Finite false (js "1") 22
  /\ generateShareUrl (js "meian-natsume") (Finite false (js "1") 22) ja
     = Ok (js "https://rmc-8.com/shosha/random_shosha/?book_id=meian-natsume&sentence_id=1e+21")
  /\ Number_toString (10 ^ 21) = js "1000000000000000000000"
  /\ ~ occurs_in (js "1000000000000000000000")
         (js "https://rmc-8.com/shosha/random_shosha/?book_id=meian-natsume&sentence_id=1e+21").
Proof.
  split; [vm_compute; reflexivity|].
  split; [vm_compute; reflexivity|].
  split; [vm_compute; reflexivity|].
  intros H. apply occurs_in_occursb in H. vm_compute in H. discriminate.
Qed.

(** The formatters return for every record with a well-formed book id. *)
Lemma share_content_total (j : JapaneseSentenceResponse)
  (e : EnglishSentenceResponse) :
  well_formed (book_id j) = true -> well_formed (book_id e) = true ->
  (exists c, generateJapaneseShareContent j = Ok c)
  /\ (exists c, generateEnglishShareContent e = Ok c)
  /\ (exists c, Legacy.generateJapaneseShareContent j = Ok c)
  /\ (exists c, Legacy.generateEnglishShareContent e = Ok c).
Proof.
  intros Wj We.
  unfold generateJapaneseShareContent, generateEnglishShareContent,
    Legacy.generateJapaneseShareContent, Legacy.generateEnglishShareContent.
  destruct (generateShareUrl_total _ (sentence_id j) ja Wj) as [u ->].
  destruct (generateShareUrl_total _ (sentence_id e) en We) as [v ->].
  repeat split; eexists; reflexivity.
Qed.

Lemma share_content_url_in_text_aux shareUrl before :
  occurs_in shareUrl (before ++ shareUrl).
Proof. apply occurs_in_app_l, occurs_in_refl. Qed.

(** C9. In every [ShareContent] produced by [generateJapaneseShareContent]
    or [generateEnglishShareContent], of either revision, the [url] field
    occurs verbatim in the [text] field. *)
Theorem share_content_url_in_text (c : ShareContent) :
  (exists data, generateJapaneseShareContent data = Ok c)
  \/ (exists data, generateEnglishShareContent data = Ok c)
  \/ (exists data, Legacy.generateJapaneseShareContent data = Ok c)
  \/ (exists data, Legacy.generateEnglishShareContent data = Ok c) ->
  occurs_in (url c) (text c).
Proof.
  unfold generateJapaneseShareContent, generateEnglishShareContent,
    Legacy.generateJapaneseShareContent, Legacy.generateEnglishShareContent.
  intros [[d H] | [[d H] | [[d H] | [d H]]]];
    destruct (generateShareUrl _ _ _) as [shareUrl|]; try discriminate H;
    apply Ok_inj in H; subst c; cbn [url text];
    repeat (rewrite app_assoc); apply share_content_url_in_text_aux.
Qed.

Lemma share_content_url_in_text_witness :
  occurs_in (url meian_content) (text meian_content).
Proof.
  apply (share_content_url_in_text meian_content).
  left. exists meian. vm_compute. reflexivity.
Defined.

(* ====================================================================== *)
(** * Properties of the patterns and of [exec]                             *)
(* ====================================================================== *)

Lemma strip_prefix_app p r : strip_prefix p (p ++ r) = Some r.
Proof.
  induction p as [|a p IH]; [reflexivity|].
  simpl. rewrite N.eqb_refl. exact IH.
Qed.

Lemma strip_prefix_Some p : forall s r,
  strip_prefix p s = Some r -> s = p ++ r.
Proof.
  induction p as [|a p IH]; intros s r; simpl.
  - intros [= ->]. reflexivity.
  - destruct s as [|b s]; [discriminate|].
    destruct (N.eqb_spec a b) as [->|]; [|discriminate].
    intros H%IH. rewrite H. reflexivity.
Qed.

Lemma run_length_le p s : run_length p s <= length s.
Proof.
  induction s as [|c s IH]; simpl; [lia|]. destruct (p c); simpl; lia.
Qed.

Lemma match_run1_Some p s n :
  match_run1 p s = Some n ->
  n = run_length p s /\ 0 < n <= length s
  /\ exists c s', s = c :: s' /\ p c = true.
Proof.
  unfold match_run1. pose proof (run_length_le p s) as L.
  destruct s as [|c s']; simpl in *; [discriminate|].
  destruct (p c) eqn:Pc; [|discriminate].
  intros [= <-]. repeat split; try reflexivity; try lia. eauto.
Qed.

Lemma match_run1_cons p c s :
  p c = true -> match_run1 p (c :: s) = Some (S (run_length p s)).
Proof. intros H. unfold match_run1. simpl. rewrite H. reflexivity. Qed.

Lemma scheme_tail_Some r n m :
  scheme_tail r n = Some m ->
  exists c post, r = js "://" ++ c :: post /\ is_white_space c = false
                 /\ n + 3 < m <= n + length r.
Proof.
  unfold scheme_tail.
  destruct (strip_prefix (js "://") r) as [body|] eqn:S; [|discriminate].
  apply strip_prefix_Some in S. subst r.
  destruct (match_run1 _ body) as [k|] eqn:R; [|discriminate].
  apply match_run1_Some in R as (_ & L & c & post & -> & W).
  intros [= <-]. exists c, post. split; [reflexivity|].
  apply negb_true_iff in W. split; [assumption|].
  rewrite length_app. change (length (js "://")) with 3. lia.
Qed.

Lemma scheme_tail_complete c post n :
  is_white_space c = false ->
  exists m, scheme_tail (js "://" ++ c :: post) n = Some m.
Proof.
  intros W. unfold scheme_tail. rewrite strip_prefix_app.
  rewrite match_run1_cons by (rewrite W; reflexivity). eauto.
Qed.

Lemma scheme_tail_s r n : scheme_tail (0x73%N :: r) n = None.
Proof. reflexivity. Qed.

Lemma match_url_eq s :
  match_at urlRegex s =
  match strip_prefix (js "http") s with
  | None => None
  | Some r =>
    match r with
    | c :: r' =>
      if (c =? 0x73)%N then
        match scheme_tail r' 5 with
        | Some n => Some n
        | None => scheme_tail r 4
        end
      else scheme_tail r 4
    | [] => scheme_tail r 4
    end
  end.
Proof. reflexivity. Qed.

(** A match of the URL pattern starts with one of the two schemes followed
    by a unit that is not white space. *)
Lemma match_url_Some s n :
  match_at urlRegex s = Some n ->
  exists scheme c post,
    (scheme = js "http://" \/ scheme = js "https://")
    /\ s = scheme ++ c :: post /\ is_white_space c = false
    /\ 0 < n <= length s.
Proof.
  rewrite match_url_eq.
  destruct (strip_prefix (js "http") s) as [r|] eqn:S; [|discriminate].
  apply strip_prefix_Some in S. subst s.
  assert (T4 : scheme_tail r 4 = Some n ->
               exists scheme c post,
                 (scheme = js "http://" \/ scheme = js "https://")
                 /\ js "http" ++ r = scheme ++ c :: post
                 /\ is_white_space c = false
                 /\ 0 < n <= length (js "http" ++ r)).
  { intros (c & post & -> & W & L)%scheme_tail_Some.
    exists (js "http://"), c, post. split; [auto|]. split; [reflexivity|].
    split; [assumption|]. rewrite !length_app in *.
    change (length (js "http")) with 4.
    change (length (js "://")) with 3 in *. simpl length in *. lia. }
  destruct r as [|c r']; [exact T4|].
  destruct (N.eqb_spec c 0x73) as [->|]; [|exact T4].
  rewrite scheme_tail_s.
  destruct (scheme_tail r' 5) as [m|] eqn:T5; [|discriminate].
  intros [= ->]. apply scheme_tail_Some in T5 as (c & post & -> & W & L).
  exists (js "https://"), c, post. split; [auto|]. split; [reflexivity|].
  split; [assumption|]. rewrite !length_app in *.
  change (length (js "http")) with 4.
  change (length (js "://")) with 3 in *. simpl length in *. lia.
Qed.

Lemma match_url_complete scheme c post :
  scheme = js "http://" \/ scheme = js "https://" ->
  is_white_space c = false ->
  exists n, match_at urlRegex (scheme ++ c :: post) = Some n.
Proof.
  intros [-> | ->] W; rewrite match_url_eq.
  - change (js "http://" ++ c :: post)
      with (js "http" ++ js "://" ++ c :: post).
    rewrite strip_prefix_app.
    change (js "://" ++ c :: post)
      with (0x3A%N :: (js "//" ++ c :: post)).
    cbv iota beta. change (0x3A =? 0x73)%N with false. cbv iota.
    change (0x3A%N :: (js "//" ++ c :: post))
      with (js "://" ++ c :: post).
    apply scheme_tail_complete. assumption.
  - change (js "https://" ++ c :: post)
      with (js "http" ++ 0x73%N :: (js "://" ++ c :: post)).
    rewrite strip_prefix_app. cbv iota beta. rewrite N.eqb_refl.
    destruct (scheme_tail_complete c post 5 W) as [m ->]. eauto.
Qed.

Lemma match_hashtag_Some s n :
  match_at hashtagRegex s = Some n ->
  exists c post, s = HASH :: c :: post /\ is_hashtag_char c = true
                 /\ 0 < n <= length s.
Proof.
  unfold hashtagRegex, match_at. destruct s as [|h body]; [discriminate|].
  destruct (N.eqb_spec h HASH) as [->|]; [|discriminate].
  destruct (match_run1 is_hashtag_char body) as [k|] eqn:R; [|discriminate].
  apply match_run1_Some in R as (_ & L & c & post & -> & W).
  intros [= <-]. exists c, post. simpl in *. repeat split; auto; lia.
Qed.

Lemma match_hashtag_complete c post :
  is_hashtag_char c = true ->
  exists n, match_at hashtagRegex (HASH :: c :: post) = Some n.
Proof.
  intros W. unfold hashtagRegex, match_at. rewrite N.eqb_refl.
  rewrite match_run1_cons by assumption. eauto.
Qed.

Lemma urlRegex_proper : proper urlRegex.
Proof. intros s n (_ & _ & _ & _ & _ & _ & L)%match_url_Some. exact L. Qed.

Lemma hashtagRegex_proper : proper hashtagRegex.
Proof. intros s n (_ & _ & _ & _ & L)%match_hashtag_Some. exact L. Qed.

Lemma search_Some re : forall s i j n,
  search re s i = Some (j, n) ->
  exists k, j = i + k /\ k <= length s
            /\ match_at re (skipn k s) = Some n.
Proof.
  induction s as [|c s IH]; intros i j n; simpl.
  - destruct (match_at re []) as [m|] eqn:E; [|discriminate].
    intros [= <- <-]. exists 0. simpl. repeat split; auto.
  - destruct (match_at re (c :: s)) as [m|] eqn:E.
    + intros [= <- <-]. exists 0. simpl. repeat split; auto; lia.
    + intros (k & -> & L & M)%IH. exists (S k). simpl.
      repeat split; auto; lia.
Qed.

Lemma search_None re : forall s i k,
  search re s i = None -> k <= length s -> match_at re (skipn k s) = None.
Proof.
  induction s as [|c s IH]; intros i k; simpl.
  - destruct (match_at re []) eqn:E; [discriminate|].
    intros _ L. replace k with 0 by lia. exact E.
  - destruct (match_at re (c :: s)) eqn:E; [discriminate|].
    intros H L. destruct k as [|k]; [exact E|].
    simpl. apply (IH (S i)); [assumption | lia].
Qed.

Lemma search_found re : forall s i k n,
  k <= length s -> match_at re (skipn k s) = Some n ->
  exists j m, search re s i = Some (j, m).
Proof.
  intros s i k n L M.
  destruct (search re s i) as [[j m]|] eqn:E; [eauto|].
  rewrite (search_None _ _ _ _ E L) in M. discriminate.
Qed.

(** What a successful [exec] returns: a match of the pattern at
    [match.index], at or after [lastIndex], with [match[0]] the matched
    part of the text; the new [lastIndex] is the end of the match. *)
Lemma exec_Some re text lastIndex m lastIndex' :
  proper re ->
  exec re text lastIndex = (Some m, lastIndex') ->
  exists after,
    text = firstn (match_index m) text ++ match_0 m ++ after
    /\ lastIndex <= match_index m
    /\ match_at re (match_0 m ++ after) = Some (length (match_0 m))
    /\ lastIndex' = match_index m + length (match_0 m)
    /\ 0 < length (match_0 m)
    /\ lastIndex' <= length text.
Proof.
  intros Hre. unfold exec.
  destruct (Nat.ltb_spec (length text) lastIndex); [discriminate|].
  destruct (search re (skipn lastIndex text) lastIndex) as [[i n]|] eqn:S;
    [|discriminate].
  intros [= <- <-]. cbn [match_index match_0].
  apply search_Some in S as (k & -> & L & M).
  rewrite skipn_skipn in M. rewrite (Nat.add_comm k lastIndex) in M.
  rewrite length_skipn in L.
  pose proof (Hre _ _ M) as [Hn Hlen]. rewrite length_skipn in Hlen.
  unfold substring.
  replace (lastIndex + k + n - (lastIndex + k)) with n by lia.
  set (i := lastIndex + k) in *.
  exists (skipn n (skipn i text)).
  assert (Hl : length (firstn n (skipn i text)) = n)
    by (rewrite length_firstn, length_skipn; lia).
  rewrite Hl, !firstn_skipn. repeat split; auto; lia.
Qed.

Lemma exec_None re text lastIndex lastIndex' k :
  exec re text lastIndex = (None, lastIndex') ->
  lastIndex <= k <= length text -> match_at re (skipn k text) = None.
Proof.
  unfold exec.
  destruct (Nat.ltb_spec (length text) lastIndex); [lia|].
  destruct (search re (skipn lastIndex text) lastIndex) as [[i n]|] eqn:S;
    [discriminate|].
  intros _ L.
  pose proof (search_None _ _ _ (k - lastIndex) S) as N.
  rewrite skipn_skipn, length_skipn in N.
  replace (k - lastIndex + lastIndex) with k in N by lia.
  apply N. lia.
Qed.

(** Every facet pushed by the loop is the body applied to a match. *)
Lemma while_exec_In re text body f : forall fuel lastIndex facets,
  In f (while_exec fuel re text lastIndex body facets) ->
  In f facets
  \/ exists m lastIndex0 lastIndex1,
       exec re text lastIndex0 = (Some m, lastIndex1) /\ f = body m.
Proof.
  induction fuel as [|fuel IH]; intros lastIndex facets; simpl; [auto|].
  destruct (exec re text lastIndex) as [[m|] lastIndex'] eqn:E; [|auto].
  intros [H | H]%IH; [|auto].
  apply in_app_or in H as [H | [<- | []]]; [auto|].
  right. eauto.
Qed.

Lemma while_exec_app re text body : forall fuel lastIndex facets,
  exists more,
    while_exec fuel re text lastIndex body facets = facets ++ more.
Proof.
  induction fuel as [|fuel IH]; intros lastIndex facets; simpl.
  - exists []. rewrite app_nil_r. reflexivity.
  - destruct (exec re text lastIndex) as [[m|] lastIndex'].
    + destruct (IH lastIndex' (facets ++ [body m])) as [more ->].
      rewrite <- app_assoc. eauto.
    + exists []. rewrite app_nil_r. reflexivity.
Qed.

(** The loop always leaves through [null]: once the fuel exceeds what is
    left of the text, more fuel changes nothing. *)
Lemma while_exec_fuel re text body (Hre : proper re) :
  forall fuel extra lastIndex facets,
    length text < lastIndex + fuel ->
    while_exec (fuel + extra) re text lastIndex body facets
    = while_exec fuel re text lastIndex body facets.
Proof.
  induction fuel as [|fuel IH]; intros extra lastIndex facets L.
  - simpl. destruct extra as [|extra]; [reflexivity|]. simpl.
    unfold exec. destruct (Nat.ltb_spec (length text) lastIndex); [|lia].
    reflexivity.
  - simpl.
    destruct (exec re text lastIndex) as [[m|] lastIndex'] eqn:E;
      [|reflexivity].
    apply (exec_Some _ _ _ _ _ Hre) in E as (after & _ & A & _ & B & C & _).
    apply IH. lia.
Qed.

(* ====================================================================== *)
(** * Properties of [extractFacets]                                        *)
(* ====================================================================== *)

Lemma substring_0 s n : substring s 0 n = firstn n s.
Proof. unfold substring. rewrite Nat.sub_0_r. reflexivity. Qed.

(** C1. Every facet of [extractFacets] comes from a match of the URL or
    of the hashtag pattern in the text; its [byteStart] is the UTF-8 length
    of the text before the match and its [byteEnd] is [byteStart] plus the
    UTF-8 length of the matched part.  For a hashtag, the matched part is
    [#] followed by the tag and [byteEnd - byteStart] is its UTF-8 length.
    The same holds of the link facets of the earlier revision. *)
Theorem extractFacets_byte_offsets (text_ : jsstring) (f : Facet) :
  In f (extractFacets text_) \/ In f (Legacy.extractFacets text_) ->
  exists before matched after,
    text_ = before ++ matched ++ after
    /\ byteStart (index f) = length (newBlob_getBytes before)
    /\ byteEnd (index f)
       = byteStart (index f) + length (newBlob_getBytes matched)
    /\ ((match_at urlRegex (matched ++ after) = Some (length matched)
         /\ features f = [FacetLink matched])
        \/ (match_at hashtagRegex (matched ++ after) = Some (length matched)
            /\ exists tag,
                 matched = HASH :: tag
                 /\ features f = [FacetTag tag]
                 /\ byteEnd (index f) - byteStart (index f)
                    = length (newBlob_getBytes (HASH :: tag)))).
Proof.
  assert (Link : forall m li li',
             exec urlRegex text_ li = (Some m, li') ->
             exists before matched after,
               text_ = before ++ matched ++ after
               /\ byteStart (index (linkFacet text_ m))
                  = length (newBlob_getBytes before)
               /\ byteEnd (index (linkFacet text_ m))
                  = byteStart (index (linkFacet text_ m))
                    + length (newBlob_getBytes matched)
               /\ match_at urlRegex (matched ++ after)
                  = Some (length matched)
               /\ features (linkFacet text_ m) = [FacetLink matched]).
  { intros m li li' E.
    apply (exec_Some _ _ _ _ _ urlRegex_proper) in E
      as (after & T & _ & M & _).
    exists (firstn (match_index m) text_), (match_0 m), after.
    unfold linkFacet. cbn [index byteStart byteEnd features].
    rewrite substring_0. auto. }
  unfold extractFacets, Legacy.extractFacets.
  intros [H | H].
  - apply while_exec_In in H as [H | (m & li & li' & E & ->)].
    + apply while_exec_In in H as [[] | (m & li & li' & E & ->)].
      destruct (Link _ _ _ E) as (b & x & a & T & S & B & M & F).
      exists b, x, a. auto 6.
    + apply (exec_Some _ _ _ _ _ hashtagRegex_proper) in E
        as (after & T & _ & M & _ & Pos & _).
      exists (firstn (match_index m) text_), (match_0 m), after.
      unfold tagFacet. cbn [index byteStart byteEnd features].
      rewrite substring_0. repeat split; auto.
      right. split; [assumption|].
      destruct (match_hashtag_Some _ _ M) as (c & post & Eq & _).
      destruct (match_0 m) as [|h tag]; [simpl in Pos; lia|].
      simpl in Eq. cons_inv Eq. subst h.
      exists tag. repeat split. simpl skipn. lia.
  - apply while_exec_In in H as [[] | (m & li & li' & E & ->)].
    destruct (Link _ _ _ E) as (b & x & a & T & S & B & M & F).
    exists b, x, a. auto 6.
Qed.

(** The text of the Japanese post of "meian-natsume" and its facets: one
    link and two tags, the first one in Japanese script (19 bytes for its
    7 characters). *)
Example extractFacets_meian :
  extractFacets (text meian_content)
  = [ {| index := {| byteStart := 65; byteEnd := 141 |};
         features := [FacetLink (url meian_content)] |};
      {| index := {| byteStart := 28; byteEnd := 47 |};
         features := [FacetTag (js "ランダム書写")] |};
      {| index := {| byteStart := 48; byteEnd := 64 |};
         features := [FacetTag (js "meiannatsume_12")] |} ].
Proof. vm_compute. reflexivity. Qed.

Lemma extractFacets_byte_offsets_witness :
  exists before matched after,
    text meian_content = before ++ matched ++ after
    /\ 28 = length (newBlob_getBytes before)
    /\ 47 = 28 + length (newBlob_getBytes matched)
    /\ ((match_at urlRegex (matched ++ after) = Some (length matched)
         /\ [FacetTag (js "ランダム書写")] = [FacetLink matched])
        \/ (match_at hashtagRegex (matched ++ after) = Some (length matched)
            /\ exists tag,
                 matched = HASH :: tag
                 /\ [FacetTag (js "ランダム書写")] = [FacetTag tag]
                 /\ 47 - 28 = length (newBlob_getBytes (HASH :: tag)))).
Proof.
  apply (extractFacets_byte_offsets (text meian_content)
           {| index := {| byteStart := 28; byteEnd := 47 |};
              features := [FacetTag (js "ランダム書写")] |}).
  left. vm_compute. right. left. reflexivity.
Defined.

(** ** Texts without links and hashtags *)

Lemma skipn_app_length {A} (a b : list A) : skipn (length a) (a ++ b) = b.
Proof. induction a; simpl; auto. Qed.

Lemma exec_0 re text_ :
  exec re text_ 0 =
  match search re text_ 0 with
  | Some (i, n) =>
    (Some {| match_index := i; match_0 := substring text_ i (i + n) |}, i + n)
  | None => (None, 0)
  end.
Proof.
  unfold exec. destruct (Nat.ltb_spec (length text_) 0); [lia|]. reflexivity.
Qed.

Lemma no_match_while re text_ body fuel facets :
  (forall k, k <= length text_ -> match_at re (skipn k text_) = None) ->
  while_exec fuel re text_ 0 body facets = facets.
Proof.
  intros N. destruct fuel as [|fuel]; [reflexivity|].
  cbn [while_exec]. rewrite exec_0.
  destruct (search re text_ 0) as [[i n]|] eqn:S; [|reflexivity].
  apply search_Some in S as (k & _ & L & M).
  rewrite N in M by assumption. discriminate.
Qed.

Lemma match_while re text_ body fuel k n :
  k <= length text_ -> match_at re (skipn k text_) = Some n ->
  while_exec (S fuel) re text_ 0 body [] <> [].
Proof.
  intros L M. cbn [while_exec]. rewrite exec_0.
  destruct (search_found re text_ 0 k n L M) as (j & m & ->).
  destruct (while_exec_app re text_ body fuel (j + m)
              ([] ++ [body {| match_index := j;
                              match_0 := substring text_ j (j + m) |}]))
    as [more ->].
  discriminate.
Qed.

Lemma no_url_no_match text_ :
  ~ contains_url text_ ->
  forall k, k <= length text_ -> match_at urlRegex (skipn k text_) = None.
Proof.
  intros N k L.
  destruct (match_at urlRegex (skipn k text_)) as [n|] eqn:M; [|reflexivity].
  exfalso. apply N.
  apply match_url_Some in M as (scheme & c & post & S & E & W & _).
  exists (firstn k text_), scheme, c, post. repeat split; auto.
  rewrite <- E. symmetry. apply firstn_skipn.
Qed.

Lemma no_hashtag_no_match text_ :
  ~ contains_hashtag text_ ->
  forall k, k <= length text_ -> match_at hashtagRegex (skipn k text_) = None.
Proof.
  intros N k L.
  destruct (match_at hashtagRegex (skipn k text_)) as [n|] eqn:M;
    [|reflexivity].
  exfalso. apply N.
  apply match_hashtag_Some in M as (c & post & E & W & _).
  exists (firstn k text_), c, post. split; [|assumption].
  rewrite <- E. symmetry. apply firstn_skipn.
Qed.

(** [extractFacets] returns the empty list exactly for the texts without
    URL and without hashtag. *)
Lemma extractFacets_nil_iff text_ :
  extractFacets text_ = [] <-> ~ contains_url text_ /\ ~ contains_hashtag text_.
Proof.
  unfold extractFacets. split.
  - intros H. split.
    + intros (before & scheme & c & after & Sch & -> & W).
      destruct (match_url_complete scheme c after Sch W) as [n M].
      destruct (while_exec_app hashtagRegex
                  (before ++ scheme ++ c :: after)
                  (tagFacet (before ++ scheme ++ c :: after))
                  (S (length (before ++ scheme ++ c :: after))) 0
                  (while_exec (S (length (before ++ scheme ++ c :: after)))
                     urlRegex (before ++ scheme ++ c :: after) 0
                     (linkFacet (before ++ scheme ++ c :: after)) []))
        as [more E].
      rewrite E in H. apply app_eq_nil in H as [H _]. revert H.
      apply (match_while _ _ _ _ (length before) n).
      * rewrite length_app. lia.
      * rewrite skipn_app_length. assumption.
    + intros (before & c & after & -> & W).
      destruct (match_hashtag_complete c after W) as [n M].
      revert H.
      set (t := before ++ HASH :: c :: after) in *.
      destruct (while_exec (S (length t)) urlRegex t 0 (linkFacet t) [])
        as [|l ls] eqn:E.
      * apply (match_while _ _ _ _ (length before) n).
        -- subst t. rewrite length_app. lia.
        -- subst t. rewrite skipn_app_length. assumption.
      * destruct (while_exec_app hashtagRegex t (tagFacet t)
                    (S (length t)) 0 (l :: ls)) as [more ->].
        discriminate.
  - intros [NU NH].
    rewrite (no_match_while urlRegex) by (apply no_url_no_match; assumption).
    apply no_match_while. apply no_hashtag_no_match. assumption.
Qed.

(* ====================================================================== *)
(** * Properties of the publishers                                         *)
(* ====================================================================== *)

Lemma run_bind {A B} (m : M A) (k : A -> M B) w :
  bind m k w =
  match m w with
  | (Ok a, w') => k a w'
  | (Throw e, w') => (Throw e, w')
  end.
Proof. reflexivity. Qed.

Lemma generateOAuthHeader_world P method_ url_ params credentials w :
  snd (generateOAuthHeader P method_ url_ params credentials w) = w.
Proof.
  unfold generateOAuthHeader.
  cbv beta iota zeta delta [bind ret lift].
  destruct (generateOAuthSignature _ _ _ _ _ _); [|reflexivity].
  destruct (Result_mapM _ _); reflexivity.
Qed.

(** C3. [postToX] never throws.  It returns [true] exactly when the call
    to the tweet endpoint was made and answered with status 201; with any
    other status, when the call fails at the transport level, or when the
    request could not be built, it returns [false], and the line it logs
    is the diagnostic ([X post failed (status): body] or
    [X post error: ...]).  It makes no other call. *)
Theorem postToX_true_iff_201 (P : Platform) (text_ : jsstring)
  (credentials : XCredentials) (w : World) :
  exists (b : bool) (line : jsstring) (calls : list FetchCall),
    postToX P text_ credentials w
    = (Ok b, {| logged := logged w ++ [line];
                fetched := fetched w ++ calls |})
    /\ match generateOAuthHeader P (js "POST")
               (js "https://api.twitter.com/2/tweets") [] credentials w with
       | (Throw e, _) =>
         calls = [] /\ b = false
         /\ line = js "X post error: " ++ exn_toString e
       | (Ok authHeader, _) =>
         calls = [tweet_call text_ authHeader]
         /\ match UrlFetchApp_respond P (fetched w)
                    (tweet_call text_ authHeader) with
            | Throw e =>
              b = false /\ line = js "X post error: " ++ exn_toString e
            | Ok response =>
              b = (getResponseCode response =? 201)%Z
              /\ line =
                 if (getResponseCode response =? 201)%Z
                 then js "X post successful: " ++ getContentText response
                 else js "X post failed ("
                      ++ Number_toString (getResponseCode response)
                      ++ js "): " ++ getContentText response
            end
       end.
Proof.
  pose proof (generateOAuthHeader_world P (js "POST")
                (js "https://api.twitter.com/2/tweets") [] credentials w) as W.
  unfold postToX, try_catch. cbv zeta. rewrite run_bind.
  destruct (generateOAuthHeader P (js "POST")
              (js "https://api.twitter.com/2/tweets") [] credentials w)
    as [[authHeader|e] w1]; simpl in W; subst w1.
  - rewrite run_bind. unfold UrlFetchApp_fetch at 1.
    fold (tweet_call text_ authHeader).
    destruct (UrlFetchApp_respond P (fetched w) (tweet_call text_ authHeader))
      as [response|e].
    + destruct (getResponseCode response =? 201)%Z;
        eexists _, _, _; (split; [reflexivity | auto]).
    + eexists _, _, _. split; [reflexivity | auto].
  - exists false, (js "X post error: " ++ exn_toString e), [].
    rewrite app_nil_r. auto.
Qed.

Example postToX_403 :
  exists calls,
    postToX scenario_403 (js "hello") scenario_credentials empty_world
    = (Ok false, {| logged := [js "X post failed (403): Forbidden"];
                    fetched := calls |}).
Proof. eexists. vm_compute. reflexivity. Qed.

(** The HMAC-SHA1 of the reference platform on a test vector of
    RFC 2202. *)
Example hmac_sha1_rfc2202 :
  Reference.hmac_sha1 (bytes_of_string "Jefe")
    (bytes_of_string "what do ya want for nothing?")
  = [0xef; 0xfc; 0xdf; 0x6a; 0xe5; 0xeb; 0x2f; 0xa2; 0xd2; 0x74;
     0x16; 0xd5; 0xf1; 0x84; 0xdf; 0x9c; 0x25; 0x9a; 0x7c; 0x79]%N.
Proof. vm_compute. reflexivity. Qed.

(** ** Sessions *)

Lemma createBlueskySession_run P credentials w :
  exists lines,
    createBlueskySession P credentials w
    = (Ok (session_token P (UrlFetchApp_respond P (fetched w)
                              (session_call credentials))),
       {| logged := logged w ++ lines;
          fetched := fetched w ++ [session_call credentials] |}).
Proof.
  unfold createBlueskySession, try_catch. cbv zeta. rewrite run_bind.
  unfold UrlFetchApp_fetch at 1. fold (session_call credentials).
  unfold session_token.
  destruct (UrlFetchApp_respond P (fetched w) (session_call credentials))
    as [response|e]; [|eexists [_]; reflexivity].
  destruct (getResponseCode response =? 200)%Z; [|eexists [_]; reflexivity].
  rewrite run_bind. unfold lift at 1.
  destruct (JSON_parse P (getContentText response)) as [data|e];
    [|eexists [_]; reflexivity].
  rewrite run_bind. unfold Logger_log at 1. unfold lift.
  cbn [logged fetched].
  destruct (Get data (js "accessJwt")) as [v|e].
  - eexists [_]. reflexivity.
  - eexists [_; _]. rewrite run_bind. unfold Logger_log at 1, ret.
    cbn [logged fetched]. rewrite <- app_assoc. reflexivity.
Qed.

Lemma postToBluesky_without_session P text_ credentials shareUrl ogpTitle
  ogpDescription ogpImageUrl w token w1 :
  createBlueskySession P credentials w = (Ok token, w1) ->
  ToBoolean token = false ->
  postToBluesky P text_ credentials shareUrl ogpTitle ogpDescription
    ogpImageUrl w
  = (Ok false,
     {| logged := logged w1 ++ [js "Bluesky authentication failed"];
        fetched := fetched w1 |}).
Proof.
  intros S T. unfold postToBluesky. rewrite run_bind, S, T. reflexivity.
Qed.

(** C5 (amended). [createBlueskySession] makes the session-creation call
    and never throws.  With status 200 and a body that parses as JSON it
    yields the [accessJwt] member of the parsed body; with any other
    status, on a transport failure, or when the body of a 200 answer does
    not parse (or parses to [null]), it yields [null].  When what it
    yields is falsy, [postToBluesky] logs the failure and returns [false],
    having made no call but the session-creation one. *)
Theorem createBlueskySession_token (P : Platform) (text_ : jsstring)
  (credentials : BlueskyCredentials)
  (shareUrl ogpTitle ogpDescription ogpImageUrl : option jsstring)
  (w : World) :
  exists (token : JSValue) (lines : list jsstring),
    createBlueskySession P credentials w
    = (Ok token, {| logged := logged w ++ lines;
                    fetched := fetched w ++ [session_call credentials] |})
    /\ token
       = match UrlFetchApp_respond P (fetched w) (session_call credentials)
         with
         | Throw _ => JSNull
         | Ok response =>
           if (getResponseCode response =? 200)%Z then
             match JSON_parse P (getContentText response) with
             | Throw _ => JSNull
             | Ok data =>
               match Get data (js "accessJwt") with
               | Ok v => v
               | Throw _ => JSNull
               end
             end
           else JSNull
         end
    /\ (ToBoolean token = false ->
        postToBluesky P text_ credentials shareUrl ogpTitle ogpDescription
          ogpImageUrl w
        = (Ok false,
           {| logged :=
                logged w ++ lines ++ [js "Bluesky authentication failed"];
              fetched := fetched w ++ [session_call credentials] |})).
Proof.
  destruct (createBlueskySession_run P credentials w) as [lines S].
  eexists _, lines. split; [exact S|]. split; [reflexivity|].
  intros T.
  rewrite (postToBluesky_without_session _ _ _ _ _ _ _ _ _ _ S T).
  cbn [logged fetched]. rewrite app_assoc. reflexivity.
Qed.

(** C5, as stated, fails: here the session-creation status is 200 and
    [createBlueskySession] yields [null], no access token. *)
Lemma createBlueskySession_200_null :
  (exists response,
     UrlFetchApp_respond scenario_html_session []
       (session_call scenario_account) = Ok response
     /\ getResponseCode response = 200%Z)
  /\ fst (createBlueskySession scenario_html_session scenario_account
            empty_world) = Ok JSNull.
Proof.
  split.
  - eexists. split; vm_compute; reflexivity.
  - vm_compute. reflexivity.
Qed.

Lemma createBlueskySession_token_witness :
  exists (token : JSValue) (lines : list jsstring),
    createBlueskySession scenario_html_session scenario_account empty_world
    = (Ok token, {| logged := logged empty_world ++ lines;
                    fetched := fetched empty_world
                               ++ [session_call scenario_account] |})
    /\ token = JSNull
    /\ postToBluesky scenario_html_session (js "text") scenario_account
         None None None None empty_world
       = (Ok false,
          {| logged :=
               logged empty_world ++ lines
               ++ [js "Bluesky authentication failed"];
             fetched := fetched empty_world
                        ++ [session_call scenario_account] |}).
Proof.
  destruct (createBlueskySession_token scenario_html_session (js "text")
              scenario_account None None None None empty_world)
    as (token & lines & S & T & F).
  exists token, lines. split; [exact S|].
  assert (E : token = JSNull) by (rewrite T; vm_compute; reflexivity).
  split; [exact E|]. apply F. rewrite E. reflexivity.
Defined.

(** ** Thumbnails *)

Lemma uploadBlobToBluesky_returns P imageUrl accessJwt w :
  exists blob w', uploadBlobToBluesky P imageUrl accessJwt w = (Ok blob, w').
Proof.
  unfold uploadBlobToBluesky, try_catch.
  match goal with
  | |- context [match ?body w with _ => _ end] =>
    destruct (body w) as [[blob|e] w']
  end.
  - eauto.
  - cbv [bind Logger_log ret]. eauto.
Qed.

(** ** The post record *)

Lemma record_with_facets text_ now :
  props_spread
    [(js "$type", JSString (js "app.bsky.feed.post"));
     (js "text", JSString text_);
     (js "createdAt", JSString now)]
    (spread_of
       (if 0 <? length (extractFacets text_)
        then JSObject [(js "facets",
                        JSArray (map facet_value (extractFacets text_)))]
        else JSBool false))
  = post_record text_ now None.
Proof.
  unfold post_record. destruct (extractFacets text_) as [|f fs].
  - reflexivity.
  - vm_compute. reflexivity.
Qed.

Lemma record_with_embed text_ now e :
  props_set (post_record text_ now None) (js "embed") e
  = post_record text_ now (Some e).
Proof.
  unfold post_record. destruct (extractFacets text_) as [|f fs];
    vm_compute; reflexivity.
Qed.

Lemma external_with_thumb shareUrl ogpTitle ogpDescription blob :
  props_set
    [(js "uri", JSString (opt_ToString shareUrl));
     (js "title",
      JSString (opt_or ogpTitle (js "Random Shosha - 書写のお題")));
     (js "description",
      JSString
        (opt_or ogpDescription (js "古典文学の一文を書写のお題として")))]
    (js "thumb") blob
  = external_data shareUrl ogpTitle ogpDescription (Some blob).
Proof. vm_compute. reflexivity. Qed.

Lemma external_without_thumb shareUrl ogpTitle ogpDescription :
  [(js "uri", JSString (opt_ToString shareUrl));
   (js "title",
    JSString (opt_or ogpTitle (js "Random Shosha - 書写のお題")));
   (js "description",
    JSString
      (opt_or ogpDescription (js "古典文学の一文を書写のお題として")))]
  = external_data shareUrl ogpTitle ogpDescription None.
Proof. reflexivity. Qed.

Lemma embed_value_eq external :
  JSObject [(js "$type", JSString (js "app.bsky.embed.external"));
            (js "external", JSObject external)]
  = embed_value external.
Proof. reflexivity. Qed.

(** A run of [postToBluesky] once the session is there: the record it
    submits, the calls it makes and its result. *)
Lemma postToBluesky_run P text_ credentials shareUrl ogpTitle ogpDescription
  ogpImageUrl w token w1 :
  createBlueskySession P credentials w = (Ok token, w1) ->
  ToBoolean token = true ->
  let '(thumb, w2) := thumb_of P shareUrl ogpImageUrl token w1 in
  let record :=
    post_record text_ (Date_toISOString P (fetched w1))
      (if opt_truthy shareUrl
       then Some (embed_value
                    (external_data shareUrl ogpTitle ogpDescription thumb))
       else None) in
  let call := record_call credentials token record in
  exists lines,
    postToBluesky P text_ credentials shareUrl ogpTitle ogpDescription
      ogpImageUrl w
    = (Ok match UrlFetchApp_respond P (fetched w2) call with
          | Ok response => (getResponseCode response =? 200)%Z
          | Throw _ => false
          end,
       {| logged := logged w2 ++ lines; fetched := fetched w2 ++ [call] |}).
Proof.
  intros S T. unfold postToBluesky, thumb_of.
  rewrite run_bind, S, T. cbn [negb]. unfold try_catch.
  rewrite run_bind. cbv zeta. rewrite record_with_facets.
  set (now := Date_toISOString P (fetched w1)).
  destruct (opt_truthy shareUrl) eqn:SU; cbn [andb].
  - destruct (opt_truthy ogpImageUrl) eqn:IU.
    + rewrite !run_bind.
      destruct (uploadBlobToBluesky_returns P (opt_ToString ogpImageUrl)
                  token w1) as (blob & w2 & U).
      rewrite U. destruct (ToBoolean blob) eqn:B.
      * rewrite !run_bind. unfold Logger_log at 1. unfold ret at 1.
        rewrite external_with_thumb, embed_value_eq, record_with_embed.
        rewrite run_bind. unfold Logger_log at 1. unfold ret at 1.
        rewrite run_bind. unfold Logger_log at 1.
        rewrite run_bind. unfold UrlFetchApp_fetch at 1.
        cbn [logged fetched].
        fold (record_call credentials token
                (post_record text_ now
                   (Some (embed_value
                            (external_data shareUrl ogpTitle ogpDescription
                               (Some blob)))))).
        destruct (UrlFetchApp_respond P (fetched w2) _) as [response|e].
        -- destruct (getResponseCode response =? 200)%Z;
             eexists [_; _; _; _]; cbv [bind Logger_log ret logged fetched];
             rewrite <- !app_assoc; reflexivity.
        -- eexists [_; _; _; _]. cbv [bind Logger_log ret logged fetched].
           rewrite <- !app_assoc. reflexivity.
      * unfold ret at 1. rewrite !run_bind.
        rewrite external_without_thumb, embed_value_eq, record_with_embed.
        unfold Logger_log at 1. unfold ret at 1.
        rewrite run_bind. unfold Logger_log at 1.
        rewrite run_bind. unfold UrlFetchApp_fetch at 1.
        cbn [logged fetched].
        fold (record_call credentials token
                (post_record text_ now
                   (Some (embed_value
                            (external_data shareUrl ogpTitle ogpDescription
                               None))))).
        destruct (UrlFetchApp_respond P (fetched w2) _) as [response|e].
        -- destruct (getResponseCode response =? 200)%Z;
             eexists [_; _; _]; cbv [bind Logger_log ret logged fetched];
             rewrite <- !app_assoc; reflexivity.
        -- eexists [_; _; _]. cbv [bind Logger_log ret logged fetched].
           rewrite <- !app_assoc. reflexivity.
    + unfold ret at 1. rewrite !run_bind.
      rewrite external_without_thumb, embed_value_eq, record_with_embed.
      unfold Logger_log at 1. unfold ret at 1.
      rewrite run_bind. unfold Logger_log at 1.
      rewrite run_bind. unfold UrlFetchApp_fetch at 1.
      cbn [logged fetched].
      fold (record_call credentials token
              (post_record text_ now
                 (Some (embed_value
                          (external_data shareUrl ogpTitle ogpDescription
                             None))))).
      destruct (UrlFetchApp_respond P (fetched w1) _) as [response|e].
      * destruct (getResponseCode response =? 200)%Z;
          eexists [_; _; _]; cbv [bind Logger_log ret logged fetched];
          rewrite <- !app_assoc; reflexivity.
      * eexists [_; _; _]. cbv [bind Logger_log ret logged fetched].
        rewrite <- !app_assoc. reflexivity.
  - unfold ret at 1. rewrite !run_bind. unfold Logger_log at 1.
    rewrite run_bind. unfold UrlFetchApp_fetch at 1.
    cbn [logged fetched].
    fold (record_call credentials token (post_record text_ now None)).
    destruct (UrlFetchApp_respond P (fetched w1) _) as [response|e].
    + destruct (getResponseCode response =? 200)%Z;
        eexists [_; _]; cbv [bind Logger_log ret logged fetched];
        rewrite <- !app_assoc; reflexivity.
    + eexists [_; _]. cbv [bind Logger_log ret logged fetched].
      rewrite <- !app_assoc. reflexivity.
Qed.

Lemma post_record_facets text_ now embed :
  props_get (post_record text_ now embed) (js "facets")
  = match extractFacets text_ with
    | [] => None
    | f :: fs => Some (JSArray (map facet_value (f :: fs)))
    end.
Proof.
  unfold post_record.
  destruct (extractFacets text_) as [|f fs], embed as [e|];
    vm_compute; reflexivity.
Qed.

Lemma post_record_embed text_ now embed :
  props_get (post_record text_ now embed) (js "embed") = embed.
Proof.
  unfold post_record.
  destruct (extractFacets text_) as [|f fs], embed as [e|];
    vm_compute; reflexivity.
Qed.

Lemma createBlueskySession_fetched P credentials w token w1 :
  createBlueskySession P credentials w = (Ok token, w1) ->
  fetched w1 = fetched w ++ [session_call credentials].
Proof.
  destruct (createBlueskySession_run P credentials w) as [lines ->].
  intros [= _ <-]. reflexivity.
Qed.

(** C4. A text without URL and without hashtag has no facets, and the
    record that [postToBluesky] then submits has no [facets] member; when
    [extractFacets] returns a non-empty list, the [facets] member of the
    submitted record is that list.  The record is the one of
    [post_record], with some embed or none. *)
Theorem facets_member_of_the_record :
  (forall text_,
     ~ contains_url text_ -> ~ contains_hashtag text_ ->
     extractFacets text_ = [])
  /\ (forall (P : Platform) (text_ : jsstring)
        (credentials : BlueskyCredentials)
        (shareUrl ogpTitle ogpDescription ogpImageUrl : option jsstring)
        (w w1 : World) (token : JSValue),
        createBlueskySession P credentials w = (Ok token, w1) ->
        ToBoolean token = true ->
        exists embed b earlier lines,
          let record :=
            post_record text_ (Date_toISOString P (fetched w1)) embed in
          postToBluesky P text_ credentials shareUrl ogpTitle ogpDescription
            ogpImageUrl w
          = (Ok b, {| logged := lines;
                      fetched :=
                        earlier ++ [record_call credentials token record] |})
          /\ (extractFacets text_ = [] ->
              props_get record (js "facets") = None)
          /\ (extractFacets text_ <> [] ->
              props_get record (js "facets")
              = Some (JSArray (map facet_value (extractFacets text_))))).
Proof.
  split.
  - intros text_ NU NH. apply extractFacets_nil_iff. auto.
  - intros P text_ credentials shareUrl ogpTitle ogpDescription ogpImageUrl
      w w1 token S T.
    pose proof (postToBluesky_run P text_ credentials shareUrl ogpTitle
                  ogpDescription ogpImageUrl w token w1 S T) as R.
    destruct (thumb_of P shareUrl ogpImageUrl token w1) as [thumb w2].
    cbv zeta in R. destruct R as [lines R].
    eexists _, _, _, _. cbv zeta. split; [exact R|].
    rewrite post_record_facets.
    destruct (extractFacets text_) as [|f fs]; split; congruence.
Qed.

Lemma scenario_bluesky_session :
  createBlueskySession scenario_bluesky scenario_account empty_world
  = (Ok (JSString (js "jwt")), scenario_session).
Proof. vm_compute. reflexivity. Qed.

Lemma facets_member_of_the_record_witness :
  extractFacets (js "hello") = []
  /\ exists embed b earlier lines,
       postToBluesky scenario_bluesky (js "hello") scenario_account
         None None None None empty_world
       = (Ok b, {| logged := lines;
                   fetched :=
                     earlier
                     ++ [record_call scenario_account (JSString (js "jwt"))
                           (post_record (js "hello")
                              (Date_toISOString scenario_bluesky
                                 (fetched scenario_session)) embed)] |})
       /\ props_get
            (post_record (js "hello")
               (Date_toISOString scenario_bluesky (fetched scenario_session))
               embed)
            (js "facets") = None.
Proof.
  destruct facets_member_of_the_record as [A B].
  assert (E : extractFacets (js "hello") = []).
  { assert (N : ~ contains_url (js "hello") /\ ~ contains_hashtag (js "hello"))
      by (apply extractFacets_nil_iff; vm_compute; reflexivity).
    apply A; apply N. }
  split; [exact E|].
  destruct (B scenario_bluesky (js "hello") scenario_account
              None None None None empty_world scenario_session
              (JSString (js "jwt")) scenario_bluesky_session eq_refl)
    as (embed & b & earlier & lines & R & N & _).
  exists embed, b, earlier, lines. split; [exact R | exact (N E)].
Defined.

(** C6. [postToBluesky] is given a share URL and an OGP image URL, and
    [uploadBlobToBluesky] returns [null].  The record it submits still has
    an [embed] member, whose [external] object has the members [uri],
    [title] and [description] and no [thumb]; and when the record-creation
    call is answered with status 200, [postToBluesky] returns [true]. *)
Theorem failed_thumbnail_is_swallowed (P : Platform) (text_ : jsstring)
  (credentials : BlueskyCredentials) (shareUrl ogpImageUrl : jsstring)
  (ogpTitle ogpDescription : option jsstring)
  (w w1 w2 : World) (token : JSValue) (response : HTTPResponse) :
  createBlueskySession P credentials w = (Ok token, w1) ->
  ToBoolean token = true ->
  shareUrl <> [] -> ogpImageUrl <> [] ->
  uploadBlobToBluesky P ogpImageUrl token w1 = (Ok JSNull, w2) ->
  let external :=
    [(js "uri", JSString shareUrl);
     (js "title", JSString (opt_or ogpTitle (js "Random Shosha - 書写のお題")));
     (js "description",
      JSString
        (opt_or ogpDescription (js "古典文学の一文を書写のお題として")))] in
  let record :=
    post_record text_ (Date_toISOString P (fetched w1))
      (Some (embed_value external)) in
  UrlFetchApp_respond P (fetched w2) (record_call credentials token record)
  = Ok response ->
  getResponseCode response = 200%Z ->
  (exists lines,
     postToBluesky P text_ credentials (Some shareUrl) ogpTitle
       ogpDescription (Some ogpImageUrl) w
     = (Ok true,
        {| logged := logged w2 ++ lines;
           fetched := fetched w2 ++ [record_call credentials token record] |}))
  /\ props_get record (js "embed")
     = Some (JSObject
               [(js "$type", JSString (js "app.bsky.embed.external"));
                (js "external", JSObject external)])
  /\ props_get external (js "thumb") = None
  /\ props_get external (js "uri") = Some (JSString shareUrl).
Proof.
  intros S T SU IU U external record R C.
  pose proof (postToBluesky_run P text_ credentials (Some shareUrl) ogpTitle
                ogpDescription (Some ogpImageUrl) w token w1 S T) as Run.
  unfold thumb_of in Run.
  assert (TS : opt_truthy (Some shareUrl) = true)
    by (destruct shareUrl; [contradiction | reflexivity]).
  assert (TI : opt_truthy (Some ogpImageUrl) = true)
    by (destruct ogpImageUrl; [contradiction | reflexivity]).
  rewrite TS, TI in Run. cbn [andb opt_ToString] in Run.
  rewrite U in Run. cbn [ToBoolean] in Run. cbv zeta in Run.
  change (external_data (Some shareUrl) ogpTitle ogpDescription None)
    with external in Run.
  fold record in Run. rewrite R, C in Run. split; [exact Run|].
  split; [apply post_record_embed|].
  split; vm_compute; reflexivity.
Qed.

Lemma scenario_bluesky_upload :
  uploadBlobToBluesky scenario_bluesky
    (js "https://rmc-8.com/api/og-shosha?lang=ja") (JSString (js "jwt"))
    scenario_session
  = (Ok JSNull, scenario_after_upload).
Proof. vm_compute. reflexivity. Qed.

Lemma failed_thumbnail_is_swallowed_witness :
  (exists lines,
     postToBluesky scenario_bluesky (text meian_content) scenario_account
       (Some (url meian_content)) None None
       (Some (js "https://rmc-8.com/api/og-shosha?lang=ja")) empty_world
     = (Ok true,
        {| logged := logged scenario_after_upload ++ lines;
           fetched :=
             fetched scenario_after_upload
             ++ [record_call scenario_account (JSString (js "jwt"))
                   scenario_record] |}))
  /\ exists external,
       props_get scenario_record (js "embed")
       = Some (JSObject
                 [(js "$type", JSString (js "app.bsky.embed.external"));
                  (js "external", JSObject external)])
       /\ props_get external (js "thumb") = None
       /\ props_get external (js "uri") = Some (JSString (url meian_content)).
Proof.
  assert (H3 : url meian_content <> []) by (vm_compute; discriminate).
  assert (H4 : js "https://rmc-8.com/api/og-shosha?lang=ja" <> [])
    by (vm_compute; discriminate).
  pose proof (failed_thumbnail_is_swallowed scenario_bluesky
                (text meian_content) scenario_account (url meian_content)
                (js "https://rmc-8.com/api/og-shosha?lang=ja") None None
                empty_world scenario_session scenario_after_upload
                (JSString (js "jwt"))
                {| getResponseCode := 200; getContentText := js "{}";
                   getBlob := {| getContentType := None;
                                 getBytes := bytes_of_string "{}" |} |}
                scenario_bluesky_session eq_refl H3 H4
                scenario_bluesky_upload) as X.
  cbv zeta in X.
  assert (R : UrlFetchApp_respond scenario_bluesky
                (fetched scenario_after_upload)
                (record_call scenario_account (JSString (js "jwt"))
                   scenario_record)
              = Ok {| getResponseCode := 200; getContentText := js "{}";
                      getBlob := {| getContentType := None;
                                    getBytes := bytes_of_string "{}" |} |})
    by (vm_compute; reflexivity).
  specialize (X R). specialize (X eq_refl).
  destruct X as (Run & E & Th & Uri).
  split; [exact Run|]. eexists. split; [exact E|]. split; assumption.
Defined.

(** C10. With the empty string as share URL, [postToBluesky] does what it
    does without a share URL: the record it submits has no [embed]
    member, and the session-creation call and the record-creation call
    are the only calls it makes, an OGP image URL being supplied or not. *)
Theorem empty_share_url_attaches_no_embed (P : Platform) (text_ : jsstring)
  (credentials : BlueskyCredentials)
  (ogpTitle ogpDescription ogpImageUrl : option jsstring)
  (w w1 : World) (token : JSValue) :
  createBlueskySession P credentials w = (Ok token, w1) ->
  ToBoolean token = true ->
  let record :=
    post_record text_ (Date_toISOString P (fetched w1)) None in
  postToBluesky P text_ credentials (Some []) ogpTitle ogpDescription
    ogpImageUrl w
  = postToBluesky P text_ credentials None ogpTitle ogpDescription
      ogpImageUrl w
  /\ (exists b lines,
        postToBluesky P text_ credentials (Some []) ogpTitle ogpDescription
          ogpImageUrl w
        = (Ok b,
           {| logged := lines;
              fetched :=
                fetched w
                ++ [session_call credentials;
                    record_call credentials token record] |}))
  /\ props_get record (js "embed") = None.
Proof.
  intros S T record. split; [reflexivity|]. split.
  - pose proof (postToBluesky_run P text_ credentials (Some []) ogpTitle
                  ogpDescription ogpImageUrl w token w1 S T) as Run.
    unfold thumb_of in Run. cbn [opt_truthy andb] in Run. cbv zeta in Run.
    destruct Run as [lines Run]. fold record in Run.
    rewrite (createBlueskySession_fetched _ _ _ _ _ S) in Run.
    rewrite <- app_assoc in Run. eexists _, _. exact Run.
  - apply post_record_embed.
Qed.

Lemma empty_share_url_attaches_no_embed_witness :
  let record :=
    post_record (js "hello")
      (Date_toISOString scenario_bluesky (fetched scenario_session)) None in
  postToBluesky scenario_bluesky (js "hello") scenario_account (Some [])
    None None (Some (js "https://rmc-8.com/api/og-shosha?lang=ja"))
    empty_world
  = postToBluesky scenario_bluesky (js "hello") scenario_account None
      None None (Some (js "https://rmc-8.com/api/og-shosha?lang=ja"))
      empty_world
  /\ (exists b lines,
        postToBluesky scenario_bluesky (js "hello") scenario_account
          (Some []) None None
          (Some (js "https://rmc-8.com/api/og-shosha?lang=ja")) empty_world
        = (Ok b,
           {| logged := lines;
              fetched :=
                fetched empty_world
                ++ [session_call scenario_account;
                    record_call scenario_account (JSString (js "jwt"))
                      record] |}))
  /\ props_get record (js "embed") = None.
Proof.
  exact (empty_share_url_attaches_no_embed scenario_bluesky (js "hello")
           scenario_account None None
           (Some (js "https://rmc-8.com/api/og-shosha?lang=ja"))
           empty_world scenario_session (JSString (js "jwt"))
           scenario_bluesky_session eq_refl).
Defined.

(* ====================================================================== *)
(** * The OAuth signature against its description                          *)
(* ====================================================================== *)

(** C2, as stated, fails: [encodeURIComponent] leaves [!] alone where
    RFC 3986 encoding writes [%21], and the entries are sorted by raw key,
    which for the keys [a~] and [a] followed by U+007F is not the order of
    the encoded keys. *)
Lemma sortedParams_not_rfc3986 :
  sortedParams [(js "a~", js "1"); ([0x61; 0x7F]%N, js "2!")]
  = Ok (js "a~=1&a%7F=2!")
  /\ OAuthSpec.parameter_string OAuthSpec.rfc3986
       [(js "a~", js "1"); ([0x61; 0x7F]%N, js "2!")]
     = Ok (js "a%7F=2%21&a~=1")
  /\ signingKey (js "secret!") (js "token")
     = Ok (js "secret!&token")
  /\ OAuthSpec.signing_key OAuthSpec.rfc3986 (js "secret!") (js "token")
     = Ok (js "secret%21&token").
Proof. repeat split; vm_compute; reflexivity. Qed.

Lemma jsstring_eqb_eq a : forall b, jsstring_eqb a b = true <-> a = b.
Proof.
  induction a as [|x a IH]; intros [|y b]; simpl; split;
    try discriminate; try reflexivity.
  - intros [E H]%andb_true_iff. apply N.eqb_eq in E. apply IH in H.
    congruence.
  - intros [= -> ->]. rewrite N.eqb_refl. apply IH. reflexivity.
Qed.

Lemma param_at_In (params : list (jsstring * jsstring)) k v :
  NoDup (Object_keys params) -> In (k, v) params -> param_at params k = v.
Proof.
  unfold param_at, Object_keys.
  induction params as [|[k' v'] params IH]; intros N H; [destruct H|].
  simpl in *. inversion N as [|? ? Hk N']; subst.
  destruct (jsstring_eqb k' k) eqn:E.
  - apply jsstring_eqb_eq in E. subst k'.
    destruct H as [[= ->] | H]; [reflexivity|].
    exfalso. apply Hk. apply (in_map fst) in H. exact H.
  - destruct H as [[= -> ->] | H].
    + assert (jsstring_eqb k k = true) by (apply jsstring_eqb_eq; reflexivity).
      congruence.
    + auto.
Qed.

Lemma insert_entry_map (g : jsstring -> jsstring) k ks :
  OAuthSpec.insert_entry (k, g k) (map (fun x => (x, g x)) ks)
  = map (fun x => (x, g x)) (sort_insert k ks).
Proof.
  induction ks as [|y ks IH]; [reflexivity|].
  simpl. destruct (jsstring_leb k y); [reflexivity|].
  simpl. rewrite IH. reflexivity.
Qed.

(** Sorting the entries of an object by key is sorting its keys and
    reading the value of each. *)
Lemma sort_entries_by_keys (params : list (jsstring * jsstring)) :
  NoDup (Object_keys params) ->
  OAuthSpec.sort_entries params
  = map (fun k => (k, param_at params k)) (Array_sort (Object_keys params)).
Proof.
  intros N.
  assert (G : forall l,
             (forall k v, In (k, v) l -> param_at params k = v) ->
             OAuthSpec.sort_entries l
             = map (fun k => (k, param_at params k))
                 (Array_sort (Object_keys l))).
  { induction l as [|[k v] l IH]; intros H; [reflexivity|].
    simpl. rewrite IH by (intros; apply H; right; assumption).
    rewrite <- (H k v) by (left; reflexivity).
    apply insert_entry_map. }
  apply G. intros k v H. apply param_at_In; assumption.
Qed.

Lemma Result_mapM_map {A B C} (f : B -> Result C) (h : A -> B) l :
  Result_mapM f (map h l) = Result_mapM (fun a => f (h a)) l.
Proof.
  induction l as [|a l IH]; [reflexivity|]. simpl. rewrite IH. reflexivity.
Qed.

Lemma Result_mapM_post {A B C} (f : A -> Result B) (g : B -> C) l :
  Result_mapM (fun a => let? b := f a in Ok (g b)) l
  = let? bs := Result_mapM f l in Ok (map g bs).
Proof.
  induction l as [|a l IH]; [reflexivity|]. simpl. rewrite IH.
  destruct (f a); [|reflexivity]. simpl.
  destruct (Result_mapM f l); reflexivity.
Qed.

Lemma Result_mapM_ext {A B} (f g : A -> Result B) l :
  (forall a, In a l -> f a = g a) -> Result_mapM f l = Result_mapM g l.
Proof.
  induction l as [|a l IH]; intros H; [reflexivity|].
  simpl. rewrite (H a) by (left; reflexivity).
  rewrite IH by (intros; apply H; right; assumption). reflexivity.
Qed.

(** The parameter string of the program is the one of the description
    with the entries sorted by raw key. *)
Lemma sortedParams_by_raw_key params :
  NoDup (Object_keys params) ->
  sortedParams params
  = OAuthSpec.parameter_string_by_raw_key encodeURIComponent params.
Proof.
  intros N. unfold sortedParams, OAuthSpec.parameter_string_by_raw_key.
  rewrite (sort_entries_by_keys params N), Result_mapM_map.
  rewrite (Result_mapM_ext _
             (fun k =>
                let? e := OAuthSpec.encode_entry encodeURIComponent
                            (k, param_at params k) in
                Ok (OAuthSpec.pair_text e))).
  - rewrite Result_mapM_post.
    destruct (Result_mapM _ (Array_sort (Object_keys params))); reflexivity.
  - intros k _. unfold OAuthSpec.encode_entry. cbn [fst snd].
    destruct (encodeURIComponent k); [|reflexivity]. simpl.
    destruct (encodeURIComponent (param_at params k)); reflexivity.
Qed.

(** ** Where the two encodings agree *)

Lemma uriUnescaped_plain c :
  plain_unit c = true -> uriUnescaped c = OAuthSpec.unreserved c.
Proof.
  unfold plain_unit, uriUnescaped, OAuthSpec.unreserved. cbn [existsb].
  rewrite negb_true_iff, !orb_false_iff, !N.eqb_neq.
  intros (A & B & C & D & E & _).
  destruct (is_ascii_alnum c); [reflexivity|]. cbn [orb].
  destruct (N.eqb_spec c 0x2D), (N.eqb_spec c 0x5F), (N.eqb_spec c 0x2E),
    (N.eqb_spec c 0x7E); subst; try reflexivity; try discriminate.
  all: cbn [orb].
  all: destruct (N.eqb_spec c 0x21), (N.eqb_spec c 0x2A),
         (N.eqb_spec c 0x27), (N.eqb_spec c 0x28), (N.eqb_spec c 0x29);
       try reflexivity; contradiction.
Qed.

Lemma unreserved_plain c :
  OAuthSpec.unreserved c = true -> plain_unit c = true.
Proof.
  unfold plain_unit, OAuthSpec.unreserved, is_ascii_alnum. cbn [existsb].
  rewrite negb_true_iff, !orb_true_iff, !orb_false_iff, !andb_true_iff,
    !N.leb_le, !N.eqb_eq, !N.eqb_neq.
  lia.
Qed.

Lemma unreserved_only_plain s : unreserved_only s -> plain s.
Proof.
  unfold unreserved_only, plain. rewrite !forallb_forall.
  intros H c Hc. apply unreserved_plain. auto.
Qed.

Lemma plain_app a b : plain a -> plain b -> plain (a ++ b).
Proof.
  unfold plain. rewrite forallb_app. intros -> ->. reflexivity.
Qed.

Lemma plain_cons_inv c s : plain (c :: s) -> plain_unit c = true /\ plain s.
Proof. unfold plain. simpl. apply andb_true_iff. Qed.

Lemma CodePointAt_plain s cp rest :
  CodePointAt s = Some (cp, rest) -> plain s -> plain rest.
Proof.
  intros [[-> _] | (c & d & -> & _)]%CodePointAt_spec P.
  - apply plain_cons_inv in P. tauto.
  - apply plain_cons_inv in P as [_ P]. apply plain_cons_inv in P. tauto.
Qed.

(** On a plain string [encodeURIComponent] is RFC 3986 encoding. *)
Lemma encodeURIComponent_plain s :
  plain s -> encodeURIComponent s = OAuthSpec.rfc3986 s.
Proof.
  unfold encodeURIComponent, OAuthSpec.rfc3986.
  induction s as [s IH] using (induction_ltof1 _ (@length code_unit)).
  unfold ltof in IH. destruct s as [|c s]; [reflexivity|].
  intros P. rewrite !Encode_cons.
  pose proof (plain_cons_inv _ _ P) as [Pc Ps].
  rewrite (uriUnescaped_plain c Pc).
  destruct (OAuthSpec.unreserved c).
  - rewrite IH by (simpl; auto). reflexivity.
  - destruct (CodePointAt (c :: s)) as [[cp rest]|] eqn:C; [|reflexivity].
    rewrite IH; [reflexivity | |].
    + apply CodePointAt_range in C. tauto.
    + eapply CodePointAt_plain; eassumption.
Qed.

(** A string of kept characters is its own encoding. *)
Lemma Encode_kept keep s : forallb keep s = true -> Encode keep s = Ok s.
Proof.
  induction s as [|c s IH]; [reflexivity|].
  simpl. intros [K H]%andb_true_iff. rewrite K, IH by assumption.
  reflexivity.
Qed.

(** The encoding of a plain string is plain. *)
Lemma Encode_plain_result keep s r :
  Encode keep s = Ok r -> plain s -> plain r.
Proof.
  revert s r. apply (Encode_ind keep (fun s r => plain s -> plain r)).
  - auto.
  - intros c rest r _ _ IH [Pc Ps]%plain_cons_inv.
    unfold plain. simpl. rewrite Pc. apply IH. assumption.
  - intros c s cp rest r _ C _ IH P.
    apply plain_app; [|apply IH; eapply CodePointAt_plain; eassumption].
    apply CodePointAt_range in C as [C _].
    destruct (utf8_lead cp C) as (b & bs & -> & _ & F).
    pose proof (percent_octets_units (fun _ => false) _ F) as U.
    unfold plain. apply forallb_forall. intros x Hx.
    rewrite Forall_forall in U. apply U in Hx.
    unfold encoded_unit in Hx. unfold plain_unit. cbn [existsb].
    rewrite negb_true_iff, !orb_false_iff, !N.eqb_neq.
    destruct Hx as [? | [-> | ?]]; [discriminate | repeat split; discriminate
                                    | repeat split; lia].
Qed.

Lemma Encode_Throw keep : forall s e, Encode keep s = Throw e -> e = URIError.
Proof.
  intros s.
  induction s as [s IH] using (induction_ltof1 _ (@length code_unit)).
  unfold ltof in IH. destruct s as [|c s]; [discriminate|].
  intros e. rewrite Encode_cons. destruct (keep c).
  - destruct (Encode keep s) eqn:E; [discriminate|].
    intros [= <-]. apply (IH s); simpl; auto.
  - destruct (CodePointAt (c :: s)) as [[cp rest]|] eqn:C;
      [|intros [= <-]; reflexivity].
    destruct (Encode keep rest) eqn:E; [discriminate|].
    intros [= <-]. apply (IH rest); [|assumption].
    apply CodePointAt_range in C. tauto.
Qed.

(** ** Sorting before or after encoding *)

Lemma insert_entry_In e kv l :
  In e (OAuthSpec.insert_entry kv l) -> e = kv \/ In e l.
Proof.
  induction l as [|e' l IH]; simpl.
  - intros [<- | []]. auto.
  - destruct (jsstring_leb (fst kv) (fst e')); simpl.
    + intros [<- | [<- | H]]; auto.
    + intros [<- | H]; [auto|]. apply IH in H. tauto.
Qed.

Lemma sort_entries_In e l : In e (OAuthSpec.sort_entries l) -> In e l.
Proof.
  induction l as [|kv l IH]; [auto|]. simpl.
  intros [-> | H]%insert_entry_In; auto.
Qed.

Lemma sort_entries_Forall (Q : jsstring * jsstring -> Prop) l :
  Forall Q l -> Forall Q (OAuthSpec.sort_entries l).
Proof.
  rewrite !Forall_forall. intros H e He. apply H, sort_entries_In, He.
Qed.

Section SortAndEncode.

Variable F : jsstring * jsstring -> Result (jsstring * jsstring).

Lemma Result_mapM_keys l : forall rs,
  Forall (keeps_key F) l -> Result_mapM F l = Ok rs -> map fst rs = map fst l.
Proof.
  induction l as [|kv l IH]; intros rs H; simpl.
  - intros [= <-]. reflexivity.
  - inversion H as [|? ? [K _] H']; subst.
    destruct (F kv) as [r|] eqn:E; [|discriminate]. simpl.
    destruct (Result_mapM F l) as [rs'|] eqn:E'; [|discriminate].
    intros [= <-]. simpl. rewrite (K r eq_refl), (IH rs') by auto.
    reflexivity.
Qed.

Lemma Result_mapM_Throw l e :
  Forall (keeps_key F) l -> Result_mapM F l = Throw e -> e = URIError.
Proof.
  induction l as [|kv l IH]; intros H; simpl; [discriminate|].
  inversion H as [|? ? [_ T] H']; subst.
  destruct (F kv) as [r|e'] eqn:E; simpl.
  - destruct (Result_mapM F l) as [rs'|] eqn:E'; [discriminate|].
    intros [= <-]. auto.
  - intros [= <-]. auto.
Qed.

Lemma Result_mapM_insert kv l :
  Forall (keeps_key F) (kv :: l) ->
  Result_mapM F (OAuthSpec.insert_entry kv l)
  = let? r := F kv in
    let? rs := Result_mapM F l in
    Ok (OAuthSpec.insert_entry r rs).
Proof.
  induction l as [|e' l IH]; intros H.
  - simpl. destruct (F kv); reflexivity.
  - inversion H as [|? ? [K T] H']; subst.
    inversion H' as [|? ? [K' T'] H'']; subst.
    simpl. destruct (jsstring_leb (fst kv) (fst e')) eqn:L.
    + simpl. destruct (F kv) as [r|] eqn:E; [|reflexivity]. simpl.
      destruct (F e') as [r'|] eqn:E'; [|reflexivity]. simpl.
      destruct (Result_mapM F l) as [rs|]; [|reflexivity]. simpl.
      rewrite (K r eq_refl), (K' r' eq_refl), L. reflexivity.
    + simpl. rewrite IH by (constructor; [split|]; assumption).
      destruct (F e') as [r'|x'] eqn:E'; simpl.
      * destruct (F kv) as [r|] eqn:E; [|reflexivity]. simpl.
        destruct (Result_mapM F l) as [rs|]; [|reflexivity]. simpl.
        rewrite (K r eq_refl), (K' r' eq_refl), L. reflexivity.
      * destruct (F kv) as [r|x] eqn:E; [reflexivity|]. simpl.
        rewrite (T x eq_refl), (T' x' eq_refl). reflexivity.
Qed.

(** Encoding the sorted entries is sorting the encoded entries. *)
Lemma Result_mapM_sort l :
  Forall (keeps_key F) l ->
  Result_mapM F (OAuthSpec.sort_entries l)
  = let? rs := Result_mapM F l in Ok (OAuthSpec.sort_entries rs).
Proof.
  induction l as [|kv l IH]; intros H; [reflexivity|].
  inversion H as [|? ? K H']; subst. simpl.
  rewrite Result_mapM_insert
    by (constructor; [assumption | apply sort_entries_Forall; assumption]).
  rewrite IH by assumption.
  destruct (F kv); [|reflexivity]. simpl.
  destruct (Result_mapM F l); reflexivity.
Qed.

End SortAndEncode.

Lemma Result_mapM_Forall {A B} (f : A -> Result B) (Q : B -> Prop) l :
  forall rs,
    Forall (fun a => forall b, f a = Ok b -> Q b) l ->
    Result_mapM f l = Ok rs -> Forall Q rs.
Proof.
  induction l as [|a l IH]; intros rs H; simpl.
  - intros [= <-]. constructor.
  - inversion H as [|? ? Ha H']; subst.
    destruct (f a) as [b|] eqn:E; [|discriminate]. simpl.
    destruct (Result_mapM f l) as [bs|] eqn:E'; [|discriminate].
    intros [= <-]. constructor; auto.
Qed.

Lemma join_plain sep parts :
  plain sep -> Forall plain parts -> plain (join sep parts).
Proof.
  intros S. induction 1 as [|p parts Hp H IH]; [reflexivity|].
  destruct parts as [|q parts]; [assumption|].
  change (join sep (p :: q :: parts))
    with (p ++ sep ++ join sep (q :: parts)).
  auto using plain_app.
Qed.

Lemma encode_entry_plain kv :
  plain_entry kv ->
  OAuthSpec.encode_entry encodeURIComponent kv
  = OAuthSpec.encode_entry OAuthSpec.rfc3986 kv.
Proof.
  intros [K V]. unfold OAuthSpec.encode_entry.
  rewrite (encodeURIComponent_plain (fst kv)) by (apply unreserved_only_plain, K).
  rewrite (encodeURIComponent_plain (snd kv)) by assumption. reflexivity.
Qed.

Lemma encode_entry_keeps_key kv :
  plain_entry kv -> keeps_key (OAuthSpec.encode_entry OAuthSpec.rfc3986) kv.
Proof.
  intros [K V]. unfold keeps_key, OAuthSpec.encode_entry, OAuthSpec.rfc3986.
  rewrite (Encode_kept _ _ K). simpl. split.
  - intros r. destruct (Encode OAuthSpec.unreserved (snd kv)); [|discriminate].
    intros [= <-]. reflexivity.
  - intros e. destruct (Encode OAuthSpec.unreserved (snd kv)) eqn:E;
      [discriminate|].
    intros [= <-]. eapply Encode_Throw. eassumption.
Qed.

Lemma parameter_string_agree params :
  Forall plain_entry params ->
  OAuthSpec.parameter_string_by_raw_key encodeURIComponent params
  = OAuthSpec.parameter_string OAuthSpec.rfc3986 params.
Proof.
  intros H.
  unfold OAuthSpec.parameter_string_by_raw_key, OAuthSpec.parameter_string.
  rewrite (Result_mapM_ext _ (OAuthSpec.encode_entry OAuthSpec.rfc3986)).
  - rewrite Result_mapM_sort.
    + destruct (Result_mapM _ params); reflexivity.
    + eapply Forall_impl; [|exact H]. apply encode_entry_keeps_key.
  - intros kv Hkv%sort_entries_In. apply encode_entry_plain.
    rewrite Forall_forall in H. auto.
Qed.

Lemma parameter_string_plain params text_ :
  Forall plain_entry params ->
  OAuthSpec.parameter_string_by_raw_key encodeURIComponent params = Ok text_ ->
  plain text_.
Proof.
  intros H. unfold OAuthSpec.parameter_string_by_raw_key.
  destruct (Result_mapM _ (OAuthSpec.sort_entries params)) as [es|] eqn:E;
    [|discriminate].
  intros [= <-]. apply join_plain; [reflexivity|].
  apply Forall_map.
  eapply Forall_impl;
    [|eapply (Result_mapM_Forall _ (fun e => plain (fst e) /\ plain (snd e)));
      [|exact E]].
  - intros e [Pk Pv]. unfold OAuthSpec.pair_text.
    apply plain_app; [assumption|]. apply plain_app; [reflexivity|assumption].
  - apply sort_entries_Forall.
    eapply Forall_impl; [|exact H].
    intros kv [K V] b. unfold OAuthSpec.encode_entry, encodeURIComponent.
    destruct (Encode uriUnescaped (fst kv)) as [k|] eqn:Ek; [|discriminate].
    destruct (Encode uriUnescaped (snd kv)) as [v|] eqn:Ev; [|discriminate].
    intros [= <-]. simpl. split.
    + eapply Encode_plain_result; [exact Ek|]. apply unreserved_only_plain, K.
    + eapply Encode_plain_result; eassumption.
Qed.

(** C2 (amended). For the parameters of an object (one entry per key),
    [generateOAuthSignature] signs, with HMAC-SHA1 and in Base64, the
    base string made of the upper-case method, the encoded URL and the
    encoded parameter string, joined with [&], under the key made of the
    two encoded secrets joined with [&]; the parameter string joins with
    [&] the [key=value] pairs of the entries, sorted by raw key and then
    encoded; and the encoding is that of [encodeURIComponent].  When the
    keys are made of unreserved characters and the values, the URL and
    the secrets contain none of [! ' ( ) *], this is the construction
    with RFC 3986 encoding and the entries sorted by encoded key. *)
Theorem generateOAuthSignature_construction (P : Platform)
  (method_ url_ : jsstring) (params : list (jsstring * jsstring))
  (consumerSecret tokenSecret : jsstring) :
  NoDup (Object_keys params) ->
  generateOAuthSignature P method_ url_ params consumerSecret tokenSecret
  = (let? base :=
       OAuthSpec.signature_base_string
         (OAuthSpec.parameter_string_by_raw_key encodeURIComponent)
         encodeURIComponent method_ url_ params in
     let? key :=
       OAuthSpec.signing_key encodeURIComponent consumerSecret tokenSecret in
     Ok (Utilities_base64Encode P
           (Utilities_computeHmacSignature_SHA1 P base key)))
  /\ (Forall plain_entry params -> plain url_ ->
      plain consumerSecret -> plain tokenSecret ->
      generateOAuthSignature P method_ url_ params consumerSecret tokenSecret
      = (let? base :=
           OAuthSpec.signature_base_string
             (OAuthSpec.parameter_string OAuthSpec.rfc3986)
             OAuthSpec.rfc3986 method_ url_ params in
         let? key :=
           OAuthSpec.signing_key OAuthSpec.rfc3986 consumerSecret
             tokenSecret in
         Ok (Utilities_base64Encode P
               (Utilities_computeHmacSignature_SHA1 P base key)))).
Proof.
  intros N.
  assert (Raw : generateOAuthSignature P method_ url_ params consumerSecret
                  tokenSecret
                = (let? base :=
                     OAuthSpec.signature_base_string
                       (OAuthSpec.parameter_string_by_raw_key
                          encodeURIComponent)
                       encodeURIComponent method_ url_ params in
                   let? key :=
                     OAuthSpec.signing_key encodeURIComponent consumerSecret
                       tokenSecret in
                   Ok (Utilities_base64Encode P
                         (Utilities_computeHmacSignature_SHA1 P base key)))).
  { unfold generateOAuthSignature, signatureBaseString, signingKey,
      OAuthSpec.signature_base_string, OAuthSpec.signing_key.
    rewrite (sortedParams_by_raw_key params N). reflexivity. }
  split; [exact Raw|].
  intros Ps Pu Pc Pt. rewrite Raw.
  unfold OAuthSpec.signature_base_string, OAuthSpec.signing_key.
  rewrite <- (parameter_string_agree params Ps).
  rewrite <- (encodeURIComponent_plain url_ Pu),
    <- (encodeURIComponent_plain consumerSecret Pc),
    <- (encodeURIComponent_plain tokenSecret Pt).
  destruct (OAuthSpec.parameter_string_by_raw_key encodeURIComponent params)
    as [sorted|] eqn:E; [|reflexivity].
  cbn [Result_bind].
  rewrite <- (encodeURIComponent_plain sorted
                (parameter_string_plain params sorted Ps E)).
  reflexivity.
Qed.

Lemma distinct_NoDup l : distinct l = true -> NoDup l.
Proof.
  induction l as [|x l IH]; simpl; [constructor|].
  intros [N D]%andb_true_iff. constructor; [|auto].
  intros H. apply negb_true_iff in N.
  assert (E : existsb (jsstring_eqb x) l = true).
  { apply existsb_exists. exists x. split; [assumption|].
    apply jsstring_eqb_eq. reflexivity. }
  congruence.
Qed.

Lemma generateOAuthSignature_construction_witness :
  generateOAuthSignature scenario_403 (js "POST")
    (js "https://api.twitter.com/2/tweets") scenario_oauth_params
    (js "secret") (js "tsecret")
  = (let? base :=
       OAuthSpec.signature_base_string
         (OAuthSpec.parameter_string_by_raw_key encodeURIComponent)
         encodeURIComponent (js "POST")
         (js "https://api.twitter.com/2/tweets") scenario_oauth_params in
     let? key :=
       OAuthSpec.signing_key encodeURIComponent (js "secret") (js "tsecret") in
     Ok (Utilities_base64Encode scenario_403
           (Utilities_computeHmacSignature_SHA1 scenario_403 base key)))
  /\ generateOAuthSignature scenario_403 (js "POST")
       (js "https://api.twitter.com/2/tweets") scenario_oauth_params
       (js "secret") (js "tsecret")
     = (let? base :=
          OAuthSpec.signature_base_string
            (OAuthSpec.parameter_string OAuthSpec.rfc3986)
            OAuthSpec.rfc3986 (js "POST")
            (js "https://api.twitter.com/2/tweets") scenario_oauth_params in
        let? key :=
          OAuthSpec.signing_key OAuthSpec.rfc3986 (js "secret")
            (js "tsecret") in
        Ok (Utilities_base64Encode scenario_403
              (Utilities_computeHmacSignature_SHA1 scenario_403 base key))).
Proof.
  assert (N : NoDup (Object_keys scenario_oauth_params))
    by (apply distinct_NoDup; vm_compute; reflexivity).
  destruct (generateOAuthSignature_construction scenario_403 (js "POST")
              (js "https://api.twitter.com/2/tweets") scenario_oauth_params
              (js "secret") (js "tsecret") N) as [Raw Rfc].
  split; [exact Raw|]. apply Rfc.
  - unfold scenario_oauth_params.
    repeat (apply Forall_cons; [split; vm_compute; reflexivity|]).
    apply Forall_nil.
  - vm_compute. reflexivity.
  - vm_compute. reflexivity.
  - vm_compute. reflexivity.
Defined.

(** The signature of that request on the reference platform. *)
Example generateOAuthSignature_scenario :
  generateOAuthSignature scenario_403 (js "POST")
    (js "https://api.twitter.com/2/tweets") scenario_oauth_params
    (js "secret") (js "tsecret")
  = Ok (js "ttSu+QHizj1CYGPDPRFIZazGABs=").
Proof. vm_compute. reflexivity. Qed.

(* ====================================================================== *)
(** * Byte ranges, order and completeness of the facets                    *)
(* ====================================================================== *)

Lemma is_high_not_low c : is_high_surrogate c = true -> is_low_surrogate c = false.
Proof.
  unfold is_high_surrogate, is_low_surrogate.
  destruct (N.leb_spec 0xD800 c), (N.leb_spec c 0xDBFF), (N.leb_spec 0xDC00 c);
    cbn [andb]; try discriminate; try reflexivity; lia.
Qed.

Lemma newBlob_getBytes_cons c rest :
  newBlob_getBytes (c :: rest) =
  if is_high_surrogate c then
    match rest with
    | d :: rest' =>
      if is_low_surrogate d
      then utf8_encode_code_point (code_point_of_pair c d)
             ++ newBlob_getBytes rest'
      else utf8_encode_code_point 0xFFFD%N ++ newBlob_getBytes rest
    | [] => utf8_encode_code_point 0xFFFD%N
    end
  else if is_low_surrogate c
  then utf8_encode_code_point 0xFFFD%N ++ newBlob_getBytes rest
  else utf8_encode_code_point c ++ newBlob_getBytes rest.
Proof. reflexivity. Qed.

Lemma newBlob_getBytes_app a : forall b,
  pair_free_cut a b = true ->
  newBlob_getBytes (a ++ b) = newBlob_getBytes a ++ newBlob_getBytes b.
Proof.
  induction a as [a IH] using (induction_ltof1 _ (@length code_unit)).
  unfold ltof in IH. intros b H.
  destruct a as [|c [|d a'']].
  - reflexivity.
  - unfold pair_free_cut in H. cbn [last app] in *.
    rewrite !(newBlob_getBytes_cons c). change (newBlob_getBytes []) with (@nil N).
    destruct (is_high_surrogate c) eqn:Hc.
    + destruct b as [|d b']; [reflexivity|].
      cbn [hd andb negb] in H. apply negb_true_iff in H. rewrite H.
      reflexivity.
    + destruct (is_low_surrogate c); rewrite app_nil_r; reflexivity.
  - change ((c :: d :: a'') ++ b) with (c :: d :: (a'' ++ b)).
    rewrite !(newBlob_getBytes_cons c).
    assert (Hd : pair_free_cut (d :: a'') b = true).
    { unfold pair_free_cut in *. exact H. }
    assert (Ha : pair_free_cut a'' b = true).
    { unfold pair_free_cut in *. destruct a'' as [|e a3]; [reflexivity|].
      exact H. }
    pose proof (IH (d :: a'') ltac:(simpl; lia) b Hd) as I1.
    pose proof (IH a'' ltac:(simpl; lia) b Ha) as I2.
    change ((d :: a'') ++ b) with (d :: (a'' ++ b)) in I1.
    destruct (is_high_surrogate c).
    + destruct (is_low_surrogate d).
      * rewrite I2, app_assoc. reflexivity.
      * rewrite I1, app_assoc. reflexivity.
    + destruct (is_low_surrogate c); rewrite I1, app_assoc; reflexivity.
Qed.

Lemma while_exec_matches re text body : forall fuel lastIndex facets,
  while_exec fuel re text lastIndex body facets
  = facets ++ map body (matches_from fuel re text lastIndex).
Proof.
  induction fuel as [|fuel IH]; intros li facets; cbn [while_exec matches_from].
  - rewrite app_nil_r. reflexivity.
  - destruct (exec re text li) as [[m|] li'].
    + rewrite IH. cbn [map]. rewrite <- app_assoc. reflexivity.
    + rewrite app_nil_r. reflexivity.
Qed.

Lemma matches_from_valid re text (Hre : proper re) : forall fuel lastIndex m,
  In m (matches_from fuel re text lastIndex) ->
  valid_match re text m /\ lastIndex <= match_index m.
Proof.
  induction fuel as [|fuel IH]; intros li m; cbn [matches_from]; [intros []|].
  destruct (exec re text li) as [[m0|] li'] eqn:E; [|intros []].
  apply (exec_Some _ _ _ _ _ Hre) in E as (after & T & L & M & -> & P & B).
  intros [<- | H].
  - split; [|assumption]. exists after. auto.
  - apply IH in H as [V L']. split; [assumption | lia].
Qed.

Lemma matches_from_sorted re text (Hre : proper re) : forall fuel lastIndex,
  StronglySorted match_before (matches_from fuel re text lastIndex).
Proof.
  induction fuel as [|fuel IH]; intros li; cbn [matches_from]; [constructor|].
  destruct (exec re text li) as [[m0|] li'] eqn:E; [|constructor].
  apply (exec_Some _ _ _ _ _ Hre) in E as (after & T & L & M & -> & P & B).
  constructor; [apply IH|].
  apply Forall_forall. intros m H.
  apply (matches_from_valid _ _ Hre) in H as [_ H]. exact H.
Qed.

Lemma search_leftmost re : forall s i j n,
  search re s i = Some (j, n) ->
  forall k, i + k < j -> match_at re (skipn k s) = None.
Proof.
  induction s as [|c s IH]; intros i j n; cbn [search].
  - destruct (match_at re []) eqn:M; [|discriminate].
    intros [= <- <-] k H. lia.
  - destruct (match_at re (c :: s)) eqn:M.
    + intros [= <- <-] k H. lia.
    + intros H [|k] L; [exact M|].
      cbn [skipn]. apply (IH _ _ _ H). lia.
Qed.

Lemma proper_nil re : proper re -> match_at re [] = None.
Proof.
  intros Hre. destruct (match_at re []) as [n|] eqn:M; [|reflexivity].
  apply Hre in M. simpl in M. lia.
Qed.

Lemma skipn_skipn {A} (l : list A) : forall a b, skipn a (skipn b l) = skipn (b + a) l.
Proof.
  induction l as [|x l IH]; intros a [|b]; cbn [skipn Nat.add];
    try reflexivity.
  - destruct a; reflexivity.
  - apply IH.
Qed.

Lemma matches_from_cover re text (Hre : proper re) :
  forall fuel lastIndex k n,
    length text < lastIndex + fuel ->
    lastIndex <= k ->
    match_at re (skipn k text) = Some n ->
    exists m, In m (matches_from fuel re text lastIndex)
              /\ match_index m <= k < match_index m + length (match_0 m).
Proof.
  induction fuel as [|fuel IH]; intros li k n F L M.
  - assert (length text <= k) by lia.
    rewrite skipn_all2 in M by assumption.
    rewrite (proper_nil _ Hre) in M. discriminate.
  - assert (K : k < length text).
    { destruct (Nat.lt_ge_cases k (length text)); [assumption|].
      rewrite skipn_all2 in M by assumption.
      rewrite (proper_nil _ Hre) in M. discriminate. }
    cbn [matches_from]. unfold exec.
    destruct (Nat.ltb_spec (length text) li); [lia|].
    assert (M' : match_at re (skipn (k - li) (skipn li text)) = Some n).
    { rewrite skipn_skipn. replace (li + (k - li)) with k by lia. exact M. }
    destruct (search_found re (skipn li text) li (k - li) n) as (j & p & S);
      [rewrite length_skipn; lia | exact M' |].
    rewrite S.
    pose proof (search_leftmost _ _ _ _ _ S (k - li)) as Left.
    destruct (search_Some _ _ _ _ _ S) as (d & -> & D & Md).
    assert (li + d <= k).
    { destruct (Nat.le_gt_cases (li + d) k); [assumption|].
      rewrite Left in M' by lia. discriminate. }
    rewrite skipn_skipn in Md. pose proof (Hre _ _ Md) as [Pos Len].
    rewrite length_skipn in Len, D.
    destruct (Nat.lt_ge_cases k (li + d + p)) as [In_ | Out].
    + eexists. split; [left; reflexivity|].
      cbn [match_index match_0]. unfold substring.
      rewrite length_firstn, length_skipn. lia.
    + destruct (IH (li + d + p) k n) as (m & I & C); [lia | lia | exact M |].
      exists m. split; [right; exact I | exact C].
Qed.

Lemma utf8_encode_code_point_length cp :
  1 <= length (utf8_encode_code_point cp).
Proof.
  unfold utf8_encode_code_point.
  destruct (cp <? 0x80)%N; [simpl; lia|].
  destruct (cp <? 0x800)%N; [simpl; lia|].
  destruct (cp <? 0x10000)%N; simpl; lia.
Qed.

Lemma utf8_pair_length c d :
  length (utf8_encode_code_point (code_point_of_pair c d)) = 4.
Proof.
  unfold utf8_encode_code_point, code_point_of_pair.
  destruct (N.ltb_spec (0x10000 + (c - 0xD800) * 0x400 + (d - 0xDC00)) 0x80);
    [lia|].
  destruct (N.ltb_spec (0x10000 + (c - 0xD800) * 0x400 + (d - 0xDC00)) 0x800);
    [lia|].
  destruct (N.ltb_spec (0x10000 + (c - 0xD800) * 0x400 + (d - 0xDC00)) 0x10000);
    [lia|].
  reflexivity.
Qed.

Lemma newBlob_getBytes_pos c s : 0 < length (newBlob_getBytes (c :: s)).
Proof.
  rewrite newBlob_getBytes_cons.
  pose proof (utf8_encode_code_point_length 0xFFFD).
  pose proof (utf8_encode_code_point_length c).
  destruct (is_high_surrogate c).
  - destruct s as [|d s]; [lia|].
    pose proof (utf8_pair_length c d).
    destruct (is_low_surrogate d); rewrite length_app; lia.
  - destruct (is_low_surrogate c); rewrite length_app; lia.
Qed.

Lemma newBlob_getBytes_prefix a : forall b,
  length (newBlob_getBytes a) <= length (newBlob_getBytes (a ++ b)).
Proof.
  induction a as [a IH] using (induction_ltof1 _ (@length code_unit)).
  unfold ltof in IH. intros b.
  destruct a as [|c [|d a'']].
  - simpl. lia.
  - cbn [app]. rewrite !(newBlob_getBytes_cons c).
    change (newBlob_getBytes []) with (@nil N).
    destruct (is_high_surrogate c).
    + destruct b as [|d b']; [lia|].
      pose proof (utf8_pair_length c d).
      destruct (is_low_surrogate d); rewrite length_app;
        change (length (utf8_encode_code_point 0xFFFD)) with 3; lia.
    + destruct (is_low_surrogate c); rewrite !length_app; simpl; lia.
  - change ((c :: d :: a'') ++ b) with (c :: d :: (a'' ++ b)).
    rewrite !(newBlob_getBytes_cons c).
    pose proof (IH (d :: a'') ltac:(simpl; lia) b) as I1.
    pose proof (IH a'' ltac:(simpl; lia) b) as I2.
    change ((d :: a'') ++ b) with (d :: (a'' ++ b)) in I1.
    destruct (is_high_surrogate c).
    + destruct (is_low_surrogate d); rewrite !length_app; lia.
    + destruct (is_low_surrogate c); rewrite !length_app; lia.
Qed.

Lemma newBlob_getBytes_firstn_le text a b :
  a <= b ->
  length (newBlob_getBytes (firstn a text))
  <= length (newBlob_getBytes (firstn b text)).
Proof.
  intros H. rewrite <- (firstn_skipn a (firstn b text)).
  rewrite firstn_firstn, (Nat.min_l a b H). apply newBlob_getBytes_prefix.
Qed.

Lemma run_length_stop p : forall s,
  match skipn (run_length p s) s with
  | [] => True
  | c :: _ => p c = false
  end.
Proof.
  induction s as [|c s IH]; cbn [run_length]; [exact I|].
  destruct (p c) eqn:Pc; [exact IH | exact Pc].
Qed.

Lemma run_length_Forall p : forall s,
  Forall (fun c => p c = true) (firstn (run_length p s) s).
Proof.
  induction s as [|c s IH]; cbn [run_length]; [constructor|].
  destruct (p c) eqn:Pc; [|constructor].
  cbn [firstn]. constructor; assumption.
Qed.

Lemma white_space_not_low c :
  is_white_space c = true -> is_low_surrogate c = false.
Proof.
  intros W. destruct (is_low_surrogate c) eqn:L; [|reflexivity].
  exfalso. unfold is_low_surrogate in L.
  apply andb_true_iff in L as [L1 L2].
  apply N.leb_le in L1, L2.
  unfold is_white_space in W. cbn [existsb] in W.
  repeat match type of W with
         | context [(c =? ?k)%N] =>
           replace (c =? k)%N with false in W
             by (symmetry; apply N.eqb_neq; lia)
         end.
  replace (c <=? 0x200A)%N with false in W by (symmetry; apply N.leb_gt; lia).
  rewrite andb_false_r in W. discriminate.
Qed.

Lemma hashtag_char_not_high c :
  is_hashtag_char c = true -> is_high_surrogate c = false.
Proof.
  intros W. destruct (is_high_surrogate c) eqn:L; [|reflexivity].
  exfalso. unfold is_high_surrogate in L.
  apply andb_true_iff in L as [L1 L2].
  apply N.leb_le in L1, L2.
  unfold is_hashtag_char, is_ascii_alnum in W.
  repeat match type of W with
         | context [(c <=? ?k)%N] =>
           replace (c <=? k)%N with false in W
             by (symmetry; apply N.leb_gt; lia)
         end.
  replace (c =? 0x5F)%N with false in W by (symmetry; apply N.eqb_neq; lia).
  rewrite !andb_false_r in W. discriminate.
Qed.

Lemma pair_free_cut_low a b :
  is_low_surrogate (hd 0%N b) = false -> pair_free_cut a b = true.
Proof.
  intros H. unfold pair_free_cut.
  apply negb_true_iff, andb_false_iff. right. exact H.
Qed.

Lemma pair_free_cut_high a b :
  is_high_surrogate (last a 0%N) = false -> pair_free_cut a b = true.
Proof.
  intros H. unfold pair_free_cut.
  apply negb_true_iff, andb_false_iff. left. exact H.
Qed.

Lemma last_Forall (P : code_unit -> Prop) : forall a d,
  Forall P a -> a <> [] -> P (last a d).
Proof.
  induction a as [|c a IH]; intros d F N; [contradiction|].
  inversion F; subst. destruct a as [|e a]; [assumption|].
  change (last (c :: e :: a) d) with (last (e :: a) d).
  apply IH; [assumption | discriminate].
Qed.

Lemma scheme_tail_end r n0 m pre :
  scheme_tail r n0 = Some m -> length pre = n0 ->
  match skipn m (pre ++ r) with
  | [] => True
  | c :: _ => is_white_space c = true
  end.
Proof.
  unfold scheme_tail. intros H L.
  destruct (strip_prefix (js "://") r) as [body|] eqn:S; [|discriminate].
  apply strip_prefix_Some in S. subst r.
  destruct (match_run1 _ body) as [k|] eqn:R; [|discriminate].
  apply match_run1_Some in R as (-> & _).
  assert (E : m = n0 + 3 + run_length (fun c => negb (is_white_space c)) body)
    by congruence.
  subst m n0. clear H.
  rewrite <- Nat.add_assoc, <- skipn_skipn, skipn_app_length.
  rewrite <- skipn_skipn.
  change (skipn 3 (js "://" ++ body)) with body.
  pose proof (run_length_stop (fun c => negb (is_white_space c)) body) as St.
  destruct (skipn _ body) as [|c rest]; [exact I|].
  apply negb_false_iff in St. exact St.
Qed.

Lemma match_url_end s n :
  match_at urlRegex s = Some n ->
  match skipn n s with
  | [] => True
  | c :: _ => is_white_space c = true
  end.
Proof.
  rewrite match_url_eq.
  destruct (strip_prefix (js "http") s) as [r|] eqn:S; [|discriminate].
  apply strip_prefix_Some in S. subst s.
  assert (T4 : scheme_tail r 4 = Some n ->
               match skipn n (js "http" ++ r) with
               | [] => True
               | c :: _ => is_white_space c = true
               end).
  { intros H. apply (scheme_tail_end _ _ _ _ H). reflexivity. }
  destruct r as [|c r']; [exact T4|].
  destruct (N.eqb_spec c 0x73); [|exact T4].
  subst c. destruct (scheme_tail r' 5) as [m|] eqn:T5; [|exact T4].
  intros [= ->].
  change (js "http" ++ 0x73%N :: r') with (js "https" ++ r').
  apply (scheme_tail_end _ _ _ _ T5). reflexivity.
Qed.

Lemma urlRegex_clean : clean urlRegex.
Proof.
  intros s n M. split.
  - destruct (match_url_Some _ _ M) as (scheme & c & post & [-> | ->] & -> & _);
      reflexivity.
  - apply pair_free_cut_low. pose proof (match_url_end _ _ M) as E.
    destruct (skipn n s) as [|c rest]; [reflexivity|].
    apply white_space_not_low. exact E.
Qed.

Lemma hashtagRegex_clean : clean hashtagRegex.
Proof.
  intros s n M. cbn [match_at hashtagRegex] in M.
  destruct s as [|c body]; [discriminate|].
  destruct (N.eqb_spec c HASH); [|discriminate]. subst c.
  destruct (match_run1 is_hashtag_char body) as [k|] eqn:R; [|discriminate].
  apply match_run1_Some in R as (-> & [Pos _] & _).
  assert (E : n = S (run_length is_hashtag_char body))
    by (injection M; intros <-; reflexivity).
  subst n. clear M. split; [reflexivity|].
  apply pair_free_cut_high. cbn [firstn].
  pose proof (run_length_Forall is_hashtag_char body) as F.
  destruct (firstn (run_length is_hashtag_char body) body) as [|e l] eqn:Fi.
  - apply (f_equal (@length _)) in Fi. rewrite length_firstn in Fi.
    pose proof (run_length_le is_hashtag_char body). simpl in Fi. lia.
  - change (last (HASH :: e :: l) 0%N) with (last (e :: l) 0%N).
    apply hashtag_char_not_high.
    apply (last_Forall (fun c => is_hashtag_char c = true));
      [assumption | discriminate].
Qed.

Lemma valid_match_bytes re text m :
  proper re -> clean re -> valid_match re text m ->
  exists after,
    text = firstn (match_index m) text ++ match_0 m ++ after
    /\ length (firstn (match_index m) text) = match_index m
    /\ match_0 m <> []
    /\ newBlob_getBytes text
       = newBlob_getBytes (firstn (match_index m) text)
         ++ newBlob_getBytes (match_0 m) ++ newBlob_getBytes after
    /\ newBlob_getBytes (firstn (match_index m + length (match_0 m)) text)
       = newBlob_getBytes (firstn (match_index m) text)
         ++ newBlob_getBytes (match_0 m).
Proof.
  intros Hre Hcl (after & T & B & M).
  destruct (Hcl _ _ M) as [Start End_].
  destruct (Hre _ _ M) as [Pos _].
  rewrite firstn_app, Nat.sub_diag, firstn_all, firstn_O, app_nil_r in End_.
  rewrite skipn_app, Nat.sub_diag, skipn_all, skipn_O in End_.
  cbn [app] in End_.
  assert (L : length (firstn (match_index m) text) = match_index m)
    by (rewrite length_firstn; lia).
  assert (Ne : match_0 m <> []) by (destruct (match_0 m); [simpl in Pos; lia | discriminate]).
  assert (Start' : is_low_surrogate (hd 0%N (match_0 m)) = false).
  { destruct (match_0 m); [contradiction | exact Start]. }
  exists after. repeat split; try assumption.
  - rewrite T at 1.
    rewrite newBlob_getBytes_app by (apply pair_free_cut_low; exact Start).
    rewrite newBlob_getBytes_app by exact End_. reflexivity.
  - rewrite T at 1. rewrite <- L at 1.
    rewrite firstn_app_2, firstn_app, Nat.sub_diag, firstn_all, firstn_O,
      app_nil_r.
    apply newBlob_getBytes_app. apply pair_free_cut_low. exact Start'.
Qed.

Lemma StronglySorted_map_in {A B} (R : A -> A -> Prop) (S : B -> B -> Prop)
  (f : A -> B) : forall l,
  (forall x y, In x l -> In y l -> R x y -> S (f x) (f y)) ->
  StronglySorted R l -> StronglySorted S (map f l).
Proof.
  induction l as [|a l IH]; intros H Sl; cbn [map]; [constructor|].
  inversion Sl as [|? ? Sl' Fa]; subst.
  constructor.
  - apply IH; [|assumption]. intros x y Hx Hy. apply H; right; assumption.
  - apply Forall_forall. intros b Hb. apply in_map_iff in Hb as (y & <- & Hy).
    apply H; [left; reflexivity | right; assumption |].
    rewrite Forall_forall in Fa. apply Fa. assumption.
Qed.

Section FacetsOfAPattern.

Variable re : RegExp.

Hypothesis Hre : proper re.

Hypothesis Hcl : clean re.

Variable text_ : jsstring.

Variable body : RegExpExecArray -> Facet.

Hypothesis body_index : forall m,
  index (body m)
  = {| byteStart := length (newBlob_getBytes (firstn (match_index m) text_));
       byteEnd := length (newBlob_getBytes (firstn (match_index m) text_))
                  + length (newBlob_getBytes (match_0 m)) |}.

Lemma facets_sorted fuel lastIndex :
  StronglySorted before_facet
    (map body (matches_from fuel re text_ lastIndex)).
Proof.
  apply (StronglySorted_map_in match_before);
    [|apply matches_from_sorted; assumption].
  intros m m' Hm Hm' Bef.
  apply (matches_from_valid _ _ Hre) in Hm as [Vm _].
  destruct (valid_match_bytes _ _ _ Hre Hcl Vm) as (_ & _ & _ & _ & _ & E).
  unfold before_facet. rewrite !body_index. cbn [byteStart byteEnd].
  rewrite <- length_app, <- E.
  apply newBlob_getBytes_firstn_le. exact Bef.
Qed.

Lemma facet_slice m :
  valid_match re text_ m ->
  byteStart (index (body m)) < byteEnd (index (body m))
    <= length (newBlob_getBytes text_)
  /\ byte_slice (newBlob_getBytes text_) (index (body m))
     = newBlob_getBytes (match_0 m).
Proof.
  intros Vm.
  destruct (valid_match_bytes _ _ _ Hre Hcl Vm) as (after & _ & _ & Ne & E & _).
  rewrite body_index. unfold byte_slice. cbn [byteStart byteEnd].
  rewrite E. rewrite !length_app.
  destruct (match_0 m) as [|c M] eqn:E0; [contradiction|].
  pose proof (newBlob_getBytes_pos c M).
  split; [lia|].
  rewrite skipn_app, Nat.sub_diag, skipn_all, skipn_O. cbn [app].
  replace (length (newBlob_getBytes (firstn (match_index m) text_))
           + length (newBlob_getBytes (c :: M))
           - length (newBlob_getBytes (firstn (match_index m) text_)))
    with (length (newBlob_getBytes (c :: M))) by lia.
  rewrite firstn_app, Nat.sub_diag, firstn_all, firstn_O, app_nil_r.
  reflexivity.
Qed.

End FacetsOfAPattern.

Lemma linkFacet_index text_ m :
  index (linkFacet text_ m)
  = {| byteStart := length (newBlob_getBytes (firstn (match_index m) text_));
       byteEnd := length (newBlob_getBytes (firstn (match_index m) text_))
                  + length (newBlob_getBytes (match_0 m)) |}.
Proof. unfold linkFacet. cbn [index]. rewrite substring_0. reflexivity. Qed.

Lemma tagFacet_index text_ m :
  index (tagFacet text_ m)
  = {| byteStart := length (newBlob_getBytes (firstn (match_index m) text_));
       byteEnd := length (newBlob_getBytes (firstn (match_index m) text_))
                  + length (newBlob_getBytes (match_0 m)) |}.
Proof. unfold tagFacet. cbn [index]. rewrite substring_0. reflexivity. Qed.

Lemma extractFacets_matches text_ :
  Legacy.extractFacets text_
  = map (linkFacet text_) (matches_from (S (length text_)) urlRegex text_ 0)
  /\ extractFacets text_
     = Legacy.extractFacets text_
       ++ map (tagFacet text_)
            (matches_from (S (length text_)) hashtagRegex text_ 0).
Proof.
  unfold extractFacets, Legacy.extractFacets. cbv zeta.
  rewrite !while_exec_matches. split; reflexivity.
Qed.

Lemma hashtag_match_head text_ m :
  valid_match hashtagRegex text_ m ->
  match_0 m = HASH :: skipn 1 (match_0 m).
Proof.
  intros (after & _ & _ & M).
  destruct (match_hashtag_Some _ _ M) as (c & post & Eq & _).
  destruct (hashtagRegex_proper _ _ M) as [Pos _].
  destruct (match_0 m) as [|h tag]; [simpl in Pos; lia|].
  cbn [app] in Eq. cons_inv Eq. subst h. reflexivity.
Qed.

(** X1. Every facet of [extractFacets], of either revision, has one
    feature and a non-empty byte range within the UTF-8 bytes of the
    text, and the bytes of that range are the UTF-8 bytes of what the
    feature is about: the address of the link, or [#] and the tag. *)
Theorem facet_bytes_are_the_match (text_ : jsstring) (f : Facet) :
  In f (extractFacets text_) \/ In f (Legacy.extractFacets text_) ->
  exists feature,
    features f = [feature]
    /\ byteStart (index f) < byteEnd (index f)
       <= length (newBlob_getBytes text_)
    /\ byte_slice (newBlob_getBytes text_) (index f)
       = newBlob_getBytes (feature_text feature).
Proof.
  destruct (extractFacets_matches text_) as [L C].
  intros H.
  assert (H' : In f (map (linkFacet text_)
                       (matches_from (S (length text_)) urlRegex text_ 0))
               \/ In f (map (tagFacet text_)
                          (matches_from (S (length text_)) hashtagRegex
                             text_ 0))).
  { destruct H as [H | H].
    - rewrite C, L in H. apply in_app_or in H. exact H.
    - rewrite L in H. left. exact H. }
  clear H. destruct H' as [H | H]; apply in_map_iff in H as (m & <- & Hm).
  - apply (matches_from_valid _ _ urlRegex_proper) in Hm as [Vm _].
    exists (FacetLink (match_0 m)). split; [reflexivity|].
    exact (facet_slice urlRegex urlRegex_proper urlRegex_clean text_
             (linkFacet text_) (linkFacet_index text_) m Vm).
  - apply (matches_from_valid _ _ hashtagRegex_proper) in Hm as [Vm _].
    exists (FacetTag (skipn 1 (match_0 m))). split; [reflexivity|].
    cbn [feature_text]. rewrite <- (hashtag_match_head _ _ Vm).
    exact (facet_slice hashtagRegex hashtagRegex_proper hashtagRegex_clean
             text_ (tagFacet text_) (tagFacet_index text_) m Vm).
Qed.

Lemma facet_bytes_are_the_match_witness :
  exists feature,
    features meian_link_facet = [feature]
    /\ byteStart (index meian_link_facet) < byteEnd (index meian_link_facet)
       <= length (newBlob_getBytes (text meian_content))
    /\ byte_slice (newBlob_getBytes (text meian_content))
         (index meian_link_facet)
       = newBlob_getBytes (feature_text feature).
Proof.
  apply (facet_bytes_are_the_match (text meian_content) meian_link_facet).
  left. vm_compute. left. reflexivity.
Defined.

(** X2. The facets of [extractFacets] are the link facets, which are the
    facets of the earlier revision, followed by the tag facets; the list
    is not in the order of the text.  Within the links and within the
    tags the ranges are in increasing order and do not overlap. *)
Theorem extractFacets_links_then_tags (text_ : jsstring) :
  exists tags,
    extractFacets text_ = Legacy.extractFacets text_ ++ tags
    /\ Forall (fun f => exists uri, features f = [FacetLink uri])
         (Legacy.extractFacets text_)
    /\ Forall (fun f => exists tag, features f = [FacetTag tag]) tags
    /\ StronglySorted before_facet (Legacy.extractFacets text_)
    /\ StronglySorted before_facet tags.
Proof.
  destruct (extractFacets_matches text_) as [L C].
  eexists. split; [exact C|]. rewrite L.
  split; [|split; [|split]].
  - apply Forall_forall. intros f H. apply in_map_iff in H as (m & <- & _).
    eexists. reflexivity.
  - apply Forall_forall. intros f H. apply in_map_iff in H as (m & <- & _).
    eexists. reflexivity.
  - apply (facets_sorted urlRegex urlRegex_proper urlRegex_clean text_).
    apply linkFacet_index.
  - apply (facets_sorted hashtagRegex hashtagRegex_proper hashtagRegex_clean
             text_).
    apply tagFacet_index.
Qed.

Lemma linkFacet_eq text_ m :
  linkFacet text_ m = link_facet_of (firstn (match_index m) text_) (match_0 m).
Proof. unfold linkFacet, link_facet_of. rewrite substring_0. reflexivity. Qed.

Lemma tagFacet_eq text_ m :
  valid_match hashtagRegex text_ m ->
  tagFacet text_ m
  = tag_facet_of (firstn (match_index m) text_) (skipn 1 (match_0 m)).
Proof.
  intros V. unfold tagFacet, tag_facet_of. rewrite substring_0.
  rewrite <- (hashtag_match_head _ _ V). reflexivity.
Qed.

Lemma matches_cover_all re text_ (Hre : proper re) k n :
  match_at re (skipn k text_) = Some n ->
  exists m after,
    In m (matches_from (S (length text_)) re text_ 0)
    /\ valid_match re text_ m
    /\ text_ = firstn (match_index m) text_ ++ match_0 m ++ after
    /\ length (firstn (match_index m) text_) <= k
       < length (firstn (match_index m) text_) + length (match_0 m).
Proof.
  intros M.
  destruct (matches_from_cover re text_ Hre (S (length text_)) 0 k n)
    as (m & I & C); [lia | lia | exact M |].
  destruct (matches_from_valid _ _ Hre _ _ _ I) as [V _].
  pose proof V as (after & T & B & _).
  exists m, after. repeat split; try assumption;
    rewrite length_firstn; lia.
Qed.

(** X3. No URL and no hashtag is missed: a position of the text where
    the URL pattern matches lies within the link of a link facet (of both
    revisions), and a position where the hashtag pattern matches lies
    within [#] and the tag of a tag facet. *)
Theorem every_match_lies_in_a_facet (text_ : jsstring) (k n : nat) :
  (match_at urlRegex (skipn k text_) = Some n ->
   exists before uri after,
     text_ = before ++ uri ++ after
     /\ length before <= k < length before + length uri
     /\ In (link_facet_of before uri) (Legacy.extractFacets text_)
     /\ In (link_facet_of before uri) (extractFacets text_))
  /\ (match_at hashtagRegex (skipn k text_) = Some n ->
      exists before tag after,
        text_ = before ++ (HASH :: tag) ++ after
        /\ length before <= k < length before + length (HASH :: tag)
        /\ In (tag_facet_of before tag) (extractFacets text_)).
Proof.
  destruct (extractFacets_matches text_) as [L C]. split; intros M.
  - destruct (matches_cover_all _ _ urlRegex_proper _ _ M)
      as (m & after & I & V & T & K).
    exists (firstn (match_index m) text_), (match_0 m), after.
    split; [exact T|]. split; [exact K|].
    assert (In (link_facet_of (firstn (match_index m) text_) (match_0 m))
              (Legacy.extractFacets text_)).
    { rewrite L, <- linkFacet_eq. apply in_map. exact I. }
    split; [assumption|]. rewrite C. apply in_or_app. left. assumption.
  - destruct (matches_cover_all _ _ hashtagRegex_proper _ _ M)
      as (m & after & I & V & T & K).
    rewrite (hashtag_match_head _ _ V) in T, K.
    exists (firstn (match_index m) text_), (skipn 1 (match_0 m)), after.
    split; [exact T|]. split; [exact K|].
    rewrite C. apply in_or_app. right.
    rewrite <- (tagFacet_eq _ _ V). apply in_map. exact I.
Qed.

(* ====================================================================== *)
(** * Outcomes of the Bluesky publisher                                    *)
(* ====================================================================== *)

Lemma uploadBlobToBluesky_run (P : Platform) (imageUrl : jsstring)
  (accessJwt : JSValue) (w : World) :
  exists (blob : JSValue) (lines : list jsstring) (calls : list FetchCall),
    uploadBlobToBluesky P imageUrl accessJwt w
    = (Ok blob, {| logged := logged w ++ lines;
                   fetched := fetched w ++ calls |})
    /\ match UrlFetchApp_respond P (fetched w) (download_call imageUrl) with
       | Throw _ => calls = [download_call imageUrl] /\ blob = JSNull
       | Ok imageResponse =>
         let upload := upload_call accessJwt (getBlob imageResponse) in
         calls = [download_call imageUrl; upload]
         /\ blob = uploaded_blob P
                     (UrlFetchApp_respond P
                        (fetched w ++ [download_call imageUrl]) upload)
       end.
Proof.
  unfold uploadBlobToBluesky, try_catch. rewrite run_bind.
  unfold UrlFetchApp_fetch at 1. fold (download_call imageUrl).
  destruct (UrlFetchApp_respond P (fetched w) (download_call imageUrl))
    as [imageResponse|e].
  - cbv zeta. rewrite run_bind. unfold Logger_log at 1.
    rewrite run_bind. unfold UrlFetchApp_fetch at 1.
    cbn [logged fetched].
    fold (upload_call accessJwt (getBlob imageResponse)).
    unfold uploaded_blob.
    destruct (UrlFetchApp_respond P (fetched w ++ [download_call imageUrl])
                (upload_call accessJwt (getBlob imageResponse)))
      as [uploadResponse|e].
    + destruct (getResponseCode uploadResponse =? 200)%Z.
      * rewrite run_bind. unfold lift at 1.
        destruct (JSON_parse P (getContentText uploadResponse)) as [data|e].
        -- rewrite run_bind. unfold lift at 1.
           destruct (Get data (js "blob")) as [blob|e].
           ++ eexists _, [_; _], _.
              cbv [bind Logger_log ret]. cbn [logged fetched].
              rewrite <- !app_assoc. split; [reflexivity|]. auto.
           ++ eexists _, [_; _], _.
              cbv [bind Logger_log ret]. cbn [logged fetched].
              rewrite <- !app_assoc. split; [reflexivity|]. auto.
        -- eexists _, [_; _], _.
           cbv [bind Logger_log ret]. cbn [logged fetched].
           rewrite <- !app_assoc. split; [reflexivity|]. auto.
      * eexists _, [_; _], _.
        cbv [bind Logger_log ret]. cbn [logged fetched].
        rewrite <- !app_assoc. split; [reflexivity|]. auto.
    + eexists _, [_; _], _.
      cbv [bind Logger_log ret]. cbn [logged fetched].
      rewrite <- !app_assoc. split; [reflexivity|]. auto.
  - eexists _, [_], _. cbv [bind Logger_log ret]. cbn [logged fetched].
    split; [reflexivity|]. auto.
Qed.

(** X4. [uploadBlobToBluesky] never throws.  It downloads the image and,
    unless the download throws, uploads the bytes it got under their
    content type ([image/jpeg] when there is none), whatever the status of
    the download was; it makes no other call.  It returns the [blob]
    member of the parsed answer when the upload is answered 200 with a
    body that parses, and [null] in every other case. *)
Theorem uploadBlobToBluesky_outcome (P : Platform) (imageUrl : jsstring)
  (accessJwt : JSValue) (w : World) :
  exists (blob : JSValue) (w' : World),
    uploadBlobToBluesky P imageUrl accessJwt w = (Ok blob, w')
    /\ match UrlFetchApp_respond P (fetched w) (download_call imageUrl) with
       | Throw _ =>
         fetched w' = fetched w ++ [download_call imageUrl] /\ blob = JSNull
       | Ok imageResponse =>
         let upload := upload_call accessJwt (getBlob imageResponse) in
         fetched w' = fetched w ++ [download_call imageUrl; upload]
         /\ blob = uploaded_blob P
                     (UrlFetchApp_respond P
                        (fetched w ++ [download_call imageUrl]) upload)
         /\ (blob <> JSNull ->
             exists uploadResponse,
               UrlFetchApp_respond P (fetched w ++ [download_call imageUrl])
                 upload = Ok uploadResponse
               /\ getResponseCode uploadResponse = 200%Z)
       end.
Proof.
  destruct (uploadBlobToBluesky_run P imageUrl accessJwt w)
    as (blob & lines & calls & Run & H).
  eexists _, _. split; [exact Run|]. cbn [fetched].
  destruct (UrlFetchApp_respond P (fetched w) (download_call imageUrl))
    as [imageResponse|e].
  - cbv zeta in *. destruct H as [-> ->]. split; [reflexivity|].
    split; [reflexivity|].
    unfold uploaded_blob.
    destruct (UrlFetchApp_respond P (fetched w ++ [download_call imageUrl])
                (upload_call accessJwt (getBlob imageResponse)))
      as [uploadResponse|e]; [|intros N; contradiction].
    destruct (Z.eqb_spec (getResponseCode uploadResponse) 200);
      [|intros N; contradiction].
    intros _. exists uploadResponse. auto.
  - destruct H as [-> ->]. auto.
Qed.



(* ====================================================================== *)
(** * The OAuth header                                                     *)
(* ====================================================================== *)

Lemma generateOAuthHeader_eq (P : Platform) (method_ url_ : jsstring)
  (credentials : XCredentials) (w : World) :
  let timestamp := Number_toString (Date_now P (fetched w) / 1000) in
  let nonce := Utilities_getUuid P (fetched w) in
  generateOAuthHeader P method_ url_ [] credentials w
  = (let? signature :=
       generateOAuthSignature P method_ url_
         (oauth_parameters credentials timestamp nonce)
         (apiSecret credentials) (accessTokenSecret credentials) in
     let? k := encodeURIComponent (apiKey credentials) in
     let? n := encodeURIComponent nonce in
     let? s := encodeURIComponent signature in
     let? t := encodeURIComponent timestamp in
     let? a := encodeURIComponent (accessToken credentials) in
     Ok (oauth_header_text k n s t a),
     w).
Proof.
  cbv zeta. unfold generateOAuthHeader.
  cbv beta iota zeta delta [bind ret lift].
  destruct credentials as [consumer_key consumer_secret token token_secret].
  cbn [apiKey apiSecret accessToken accessTokenSecret].
  generalize (Number_toString (Date_now P (fetched w) / 1000)).
  generalize (Utilities_getUuid P (fetched w)).
  intros nonce timestamp.
  change (props_spread
            [(js "oauth_consumer_key", consumer_key);
             (js "oauth_token", token);
             (js "oauth_signature_method", js "HMAC-SHA1");
             (js "oauth_timestamp", timestamp);
             (js "oauth_nonce", nonce);
             (js "oauth_version", js "1.0")] [])
    with (oauth_parameters
            {| apiKey := consumer_key; apiSecret := consumer_secret;
               accessToken := token; accessTokenSecret := token_secret |}
            timestamp nonce).
  destruct (generateOAuthSignature P method_ url_ _ _ _) as [signature|e];
    [|reflexivity].
  cbn [Result_bind].
  match goal with
  | |- context [Array_sort ?l] =>
    replace (Array_sort l)
      with [js "oauth_consumer_key"; js "oauth_nonce"; js "oauth_signature";
            js "oauth_signature_method"; js "oauth_timestamp";
            js "oauth_token"; js "oauth_version"]
      by (vm_compute; reflexivity)
  end.
  unfold oauth_parameters. cbn [apiKey accessToken].
  cbn [Result_mapM].
  repeat match goal with
         | |- context [param_at ?ps ?k] =>
           let v := eval vm_compute in (param_at ps k) in
           change (param_at ps k) with v
         end.
  repeat match goal with
         | |- context [encodeURIComponent (js ?k)] =>
           let v := eval vm_compute in (encodeURIComponent (js k)) in
           change (encodeURIComponent (js k)) with v
         end.
  repeat match goal with
         | |- context [encodeURIComponent (?c :: ?l)] =>
           let v := eval vm_compute in (encodeURIComponent (c :: l)) in
           change (encodeURIComponent (c :: l)) with v
         end.
  cbn [Result_bind].
  destruct (encodeURIComponent consumer_key) as [k|]; [|reflexivity].
  cbn [Result_bind].
  destruct (encodeURIComponent nonce) as [n|]; [|reflexivity].
  cbn [Result_bind].
  destruct (encodeURIComponent signature) as [s|]; [|reflexivity].
  cbn [Result_bind].
  destruct (encodeURIComponent timestamp) as [t|]; [|reflexivity].
  cbn [Result_bind].
  destruct (encodeURIComponent token) as [a|]; [|reflexivity].
  cbn [Result_bind join]. unfold oauth_header_text.
  rewrite <- !app_assoc. vm_compute. reflexivity.
Qed.

Lemma bytes_of_string_String a s :
  bytes_of_string (String a s) = N_of_ascii a :: bytes_of_string s.
Proof. reflexivity. Qed.

Lemma string_of_uint_digits d :
  Forall (fun c => is_decimal_digit c = true)
    (bytes_of_string (NilEmpty.string_of_uint d)).
Proof.
  induction d; cbn [NilEmpty.string_of_uint];
    try (rewrite bytes_of_string_String; constructor;
         [reflexivity | assumption]).
  constructor.
Qed.

Lemma Number_toString_units n :
  exists sign digits,
    Number_toString n = sign ++ digits
    /\ (sign = [] \/ ((n < 0)%Z /\ sign = [HYPHEN]))
    /\ digits <> []
    /\ Forall (fun c => is_decimal_digit c = true) digits.
Proof.
  unfold Number_toString.
  assert (U : forall d, NilZero.string_of_uint d <> ""%string
                        /\ Forall (fun c => is_decimal_digit c = true)
                             (bytes_of_string (NilZero.string_of_uint d))).
  { intros d. split.
    - destruct d; discriminate.
    - destruct d; try apply (string_of_uint_digits (_ d)).
      repeat constructor. }
  assert (Ne : forall s, s <> ""%string -> bytes_of_string s <> []).
  { intros [|a s] H; [contradiction | discriminate]. }
  destruct n as [|p|p]; cbn [Z.to_int NilZero.string_of_int].
  - exists [], (bytes_of_string "0"). repeat split; auto.
    + discriminate.
    + repeat constructor.
  - exists [], (bytes_of_string (NilZero.string_of_uint (Pos.to_uint p))).
    destruct (U (Pos.to_uint p)). repeat split; auto.
  - exists [HYPHEN],
      (bytes_of_string (NilZero.string_of_uint (Pos.to_uint p))).
    destruct (U (Pos.to_uint p)). repeat split; auto.
    right. split; [lia | reflexivity].
Qed.

Lemma digit_uriUnescaped c :
  is_decimal_digit c = true -> uriUnescaped c = true.
Proof.
  unfold is_decimal_digit, uriUnescaped, is_ascii_alnum. intros ->.
  rewrite orb_true_r. reflexivity.
Qed.

Lemma encodeURIComponent_Number_toString z :
  encodeURIComponent (Number_toString z) = Ok (Number_toString z).
Proof.
  apply Encode_kept.
  destruct (Number_toString_units z) as (sign & digits & -> & S & _ & D).
  rewrite forallb_app. apply andb_true_iff. split.
  - destruct S as [-> | [_ ->]]; reflexivity.
  - apply forallb_forall. intros c Hc. rewrite Forall_forall in D.
    apply digit_uriUnescaped, D, Hc.
Qed.

(** X6. For a request without parameters of its own, [generateOAuthHeader]
    leaves the world as it is and returns [OAuth] followed by exactly
    seven parameters, sorted by key: consumer key, nonce, signature,
    signature method, time stamp, token and version, each value
    percent-encoded between double quotes.  The signature is the one of
    the six other parameters; the time stamp is the clock in seconds,
    rounded down; the two secrets occur in the signature only.  It throws
    only when one of the encodings does. *)
Theorem generateOAuthHeader_form (P : Platform) (method_ url_ : jsstring)
  (credentials : XCredentials) (w : World) :
  let timestamp := Number_toString (Date_now P (fetched w) / 1000) in
  let nonce := Utilities_getUuid P (fetched w) in
  generateOAuthHeader P method_ url_ [] credentials w
  = (let? signature :=
       generateOAuthSignature P method_ url_
         (oauth_parameters credentials timestamp nonce)
         (apiSecret credentials) (accessTokenSecret credentials) in
     let? k := encodeURIComponent (apiKey credentials) in
     let? n := encodeURIComponent nonce in
     let? s := encodeURIComponent signature in
     let? a := encodeURIComponent (accessToken credentials) in
     Ok (oauth_header_text k n s timestamp a),
     w).
Proof.
  cbv zeta. rewrite (generateOAuthHeader_eq P method_ url_ credentials w).
  cbv zeta. f_equal.
  destruct (generateOAuthSignature P method_ url_ _ _ _) as [signature|];
    [|reflexivity].
  cbn [Result_bind].
  destruct (encodeURIComponent (apiKey credentials)); [|reflexivity].
  cbn [Result_bind].
  destruct (encodeURIComponent (Utilities_getUuid P (fetched w)));
    [|reflexivity].
  cbn [Result_bind].
  destruct (encodeURIComponent signature); [|reflexivity].
  cbn [Result_bind].
  rewrite encodeURIComponent_Number_toString. reflexivity.
Qed.

(** The header of the request of the scenario. *)
Example generateOAuthHeader_scenario :
  generateOAuthHeader scenario_403 (js "POST")
    (js "https://api.twitter.com/2/tweets") [] scenario_credentials
    empty_world
  = (Ok (oauth_header_text (js "key")
           (js "6fa459ea-ee8a-4ca4-894e-db77e160355e")
           (js "ttSu%2BQHizj1CYGPDPRFIZazGABs%3D") (js "1735689600")
           (js "token")),
     empty_world).
Proof. vm_compute. reflexivity. Qed.

(* ====================================================================== *)
(** * The address of the OGP image                                         *)
(* ====================================================================== *)

Lemma generateOGPImageUrl_run sentenceText title_ author_ lang w :
  generateOGPImageUrl sentenceText title_ author_ lang w
  = match (let? s := encodeURIComponent sentenceText in
           let? t := encodeURIComponent title_ in
           let? a := encodeURIComponent author_ in
           Ok (ogp_address s t a lang)) with
    | Ok u =>
      (Ok u, {| logged := logged w ++ [js "Generated OGP image URL: " ++ u];
                fetched := fetched w |})
    | Throw e => (Throw e, w)
    end.
Proof.
  unfold generateOGPImageUrl. rewrite run_bind. unfold lift at 1.
  destruct (encodeURIComponent sentenceText) as [s|]; [|reflexivity].
  cbn [Result_bind].
  destruct (encodeURIComponent title_) as [t|]; [|reflexivity].
  cbn [Result_bind].
  destruct (encodeURIComponent author_) as [a|]; [|reflexivity].
  cbn [Result_bind].
  replace (encodeURIComponent (Language_text lang))
    with (Ok (Language_text lang))
    by (destruct lang; vm_compute; reflexivity).
  cbn [Result_bind join]. cbv zeta. cbv [bind Logger_log ret].
  assert (E : js "https://rmc-8.com/api/og-shosha?"
              ++ (js "sentence=" ++ s) ++ js "&" ++ (js "title=" ++ t)
              ++ js "&" ++ (js "author=" ++ a) ++ js "&"
              ++ js "lang=" ++ Language_text lang
              = ogp_address s t a lang).
  { unfold ogp_address. rewrite <- !app_assoc. vm_compute. reflexivity. }
  rewrite E. reflexivity.
Qed.

Lemma ogp_address_eq s t a l :
  ogp_address s t a l
  = js "https://rmc-8.com/api/og-shosha?sentence=" ++ s
    ++ js "&title=" ++ t ++ js "&author=" ++ a
    ++ js "&lang=" ++ Language_text l.
Proof. reflexivity. Qed.

Lemma ogp_address_inj s1 t1 a1 l1 s2 t2 a2 l2 :
  ~ In 0x26%N s1 -> ~ In 0x26%N t1 -> ~ In 0x26%N a1 ->
  ~ In 0x26%N s2 -> ~ In 0x26%N t2 -> ~ In 0x26%N a2 ->
  ogp_address s1 t1 a1 l1 = ogp_address s2 t2 a2 l2 ->
  s1 = s2 /\ t1 = t2 /\ a1 = a2 /\ l1 = l2.
Proof.
  intros S1 T1 A1 S2 T2 A2 H. rewrite !ogp_address_eq in H.
  assert (Et : js "&title=" = 0x26%N :: js "title=")
    by (vm_compute; reflexivity).
  assert (Ea : js "&author=" = 0x26%N :: js "author=")
    by (vm_compute; reflexivity).
  assert (El : js "&lang=" = 0x26%N :: js "lang=")
    by (vm_compute; reflexivity).
  rewrite Et, Ea, El in H. rewrite <- !app_comm_cons in H.
  apply app_inv_head in H.
  apply split_at_first in H as [-> H]; [|assumption ..].
  apply app_inv_head in H.
  apply split_at_first in H as [-> H]; [|assumption ..].
  apply app_inv_head in H.
  apply split_at_first in H as [-> H]; [|assumption ..].
  apply app_inv_head in H.
  repeat split. destruct l1, l2; try reflexivity; vm_compute in H;
    cons_inv H; discriminate.
Qed.

(** X7. [generateOGPImageUrl] returns for well-formed strings; when it
    returns, it has logged the address, the one line it logs, and made no
    call, and the address comes from one sentence, title, author and
    language only.  When it throws, it throws [URIError] and has logged
    nothing. *)
Theorem generateOGPImageUrl_injective (sentenceText title_ author_ : jsstring)
  (lang : Language) (w : World) :
  (well_formed sentenceText = true -> well_formed title_ = true ->
   well_formed author_ = true ->
   exists u, fst (generateOGPImageUrl sentenceText title_ author_ lang w)
             = Ok u)
  /\ (forall u w',
        generateOGPImageUrl sentenceText title_ author_ lang w = (Ok u, w') ->
        w' = {| logged := logged w ++ [js "Generated OGP image URL: " ++ u];
                fetched := fetched w |}
        /\ forall sentenceText2 title2 author2 lang2 w2 w2',
             generateOGPImageUrl sentenceText2 title2 author2 lang2 w2
             = (Ok u, w2') ->
             (sentenceText2, title2, author2, lang2)
             = (sentenceText, title_, author_, lang))
  /\ (forall e w',
        generateOGPImageUrl sentenceText title_ author_ lang w
        = (Throw e, w') ->
        e = URIError /\ w' = w).
Proof.
  rewrite generateOGPImageUrl_run.
  assert (Pair : forall (A B : Type) (a a' : A) (b b' : B),
             (a, b) = (a', b') -> a = a' /\ b = b').
  { intros A B a a' b b' E. split.
    - exact (f_equal fst E).
    - exact (f_equal snd E). }
  split; [|split].
  - intros [s ->]%encodeURIComponent_total [t ->]%encodeURIComponent_total
      [a ->]%encodeURIComponent_total.
    eexists. reflexivity.
  - intros u w' H.
    destruct (encodeURIComponent sentenceText) as [s|] eqn:Es;
      [|discriminate H].
    destruct (encodeURIComponent title_) as [t|] eqn:Et; [|discriminate H].
    destruct (encodeURIComponent author_) as [a|] eqn:Ea; [|discriminate H].
    cbn [Result_bind] in H. apply Pair in H as [Hu Hw].
    apply Ok_inj in Hu. subst u w'. split; [reflexivity|].
    intros s2 t2 a2 l2 w2 w2' H2. rewrite generateOGPImageUrl_run in H2.
    destruct (encodeURIComponent s2) as [s'|] eqn:Es2; [|discriminate H2].
    destruct (encodeURIComponent t2) as [t'|] eqn:Et2; [|discriminate H2].
    destruct (encodeURIComponent a2) as [a'|] eqn:Ea2; [|discriminate H2].
    cbn [Result_bind] in H2. apply Pair in H2 as [H2 _]. apply Ok_inj in H2.
    apply ogp_address_inj in H2 as (-> & -> & -> & ->);
      eauto using encodeURIComponent_no_ampersand.
    rewrite (encodeURIComponent_inj _ _ _ Es2 Es),
      (encodeURIComponent_inj _ _ _ Et2 Et),
      (encodeURIComponent_inj _ _ _ Ea2 Ea).
    reflexivity.
  - intros e w' H.
    assert (U : forall x r, encodeURIComponent x = Throw r -> r = URIError).
    { intros x r Hx. exact (Encode_Throw _ _ _ Hx). }
    destruct (encodeURIComponent sentenceText) as [s|e1] eqn:Es.
    + destruct (encodeURIComponent title_) as [t|e2] eqn:Et.
      * destruct (encodeURIComponent author_) as [a|e3] eqn:Ea;
          [discriminate H|].
        cbn [Result_bind] in H. apply Pair in H as [He <-].
        assert (e3 = e) by congruence. subst e.
        split; [exact (U _ _ Ea) | reflexivity].
      * cbn [Result_bind] in H. apply Pair in H as [He <-].
        assert (e2 = e) by congruence. subst e.
        split; [exact (U _ _ Et) | reflexivity].
    + cbn [Result_bind] in H. apply Pair in H as [He <-].
      assert (e1 = e) by congruence. subst e.
      split; [exact (U _ _ Es) | reflexivity].
Qed.
